(** * Contact manager client: [static/js/index.js]

    A shallow embedding of the client-side state-synchronisation logic of the
    contact manager (the script loaded by [static/index.html]) and the proofs
    of the properties its specification states.

    Layout of the development:
    - JavaScript strings as sequences of UTF-16 code units, with the
      built-ins the script calls ([trim], [includes], global [replace],
      [RegExp.prototype.test], [JSON.stringify] on arrays of strings);
    - the module-level variables and the DOM cells the script reads and
      writes, as one record threaded through a state-and-exception monad;
    - every function and event listener of the script, in source order;
    - the theorems. *)

From Stdlib Require Import List NArith ZArith Bool Lia String Ascii.
From Stdlib Require Import Sorted Permutation.
Import ListNotations.

Local Open Scope N_scope.
Local Open Scope list_scope.
Local Open Scope bool_scope.

(* ===================================================================== *)
(** * JavaScript strings *)
(* ===================================================================== *)

(** A JavaScript string is a finite sequence of UTF-16 code units. *)
Definition codeUnit := N.
Bind Scope N_scope with codeUnit.
Definition jsstring := list codeUnit.

(** String literals of the script: every literal in [index.js] is ASCII, so
    a literal is the sequence of its character codes. *)
Definition js (s : string) : jsstring :=
  List.map N_of_ascii (list_ascii_of_string s).

Definition jsstring_eqb (a b : jsstring) : bool :=
  if list_eq_dec N.eq_dec a b then true else false.

(** Truthiness of a string value ([s ? .. : ..], [s || ..], [s && ..]):
    the empty string is the only falsy string. *)
Definition truthy_string (s : jsstring) : bool :=
  match s with
  | [] => false
  | _ :: _ => true
  end.

(** ECMAScript [WhiteSpace] and [LineTerminator] code points; this is the set
    both [String.prototype.trim] strips and the regular-expression class
    [\s] matches. *)
Definition isWhiteSpace (c : codeUnit) : bool :=
  (N.eqb c 9 || N.eqb c 10 || N.eqb c 11 || N.eqb c 12 || N.eqb c 13
   || N.eqb c 32 || N.eqb c 160 || N.eqb c 5760
   || (N.leb 8192 c && N.leb c 8202)
   || N.eqb c 8232 || N.eqb c 8233 || N.eqb c 8239 || N.eqb c 8287
   || N.eqb c 12288 || N.eqb c 65279)%bool.

Fixpoint trimStart (s : jsstring) : jsstring :=
  match s with
  | [] => []
  | c :: t => if isWhiteSpace c then trimStart t else s
  end.

Definition trimEnd (s : jsstring) : jsstring := rev (trimStart (rev s)).

(** [String.prototype.trim] *)
Definition trim (s : jsstring) : jsstring := trimEnd (trimStart s).

(** The value sanitization algorithm of an [input] element of type [text]
    (HTML, text state): the line breaks LF and CR are stripped from a value
    that is assigned to the element.  The two name fields are such inputs
    ([index.html], lines 69 and 75). *)
Definition isLineBreak (c : codeUnit) : bool := (N.eqb c 10 || N.eqb c 13)%bool.

Definition stripNewlines (value : jsstring) : jsstring :=
  List.filter (fun c => negb (isLineBreak c)) value.

Fixpoint startsWith (s prefix : jsstring) {struct prefix} : bool :=
  match prefix, s with
  | [], _ => true
  | _ :: _, [] => false
  | p :: prefix', c :: s' => N.eqb c p && startsWith s' prefix'
  end.

(** [String.prototype.includes] *)
Fixpoint includes (s sub : jsstring) : bool :=
  startsWith s sub ||
  match s with
  | [] => false
  | _ :: t => includes t sub
  end.

(** [s.replace(/c/g, rep)] for a one-character pattern [c] and a replacement
    text without [$]: every occurrence of [c] becomes [rep]. *)
Definition replaceAll (c : codeUnit) (rep : jsstring) (s : jsstring) : jsstring :=
  flat_map (fun x => if N.eqb x c then rep else [x]) s.

(* ===================================================================== *)
(** * Regular expressions *)
(* ===================================================================== *)

(** The fragment of the pattern syntax the script uses: literal characters,
    negated classes over [\s] and literal characters, concatenation and the
    [+] quantifier.  [RVoid], [REps], [RAlt] and [RStar] are needed to
    express derivatives. *)
Inductive ClassAtom : Type :=
| ClassSpace : ClassAtom                  (* \s *)
| ClassChar : codeUnit -> ClassAtom.

Inductive Regex : Type :=
| RVoid : Regex
| REps : Regex
| RChar : codeUnit -> Regex
| RNotIn : list ClassAtom -> Regex         (* [^...] *)
| RSeq : Regex -> Regex -> Regex
| RAlt : Regex -> Regex -> Regex
| RStar : Regex -> Regex.

Definition RPlus (r : Regex) : Regex := RSeq r (RStar r).

Definition atomMatches (a : ClassAtom) (c : codeUnit) : bool :=
  match a with
  | ClassSpace => isWhiteSpace c
  | ClassChar d => N.eqb c d
  end.

Definition notInClass (atoms : list ClassAtom) (c : codeUnit) : bool :=
  negb (existsb (fun a => atomMatches a c) atoms).

(** The language of a pattern. *)
Inductive matches : Regex -> jsstring -> Prop :=
| MEps : matches REps []
| MChar : forall c, matches (RChar c) [c]
| MNotIn : forall atoms c, notInClass atoms c = true -> matches (RNotIn atoms) [c]
| MSeq : forall r1 r2 s1 s2,
    matches r1 s1 -> matches r2 s2 -> matches (RSeq r1 r2) (s1 ++ s2)
| MAltL : forall r1 r2 s, matches r1 s -> matches (RAlt r1 r2) s
| MAltR : forall r1 r2 s, matches r2 s -> matches (RAlt r1 r2) s
| MStarNil : forall r, matches (RStar r) []
| MStarApp : forall r s1 s2,
    matches r s1 -> matches (RStar r) s2 -> matches (RStar r) (s1 ++ s2).

Fixpoint nullable (r : Regex) : bool :=
  match r with
  | RVoid => false
  | REps => true
  | RChar _ => false
  | RNotIn _ => false
  | RSeq r1 r2 => nullable r1 && nullable r2
  | RAlt r1 r2 => nullable r1 || nullable r2
  | RStar _ => true
  end.

Fixpoint derive (c : codeUnit) (r : Regex) : Regex :=
  match r with
  | RVoid => RVoid
  | REps => RVoid
  | RChar d => if N.eqb c d then REps else RVoid
  | RNotIn atoms => if notInClass atoms c then REps else RVoid
  | RSeq r1 r2 =>
      if nullable r1
      then RAlt (RSeq (derive c r1) r2) (derive c r2)
      else RSeq (derive c r1) r2
  | RAlt r1 r2 => RAlt (derive c r1) (derive c r2)
  | RStar r1 => RSeq (derive c r1) (RStar r1)
  end.

(** [/^r$/.test(s)]: without the [m] flag the two anchors pin the match to
    the whole input, so the test decides membership of [s] in the language
    of [r].  The pattern has no [g] or [y] flag, hence no [lastIndex]
    state. *)
Fixpoint anchoredTest (r : Regex) (s : jsstring) : bool :=
  match s with
  | [] => nullable r
  | c :: t => anchoredTest (derive c r) t
  end.

(** [[^\s@]] *)
Definition notSpaceAt : Regex := RNotIn [ClassSpace; ClassChar 64].

(** [function isValidEmail(email)]:
    [const re = /^[^\s@]+@[^\s@]+\.[^\s@]+$/; return re.test(email);] *)
Definition emailRe : Regex :=
  RSeq (RPlus notSpaceAt)
    (RSeq (RChar 64)
       (RSeq (RPlus notSpaceAt)
          (RSeq (RChar 46) (RPlus notSpaceAt)))).

Definition isValidEmail (email : jsstring) : bool := anchoredTest emailRe email.

(** [function escapeHtml(unsafe)] *)
Definition escapeHtml (unsafe : jsstring) : jsstring :=
  replaceAll 39 (js "&#039;")
    (replaceAll 34 (js "&quot;")
       (replaceAll 62 (js "&gt;")
          (replaceAll 60 (js "&lt;")
             (replaceAll 38 (js "&amp;") unsafe)))).

(* ===================================================================== *)
(** * [JSON.stringify] on arrays of strings *)
(* ===================================================================== *)

Definition hexDigit (d : N) : codeUnit :=
  if N.ltb d 10 then 48 + d else 87 + d.

(** [UnicodeEscape]: a backslash, the letter u and four lowercase
    hexadecimal digits. *)
Definition unicodeEscape (c : codeUnit) : jsstring :=
  [92; 117; hexDigit (c / 4096); hexDigit ((c / 256) mod 16);
   hexDigit ((c / 16) mod 16); hexDigit (c mod 16)].

Definition isLeadingSurrogate (c : codeUnit) : bool :=
  N.leb 55296 c && N.leb c 56319.

Definition isTrailingSurrogate (c : codeUnit) : bool :=
  N.leb 56320 c && N.leb c 57343.

(** One code point that is not a surrogate, as [QuoteJSONString] writes it:
    the two-character escapes of the table, a unicode escape below U+0020,
    the character itself otherwise. *)
Definition quoteCodeUnit (c : codeUnit) : jsstring :=
  if N.eqb c 8 then [92; 98]
  else if N.eqb c 9 then [92; 116]
  else if N.eqb c 10 then [92; 110]
  else if N.eqb c 12 then [92; 102]
  else if N.eqb c 13 then [92; 114]
  else if N.eqb c 34 then [92; 34]
  else if N.eqb c 92 then [92; 92]
  else if N.ltb c 32 then unicodeEscape c
  else [c].

(** The text between the quotes.  The string is read by code points: a
    leading surrogate followed by a trailing one is a pair and is copied; a
    surrogate outside a pair is written as a unicode escape. *)
Fixpoint quoteJSONBody (s : jsstring) : jsstring :=
  match s with
  | [] => []
  | c :: t =>
      if isLeadingSurrogate c then
        match t with
        | d :: t' =>
            if isTrailingSurrogate d then c :: d :: quoteJSONBody t'
            else unicodeEscape c ++ quoteJSONBody t
        | [] => unicodeEscape c
        end
      else if isTrailingSurrogate c then unicodeEscape c ++ quoteJSONBody t
      else quoteCodeUnit c ++ quoteJSONBody t
  end.

Definition quoteJSONString (s : jsstring) : jsstring :=
  34 :: quoteJSONBody s ++ [34].

(** The elements of an array, separated by commas. *)
Fixpoint stringifyElements (l : list jsstring) : jsstring :=
  match l with
  | [] => []
  | x :: xs =>
      quoteJSONString x ++
      match xs with
      | [] => []
      | _ :: _ => 44 :: stringifyElements xs
      end
  end.

(** [JSON.stringify(l)] for an array [l] of strings. *)
Definition JSON_stringify (l : list jsstring) : jsstring :=
  91 :: stringifyElements l ++ [93].

(** Reading back: the inverse of [hexDigit], of the two-character escapes
    and of [quoteJSONBody].  [unquoteJSONBody] reads up to the closing quote
    and returns the string and the text after the quote.  The script never
    parses JSON text itself; these serve to show that [JSON_stringify] loses
    nothing. *)
Definition hexValue (h : codeUnit) : N :=
  if N.ltb h 58 then h - 48 else h - 87.

Definition unescapeChar (e : codeUnit) : codeUnit :=
  if N.eqb e 98 then 8
  else if N.eqb e 116 then 9
  else if N.eqb e 110 then 10
  else if N.eqb e 102 then 12
  else if N.eqb e 114 then 13
  else e.

Fixpoint unquoteJSONBody (s : jsstring) : option (jsstring * jsstring) :=
  match s with
  | [] => None
  | c :: t =>
      if N.eqb c 34 then Some ([], t)
      else if N.eqb c 92 then
        match t with
        | [] => None
        | e :: t1 =>
            if N.eqb e 117 then
              match t1 with
              | h3 :: h2 :: h1 :: h0 :: t2 =>
                  match unquoteJSONBody t2 with
                  | Some (r, rest) =>
                      Some (4096 * hexValue h3 + 256 * hexValue h2
                            + 16 * hexValue h1 + hexValue h0 :: r, rest)
                  | None => None
                  end
              | _ => None
              end
            else
              match unquoteJSONBody t1 with
              | Some (r, rest) => Some (unescapeChar e :: r, rest)
              | None => None
              end
        end
      else
        match unquoteJSONBody t with
        | Some (r, rest) => Some (c :: r, rest)
        | None => None
        end
  end.

(* ===================================================================== *)
(** * Data model *)
(* ===================================================================== *)

(** An entry of a contact's [emails] array: [{ id, email }].  Entries made
    by the script take [Date.now()] as [id]; entries that come from the
    server carry whatever the server sent. *)
Record EmailEntry : Type := mkEmailEntry {
  email_id : Z;
  email : jsstring
}.

(** A contact as the API returns it. *)
Record Contact : Type := mkContact {
  contact_id : Z;
  firstName : jsstring;
  lastName : jsstring;
  emails : list EmailEntry
}.

(** The object [selectContact] stores in [originalContact]. *)
Record OriginalContact : Type := mkOriginalContact {
  original_firstName : jsstring;
  original_lastName : jsstring;
  original_emails : list EmailEntry
}.

(** The object [getFormData] builds; [payload_id] is [None] when the object
    has no [id] property. *)
Record Payload : Type := mkPayload {
  payload_id : option Z;
  payload_firstName : jsstring;
  payload_lastName : jsstring;
  payload_emails : list EmailEntry
}.

(** What [response.json()] of [GET /api/contacts] can put in the variable
    [contacts]: an array of contacts, or some other JSON object such as the
    error object [{ error }] of a failing request. *)
Inductive ContactsValue : Type :=
| ContactsArray : list Contact -> ContactsValue
| ContactsObject : option jsstring -> ContactsValue.

(** Truthiness of an identifier: [null], [undefined] and [0] are falsy. *)
Definition truthy_id (i : option Z) : bool :=
  match i with
  | Some z => negb (Z.eqb z 0)
  | None => false
  end.

(** [c.id === selectedContactId] *)
Definition strictEq_id (i : Z) (selected : option Z) : bool :=
  match selected with
  | Some z => Z.eqb i z
  | None => false
  end.

(* ===================================================================== *)
(** * The environment: network, dialogs, console *)
(* ===================================================================== *)

Inductive Method : Type := GET | POST | PUT | DELETE.

Inductive Url : Type :=
| ApiContacts : Url                 (* /api/contacts *)
| ApiContact : Z -> Url.            (* /api/contacts/${id} *)

Record Request : Type := mkRequest {
  request_method : Method;
  request_url : Url;
  request_body : option Payload
}.

(** [response.json()] either rejects (the body is not JSON) or yields the
    parsed value. *)
Inductive JsonResult (A : Type) : Type :=
| JsonRejected : jsstring -> JsonResult A
| JsonValue : A -> JsonResult A.

Arguments JsonRejected {A} _.
Arguments JsonValue {A} _.

(** The answer to [GET /api/contacts]: the promise rejects (network
    failure), or a response arrives with its [ok] flag and its body. *)
Inductive GetResult : Type :=
| GetRejected : jsstring -> GetResult
| GetResponse : bool -> JsonResult ContactsValue -> GetResult.

(** The answer to the [POST] or [PUT] of [saveContact].  The body of a
    response that is not [ok] is an object whose [error] property may be
    missing. *)
Inductive SaveResult : Type :=
| SaveRejected : jsstring -> SaveResult
| SaveNotOk : JsonResult (option jsstring) -> SaveResult
| SaveOk : JsonResult Contact -> SaveResult.

(** The answer to the [DELETE] of [deleteContact]. *)
Inductive DeleteResult : Type :=
| DeleteRejected : jsstring -> DeleteResult
| DeleteResponse : bool -> JsonResult (option jsstring) -> DeleteResult.

(** [alert(message)] and [confirm(message)] with the user's answer. *)
Inductive Dialog : Type :=
| Alert : jsstring -> Dialog
| Confirm : jsstring -> bool -> Dialog.

(* ===================================================================== *)
(** * State *)
(* ===================================================================== *)

(** The module-level variables of the script (first group), the cells of
    the document it reads and writes (second group) and the record of what
    it did to the outside world, most recent first (third group).

    - [contactsListItems]: the children of [#contactsList], each with a
      click listener that selects its contact;
    - [emailRows]: the rows of [#emailList] made from [emailItemTemplate];
      the delete button of row [i] holds the index [i];
    - [emailInputValue]: the value of the [input] inside [#emailList], if
      there is one (what [emailList.querySelector] finds);
    - [consoleErrors]: the calls of [console.error] the script makes, with
      their label and the message of the error.  An exception that no
      listener catches is reported by the browser, not by the script, and
      is not recorded here: [uncaught] gives it. *)
Record State : Type := mkState {
  contacts : ContactsValue;
  selectedContactId : option Z;
  isAddingEmail : bool;
  isNewContact : bool;
  currentEmailList : list EmailEntry;
  originalContact : option OriginalContact;
  searchQuery : jsstring;

  contactsListItems : list Contact;
  contactFormHidden : bool;
  firstNameValue : jsstring;
  lastNameValue : jsstring;
  emailRows : list jsstring;
  emailInputValue : option jsstring;
  saveBtnDisabled : bool;
  deleteBtnShown : bool;

  requests : list Request;
  dialogs : list Dialog;
  consoleErrors : list (jsstring * jsstring)
}.

Definition set_contacts (v : ContactsValue) (st : State) : State :=
  {| contacts := v; selectedContactId := selectedContactId st;
     isAddingEmail := isAddingEmail st; isNewContact := isNewContact st;
     currentEmailList := currentEmailList st;
     originalContact := originalContact st; searchQuery := searchQuery st;
     contactsListItems := contactsListItems st;
     contactFormHidden := contactFormHidden st;
     firstNameValue := firstNameValue st; lastNameValue := lastNameValue st;
     emailRows := emailRows st; emailInputValue := emailInputValue st;
     saveBtnDisabled := saveBtnDisabled st;
     deleteBtnShown := deleteBtnShown st; requests := requests st;
     dialogs := dialogs st; consoleErrors := consoleErrors st |}.

Definition set_selectedContactId (v : option Z) (st : State) : State :=
  {| contacts := contacts st; selectedContactId := v;
     isAddingEmail := isAddingEmail st; isNewContact := isNewContact st;
     currentEmailList := currentEmailList st;
     originalContact := originalContact st; searchQuery := searchQuery st;
     contactsListItems := contactsListItems st;
     contactFormHidden := contactFormHidden st;
     firstNameValue := firstNameValue st; lastNameValue := lastNameValue st;
     emailRows := emailRows st; emailInputValue := emailInputValue st;
     saveBtnDisabled := saveBtnDisabled st;
     deleteBtnShown := deleteBtnShown st; requests := requests st;
     dialogs := dialogs st; consoleErrors := consoleErrors st |}.

Definition set_isAddingEmail (v : bool) (st : State) : State :=
  {| contacts := contacts st; selectedContactId := selectedContactId st;
     isAddingEmail := v; isNewContact := isNewContact st;
     currentEmailList := currentEmailList st;
     originalContact := originalContact st; searchQuery := searchQuery st;
     contactsListItems := contactsListItems st;
     contactFormHidden := contactFormHidden st;
     firstNameValue := firstNameValue st; lastNameValue := lastNameValue st;
     emailRows := emailRows st; emailInputValue := emailInputValue st;
     saveBtnDisabled := saveBtnDisabled st;
     deleteBtnShown := deleteBtnShown st; requests := requests st;
     dialogs := dialogs st; consoleErrors := consoleErrors st |}.

Definition set_isNewContact (v : bool) (st : State) : State :=
  {| contacts := contacts st; selectedContactId := selectedContactId st;
     isAddingEmail := isAddingEmail st; isNewContact := v;
     currentEmailList := currentEmailList st;
     originalContact := originalContact st; searchQuery := searchQuery st;
     contactsListItems := contactsListItems st;
     contactFormHidden := contactFormHidden st;
     firstNameValue := firstNameValue st; lastNameValue := lastNameValue st;
     emailRows := emailRows st; emailInputValue := emailInputValue st;
     saveBtnDisabled := saveBtnDisabled st;
     deleteBtnShown := deleteBtnShown st; requests := requests st;
     dialogs := dialogs st; consoleErrors := consoleErrors st |}.

Definition set_currentEmailList (v : list EmailEntry) (st : State) : State :=
  {| contacts := contacts st; selectedContactId := selectedContactId st;
     isAddingEmail := isAddingEmail st; isNewContact := isNewContact st;
     currentEmailList := v; originalContact := originalContact st;
     searchQuery := searchQuery st;
     contactsListItems := contactsListItems st;
     contactFormHidden := contactFormHidden st;
     firstNameValue := firstNameValue st; lastNameValue := lastNameValue st;
     emailRows := emailRows st; emailInputValue := emailInputValue st;
     saveBtnDisabled := saveBtnDisabled st;
     deleteBtnShown := deleteBtnShown st; requests := requests st;
     dialogs := dialogs st; consoleErrors := consoleErrors st |}.

Definition set_originalContact (v : option OriginalContact) (st : State) : State :=
  {| contacts := contacts st; selectedContactId := selectedContactId st;
     isAddingEmail := isAddingEmail st; isNewContact := isNewContact st;
     currentEmailList := currentEmailList st; originalContact := v;
     searchQuery := searchQuery st;
     contactsListItems := contactsListItems st;
     contactFormHidden := contactFormHidden st;
     firstNameValue := firstNameValue st; lastNameValue := lastNameValue st;
     emailRows := emailRows st; emailInputValue := emailInputValue st;
     saveBtnDisabled := saveBtnDisabled st;
     deleteBtnShown := deleteBtnShown st; requests := requests st;
     dialogs := dialogs st; consoleErrors := consoleErrors st |}.

Definition set_searchQuery (v : jsstring) (st : State) : State :=
  {| contacts := contacts st; selectedContactId := selectedContactId st;
     isAddingEmail := isAddingEmail st; isNewContact := isNewContact st;
     currentEmailList := currentEmailList st;
     originalContact := originalContact st; searchQuery := v;
     contactsListItems := contactsListItems st;
     contactFormHidden := contactFormHidden st;
     firstNameValue := firstNameValue st; lastNameValue := lastNameValue st;
     emailRows := emailRows st; emailInputValue := emailInputValue st;
     saveBtnDisabled := saveBtnDisabled st;
     deleteBtnShown := deleteBtnShown st; requests := requests st;
     dialogs := dialogs st; consoleErrors := consoleErrors st |}.

Definition set_contactsListItems (v : list Contact) (st : State) : State :=
  {| contacts := contacts st; selectedContactId := selectedContactId st;
     isAddingEmail := isAddingEmail st; isNewContact := isNewContact st;
     currentEmailList := currentEmailList st;
     originalContact := originalContact st; searchQuery := searchQuery st;
     contactsListItems := v; contactFormHidden := contactFormHidden st;
     firstNameValue := firstNameValue st; lastNameValue := lastNameValue st;
     emailRows := emailRows st; emailInputValue := emailInputValue st;
     saveBtnDisabled := saveBtnDisabled st;
     deleteBtnShown := deleteBtnShown st; requests := requests st;
     dialogs := dialogs st; consoleErrors := consoleErrors st |}.

Definition set_contactFormHidden (v : bool) (st : State) : State :=
  {| contacts := contacts st; selectedContactId := selectedContactId st;
     isAddingEmail := isAddingEmail st; isNewContact := isNewContact st;
     currentEmailList := currentEmailList st;
     originalContact := originalContact st; searchQuery := searchQuery st;
     contactsListItems := contactsListItems st; contactFormHidden := v;
     firstNameValue := firstNameValue st; lastNameValue := lastNameValue st;
     emailRows := emailRows st; emailInputValue := emailInputValue st;
     saveBtnDisabled := saveBtnDisabled st;
     deleteBtnShown := deleteBtnShown st; requests := requests st;
     dialogs := dialogs st; consoleErrors := consoleErrors st |}.

Definition set_firstNameValue (v : jsstring) (st : State) : State :=
  {| contacts := contacts st; selectedContactId := selectedContactId st;
     isAddingEmail := isAddingEmail st; isNewContact := isNewContact st;
     currentEmailList := currentEmailList st;
     originalContact := originalContact st; searchQuery := searchQuery st;
     contactsListItems := contactsListItems st;
     contactFormHidden := contactFormHidden st; firstNameValue := v;
     lastNameValue := lastNameValue st; emailRows := emailRows st;
     emailInputValue := emailInputValue st;
     saveBtnDisabled := saveBtnDisabled st;
     deleteBtnShown := deleteBtnShown st; requests := requests st;
     dialogs := dialogs st; consoleErrors := consoleErrors st |}.

Definition set_lastNameValue (v : jsstring) (st : State) : State :=
  {| contacts := contacts st; selectedContactId := selectedContactId st;
     isAddingEmail := isAddingEmail st; isNewContact := isNewContact st;
     currentEmailList := currentEmailList st;
     originalContact := originalContact st; searchQuery := searchQuery st;
     contactsListItems := contactsListItems st;
     contactFormHidden := contactFormHidden st;
     firstNameValue := firstNameValue st; lastNameValue := v;
     emailRows := emailRows st; emailInputValue := emailInputValue st;
     saveBtnDisabled := saveBtnDisabled st;
     deleteBtnShown := deleteBtnShown st; requests := requests st;
     dialogs := dialogs st; consoleErrors := consoleErrors st |}.

Definition set_emailRows (v : list jsstring) (st : State) : State :=
  {| contacts := contacts st; selectedContactId := selectedContactId st;
     isAddingEmail := isAddingEmail st; isNewContact := isNewContact st;
     currentEmailList := currentEmailList st;
     originalContact := originalContact st; searchQuery := searchQuery st;
     contactsListItems := contactsListItems st;
     contactFormHidden := contactFormHidden st;
     firstNameValue := firstNameValue st; lastNameValue := lastNameValue st;
     emailRows := v; emailInputValue := emailInputValue st;
     saveBtnDisabled := saveBtnDisabled st;
     deleteBtnShown := deleteBtnShown st; requests := requests st;
     dialogs := dialogs st; consoleErrors := consoleErrors st |}.

Definition set_emailInputValue (v : option jsstring) (st : State) : State :=
  {| contacts := contacts st; selectedContactId := selectedContactId st;
     isAddingEmail := isAddingEmail st; isNewContact := isNewContact st;
     currentEmailList := currentEmailList st;
     originalContact := originalContact st; searchQuery := searchQuery st;
     contactsListItems := contactsListItems st;
     contactFormHidden := contactFormHidden st;
     firstNameValue := firstNameValue st; lastNameValue := lastNameValue st;
     emailRows := emailRows st; emailInputValue := v;
     saveBtnDisabled := saveBtnDisabled st;
     deleteBtnShown := deleteBtnShown st; requests := requests st;
     dialogs := dialogs st; consoleErrors := consoleErrors st |}.

Definition set_saveBtnDisabled (v : bool) (st : State) : State :=
  {| contacts := contacts st; selectedContactId := selectedContactId st;
     isAddingEmail := isAddingEmail st; isNewContact := isNewContact st;
     currentEmailList := currentEmailList st;
     originalContact := originalContact st; searchQuery := searchQuery st;
     contactsListItems := contactsListItems st;
     contactFormHidden := contactFormHidden st;
     firstNameValue := firstNameValue st; lastNameValue := lastNameValue st;
     emailRows := emailRows st; emailInputValue := emailInputValue st;
     saveBtnDisabled := v; deleteBtnShown := deleteBtnShown st;
     requests := requests st; dialogs := dialogs st;
     consoleErrors := consoleErrors st |}.

Definition set_deleteBtnShown (v : bool) (st : State) : State :=
  {| contacts := contacts st; selectedContactId := selectedContactId st;
     isAddingEmail := isAddingEmail st; isNewContact := isNewContact st;
     currentEmailList := currentEmailList st;
     originalContact := originalContact st; searchQuery := searchQuery st;
     contactsListItems := contactsListItems st;
     contactFormHidden := contactFormHidden st;
     firstNameValue := firstNameValue st; lastNameValue := lastNameValue st;
     emailRows := emailRows st; emailInputValue := emailInputValue st;
     saveBtnDisabled := saveBtnDisabled st; deleteBtnShown := v;
     requests := requests st; dialogs := dialogs st;
     consoleErrors := consoleErrors st |}.

Definition set_requests (v : list Request) (st : State) : State :=
  {| contacts := contacts st; selectedContactId := selectedContactId st;
     isAddingEmail := isAddingEmail st; isNewContact := isNewContact st;
     currentEmailList := currentEmailList st;
     originalContact := originalContact st; searchQuery := searchQuery st;
     contactsListItems := contactsListItems st;
     contactFormHidden := contactFormHidden st;
     firstNameValue := firstNameValue st; lastNameValue := lastNameValue st;
     emailRows := emailRows st; emailInputValue := emailInputValue st;
     saveBtnDisabled := saveBtnDisabled st;
     deleteBtnShown := deleteBtnShown st; requests := v;
     dialogs := dialogs st; consoleErrors := consoleErrors st |}.

Definition set_dialogs (v : list Dialog) (st : State) : State :=
  {| contacts := contacts st; selectedContactId := selectedContactId st;
     isAddingEmail := isAddingEmail st; isNewContact := isNewContact st;
     currentEmailList := currentEmailList st;
     originalContact := originalContact st; searchQuery := searchQuery st;
     contactsListItems := contactsListItems st;
     contactFormHidden := contactFormHidden st;
     firstNameValue := firstNameValue st; lastNameValue := lastNameValue st;
     emailRows := emailRows st; emailInputValue := emailInputValue st;
     saveBtnDisabled := saveBtnDisabled st;
     deleteBtnShown := deleteBtnShown st; requests := requests st;
     dialogs := v; consoleErrors := consoleErrors st |}.

Definition set_consoleErrors (v : list (jsstring * jsstring)) (st : State) : State :=
  {| contacts := contacts st; selectedContactId := selectedContactId st;
     isAddingEmail := isAddingEmail st; isNewContact := isNewContact st;
     currentEmailList := currentEmailList st;
     originalContact := originalContact st; searchQuery := searchQuery st;
     contactsListItems := contactsListItems st;
     contactFormHidden := contactFormHidden st;
     firstNameValue := firstNameValue st; lastNameValue := lastNameValue st;
     emailRows := emailRows st; emailInputValue := emailInputValue st;
     saveBtnDisabled := saveBtnDisabled st;
     deleteBtnShown := deleteBtnShown st; requests := requests st;
     dialogs := dialogs st; consoleErrors := v |}.

(** The state when the script has been evaluated and the document is as
    [index.html] gives it. *)
Definition pageLoaded : State :=
  {| contacts := ContactsArray [];
     selectedContactId := None;
     isAddingEmail := false;
     isNewContact := false;
     currentEmailList := [];
     originalContact := None;
     searchQuery := [];
     contactsListItems := [];
     contactFormHidden := true;
     firstNameValue := [];
     lastNameValue := [];
     emailRows := [];
     emailInputValue := None;
     saveBtnDisabled := false;
     deleteBtnShown := true;
     requests := [];
     dialogs := [];
     consoleErrors := [] |}.

(* ===================================================================== *)
(** * Computations: state and exceptions *)
(* ===================================================================== *)

(** A statement either completes normally or throws; either way it leaves a
    state.  The thrown value is an [Error]; its [message] is kept. *)
Inductive Completion (A : Type) : Type :=
| Normal : A -> Completion A
| Throw : jsstring -> Completion A.

Arguments Normal {A} _.
Arguments Throw {A} _.

Definition M (A : Type) : Type := State -> Completion A * State.

Definition ret {A : Type} (a : A) : M A := fun st => (Normal a, st).

Definition bind {A B : Type} (m : M A) (k : A -> M B) : M B :=
  fun st =>
    match m st with
    | (Normal a, st') => k a st'
    | (Throw e, st') => (Throw e, st')
    end.

Definition throw {A : Type} (message : jsstring) : M A :=
  fun st => (Throw message, st).

(** [try { m } catch (error) { handler(error.message) }] *)
Definition tryCatch {A : Type} (m : M A) (handler : jsstring -> M A) : M A :=
  fun st =>
    match m st with
    | (Normal a, st') => (Normal a, st')
    | (Throw e, st') => handler e st'
    end.

Definition gets {A : Type} (f : State -> A) : M A := fun st => (Normal (f st), st).

Definition modify (f : State -> State) : M unit := fun st => (Normal tt, f st).

Definition when (b : bool) (m : M unit) : M unit := if b then m else ret tt.

Declare Scope js_scope.
Delimit Scope js_scope with js.
Notation "x <- m ;; k" := (bind m (fun x => k))
  (at level 61, m at next level, right associativity) : js_scope.
Notation "m ;; k" := (bind m (fun _ => k))
  (at level 61, right associativity) : js_scope.
Local Open Scope js_scope.

(** The state a computation leaves. *)
Definition exec {A : Type} (m : M A) (st : State) : State := snd (m st).

(** [await response.json()] *)
Definition awaitJson {A : Type} (body : JsonResult A) : M A :=
  match body with
  | JsonRejected message => throw message
  | JsonValue a => ret a
  end.

Definition sendRequest (method : Method) (url : Url) (body : option Payload) : M unit :=
  modify (fun st =>
    set_requests ({| request_method := method; request_url := url;
                     request_body := body |} :: requests st) st).

Definition alert (message : jsstring) : M unit :=
  modify (fun st => set_dialogs (Alert message :: dialogs st) st).

Definition confirm (message : jsstring) (answer : bool) : M bool :=
  modify (fun st => set_dialogs (Confirm message answer :: dialogs st) st) ;;
  ret answer.

Definition console_error (label message : jsstring) : M unit :=
  modify (fun st => set_consoleErrors ((label, message) :: consoleErrors st) st).

(** Messages of the [TypeError]s the engine throws when [contacts] is not
    an array (the wording is V8's). *)
Definition notIterableMessage : jsstring := js "filteredContacts is not iterable".
Definition filterNotFunctionMessage : jsstring := js "contacts.filter is not a function".
Definition findNotFunctionMessage : jsstring := js "contacts.find is not a function".

(* ===================================================================== *)
(** * Arrays *)
(* ===================================================================== *)

(** [array.splice(index, 1)]: removes the element at [index]; nothing is
    removed when [index] is past the end. *)
Fixpoint splice1 {A : Type} (index : nat) (array : list A) {struct array} : list A :=
  match array, index with
  | [], _ => []
  | _ :: t, O => t
  | x :: t, S i => x :: splice1 i t
  end.

(** [array.push(x)] *)
Definition push {A : Type} (array : list A) (x : A) : list A := array ++ [x].

(** [Array.prototype.sort(comparefn)] for a consistent comparison function:
    the sort is stable, so its result is the one of insertion sort. *)
Fixpoint insertSorted {A : Type} (comparefn : A -> A -> Z) (x : A) (l : list A) : list A :=
  match l with
  | [] => [x]
  | y :: t =>
      if (comparefn x y <=? 0)%Z then x :: l
      else y :: insertSorted comparefn x t
  end.

Fixpoint arraySort {A : Type} (comparefn : A -> A -> Z) (l : list A) : list A :=
  match l with
  | [] => []
  | x :: t => insertSorted comparefn x (arraySort comparefn t)
  end.

(** Arrays are objects: a variable holds a reference.  The store below is
    used for the one place of the script where the same array can be
    reached through two names, [renderContactsList]. *)
Definition ArrayRef := nat.
Definition ArrayStore := list (list Contact).

Definition readArray (h : ArrayStore) (r : ArrayRef) : list Contact := nth r h [].

Definition allocArray (h : ArrayStore) (a : list Contact) : ArrayStore * ArrayRef :=
  (h ++ [a], List.length h).

Fixpoint writeArray (h : ArrayStore) (r : ArrayRef) (a : list Contact) {struct h}
  : ArrayStore :=
  match h, r with
  | [], _ => []
  | _ :: t, O => a :: t
  | x :: t, S r' => x :: writeArray t r' a
  end.

Section Engine.

(** Two built-ins depend on Unicode tables and on the locale of the engine
    and are taken as given: [String.prototype.toLowerCase] and
    [String.prototype.localeCompare]. *)
Variable toLowerCase : jsstring -> jsstring.
Variable localeCompare : jsstring -> jsstring -> Z.

(* --------------------------------------------------------------------- *)
(** ** Search (source lines 271-282) *)

(** The callback of [contacts.filter] in [filterContacts]; [query] is
    already lowercased. *)
Definition contactMatches (query : jsstring) (contact : Contact) : bool :=
  let fullName := toLowerCase (firstName contact ++ [32] ++ lastName contact) in
  let emails := List.map (fun e => toLowerCase (email e)) (emails contact) in
  includes fullName query || existsb (fun email => includes email query) emails.

(** [function filterContacts(contacts, query)] on array values. *)
Definition filterContacts (contacts : list Contact) (query : jsstring) : list Contact :=
  if negb (truthy_string query) then contacts
  else
    let query := toLowerCase query in
    List.filter (contactMatches query) contacts.

(** The comparison function of [renderContactsList]. *)
Definition byLastName (a b : Contact) : Z := localeCompare (lastName a) (lastName b).

(** [filterContacts] on references: with a falsy [query] it returns the
    array it was given, not a copy; otherwise the new array that
    [Array.prototype.filter] makes. *)
Definition filterContacts_ref (h : ArrayStore) (contacts : ArrayRef) (query : jsstring)
  : ArrayStore * ArrayRef :=
  if negb (truthy_string query) then (h, contacts)
  else
    let query := toLowerCase query in
    allocArray h (List.filter (contactMatches query) (readArray h contacts)).

(** Source lines 89-92: [filteredContacts = filterContacts(contacts,
    searchQuery)], then [[...filteredContacts]] makes a new array, which
    [sort] orders in place and returns. *)
Definition sortedContacts_ref (h : ArrayStore) (contacts : ArrayRef) (searchQuery : jsstring)
  : ArrayStore * ArrayRef :=
  let (h1, filteredContacts) := filterContacts_ref h contacts searchQuery in
  let (h2, copy) := allocArray h1 (readArray h1 filteredContacts) in
  (writeArray h2 copy (arraySort byLastName (readArray h2 copy)), copy).

(** The same on array values. *)
Definition sortedContacts (contacts : list Contact) (searchQuery : jsstring) : list Contact :=
  arraySort byLastName (filterContacts contacts searchQuery).

(* --------------------------------------------------------------------- *)
(** ** UI rendering functions *)

(** [function renderContactsList()] *)
Definition renderContactsList : M unit :=
  modify (set_contactsListItems []) ;;
  cs <- gets contacts ;;
  query <- gets searchQuery ;;
  match cs with
  | ContactsArray cs =>
      modify (set_contactsListItems (sortedContacts cs query))
  | ContactsObject _ =>
      throw (if negb (truthy_string query) then notIterableMessage
             else filterNotFunctionMessage)
  end.

(** [function addNewEmailInput()]: appends an empty input to [#emailList]. *)
Definition addNewEmailInput : M unit :=
  modify (set_emailInputValue (Some [])).

(** [function renderEmailList()] *)
Definition renderEmailList : M unit :=
  modify (set_emailRows []) ;;
  modify (set_emailInputValue None) ;;
  list <- gets currentEmailList ;;
  modify (set_emailRows (List.map email list)) ;;
  adding <- gets isAddingEmail ;;
  when adding addNewEmailInput.

(** The value [checkForChanges] computes before it sets the save button:
    [hasData] for a new contact, [hasChanges] for an existing one. *)
Definition unsavedEmail (st : State) : jsstring :=
  match emailInputValue st with
  | Some value => trim value
  | None => []
  end.

Definition hasUnsavedValidEmail (st : State) : bool :=
  truthy_string (unsavedEmail st) && isValidEmail (unsavedEmail st).

Definition hasChanges (st : State) : bool :=
  match originalContact st with
  | None =>
      truthy_string (trim (firstNameValue st))
      || truthy_string (trim (lastNameValue st))
      || Nat.ltb 0 (List.length (currentEmailList st))
      || hasUnsavedValidEmail st
  | Some original =>
      negb (jsstring_eqb (trim (firstNameValue st)) (original_firstName original))
      || negb (jsstring_eqb (trim (lastNameValue st)) (original_lastName original))
      || negb (jsstring_eqb
                 (JSON_stringify (List.map email (currentEmailList st)))
                 (JSON_stringify (List.map email (original_emails original))))
      || hasUnsavedValidEmail st
  end.

(** [function checkForChanges()] *)
Definition checkForChanges : M unit :=
  modify (fun st => set_saveBtnDisabled (negb (hasChanges st)) st).

(** [function selectContact(contact)].  The two name fields are single-line
    text inputs: what [firstNameInput.value = contact.firstName] leaves in
    the field is the name without its line breaks. *)
Definition selectContact (contact : Contact) : M unit :=
  modify (set_selectedContactId (Some (contact_id contact))) ;;
  modify (set_originalContact
            (Some {| original_firstName := firstName contact;
                     original_lastName := lastName contact;
                     original_emails := emails contact |})) ;;
  renderContactsList ;;
  modify (set_contactFormHidden false) ;;
  modify (set_firstNameValue (stripNewlines (firstName contact))) ;;
  modify (set_lastNameValue (stripNewlines (lastName contact))) ;;
  modify (set_currentEmailList (emails contact)) ;;
  modify (set_isAddingEmail false) ;;
  renderEmailList ;;
  modify (set_deleteBtnShown true) ;;
  checkForChanges.

(** [function clearForm()] *)
Definition clearForm : M unit :=
  selected <- gets selectedContactId ;;
  first <- gets firstNameValue ;;
  last <- gets lastNameValue ;;
  let isAddingNew :=
    negb (truthy_id selected) && jsstring_eqb first [] && jsstring_eqb last [] in
  modify (set_selectedContactId None) ;;
  modify (set_isNewContact false) ;;
  modify (set_firstNameValue []) ;;
  modify (set_lastNameValue []) ;;
  modify (set_currentEmailList []) ;;
  modify (set_emailRows []) ;;
  modify (set_emailInputValue None) ;;
  modify (set_isAddingEmail false) ;;
  modify (set_deleteBtnShown false) ;;
  modify (set_originalContact None) ;;
  renderEmailList ;;
  when (negb isAddingNew) (modify (set_contactFormHidden true)).

(* --------------------------------------------------------------------- *)
(** ** API functions *)

(** [async function fetchContacts()].  The status of the response is not
    looked at: whatever the body parses to is assigned to [contacts].
    [fetchContacts_answered] is the part that runs once the request is
    answered, inside the [try] block. *)
Definition fetchContacts_answered (result : GetResult) : M unit :=
  body <- match result with
          | GetRejected message => throw message
          | GetResponse _ body => awaitJson body
          end ;;
  modify (set_contacts body) ;;
  renderContactsList.

Definition fetchContacts (result : GetResult) : M unit :=
  tryCatch
    (sendRequest GET ApiContacts None ;;
     fetchContacts_answered result)
    (fun error => console_error (js "Error fetching contacts:") error).

(** [async function saveContact(contactData)] *)
Definition saveContact (contactData : Payload) (result : SaveResult) (refetch : GetResult)
  : M unit :=
  let url :=
    match payload_id contactData with
    | Some i => if truthy_id (Some i) then ApiContact i else ApiContacts
    | None => ApiContacts
    end in
  tryCatch
    (sendRequest (if truthy_id (payload_id contactData) then PUT else POST)
       url (Some contactData) ;;
     match result with
     | SaveRejected message => throw message
     | SaveNotOk body =>
         error <- awaitJson body ;;
         throw (match error with
                | Some message =>
                    if truthy_string message then message
                    else js "Failed to save contact"
                | None => js "Failed to save contact"
                end)
     | SaveOk body =>
         savedContact <- awaitJson body ;;
         fetchContacts refetch ;;
         selectContact savedContact
     end)
    (fun error =>
       console_error (js "Error saving contact:") error ;;
       alert error).

(** [async function deleteContact(id)] *)
Definition deleteContact (id : Z) (answer : bool) (result : DeleteResult)
  (refetch : GetResult) : M unit :=
  confirmed <- confirm (js "Are you sure you want to delete this contact?") answer ;;
  if negb confirmed then ret tt
  else
    tryCatch
      (sendRequest DELETE (ApiContact id) None ;;
       match result with
       | DeleteRejected message => throw message
       | DeleteResponse ok _ =>
           if negb ok then throw (js "Failed to delete contact")
           else (fetchContacts refetch ;; clearForm)
       end)
      (fun error =>
         console_error (js "Error deleting contact:") error ;;
         alert error).

(** [function getFormData()] *)
Definition getFormData : M Payload :=
  selected <- gets selectedContactId ;;
  first <- gets firstNameValue ;;
  last <- gets lastNameValue ;;
  list <- gets currentEmailList ;;
  ret {| payload_id := if truthy_id selected then selected else None;
         payload_firstName := trim first;
         payload_lastName := trim last;
         payload_emails := list |}.

(* --------------------------------------------------------------------- *)
(** ** Event listeners *)

(** What the user and the environment can do.  A listener that awaits a
    request is run to its end with the answers it will get; [now] is what
    [Date.now()] returns during the listener, [answer] what the user
    answers to [confirm]. *)
Inductive Event : Type :=
| DOMContentLoaded (result : GetResult)
| ContactClick (contact : Contact)
| AddContactClick
| AddEmailClick
| EmailInput (value : jsstring)
| EmailEnter (now : Z)
| EmailDeleteClick (index : nat)
| FirstNameInput (value : jsstring)
| LastNameInput (value : jsstring)
| SearchInput (value : jsstring)
| SaveClick (now : Z) (result : SaveResult) (refetch : GetResult)
| DeleteClick (answer : bool) (result : DeleteResult) (refetch : GetResult)
| CancelClick.

(** The click listener of [addEmailBtn]. *)
Definition addEmailBtn_click : M unit :=
  adding <- gets isAddingEmail ;;
  if negb adding then
    modify (set_isAddingEmail true) ;;
    isNew <- gets isNewContact ;;
    if isNew then renderEmailList
    else
      cs <- gets contacts ;;
      selected <- gets selectedContactId ;;
      match cs with
      | ContactsArray cs =>
          match List.find (fun c => strictEq_id (contact_id c) selected) cs with
          | Some _ => renderEmailList
          | None => ret tt
          end
      | ContactsObject _ => throw findNotFunctionMessage
      end
  else ret tt.

(** The click listener of [addContactBtn]. *)
Definition addContactBtn_click : M unit :=
  clearForm ;;
  modify (set_isNewContact true) ;;
  modify (set_contactFormHidden false).

(** The text the save listener and the Enter listener commit, if any: the
    trimmed value of the input when it is truthy and valid. *)
Definition emailToCommit (value : jsstring) : option jsstring :=
  let email := trim value in
  if truthy_string email && isValidEmail email then Some email else None.

(** The click listener of [saveBtn]. *)
Definition saveBtn_click (now : Z) (result : SaveResult) (refetch : GetResult) : M unit :=
  emailInput <- gets emailInputValue ;;
  match emailInput with
  | Some value =>
      match emailToCommit value with
      | Some email =>
          modify (fun st =>
            set_currentEmailList
              (push (currentEmailList st) {| email_id := now; email := email |}) st)
      | None => ret tt
      end
  | None => ret tt
  end ;;
  contactData <- getFormData ;;
  saveContact contactData result refetch.

(** The click listener of [deleteBtn]. *)
Definition deleteBtn_click (answer : bool) (result : DeleteResult) (refetch : GetResult)
  : M unit :=
  selected <- gets selectedContactId ;;
  match selected with
  | Some id =>
      if truthy_id selected then deleteContact id answer result refetch
      else ret tt
  | None => ret tt
  end.

(** The [keydown] listener of the email input, for the Enter key.  The
    list is rendered while [isAddingEmail] is still true, so an empty input
    is in place afterwards; the node the listener then looks for,
    [emailInput.parentElement], is that of an emptied document fragment and
    is null. *)
Definition emailInput_enter (now : Z) : M unit :=
  emailInput <- gets emailInputValue ;;
  match emailInput with
  | Some value =>
      match emailToCommit value with
      | Some email =>
          modify (fun st =>
            set_currentEmailList
              (push (currentEmailList st) {| email_id := now; email := email |}) st) ;;
          renderEmailList ;;
          modify (set_isAddingEmail false)
      | None => ret tt
      end ;;
      checkForChanges
  | None => ret tt
  end.

(** The [input] listener of the email input: the browser has already put
    the typed text in the input. *)
Definition emailInput_input (value : jsstring) : M unit :=
  emailInput <- gets emailInputValue ;;
  match emailInput with
  | Some _ => modify (set_emailInputValue (Some value)) ;; checkForChanges
  | None => ret tt
  end.

(** The click listener of the delete button of row [index]. *)
Definition emailDelete_click (index : nat) : M unit :=
  modify (fun st => set_currentEmailList (splice1 index (currentEmailList st)) st) ;;
  renderEmailList ;;
  checkForChanges.

(** The listener of [DOMContentLoaded].  [fetchContacts] sends its request
    at once and resumes when the answer is there, after the two statements
    that follow the call; these touch the form only and [fetchContacts]
    the contact list only, so the order between them does not show (lemma
    [onDOMContentLoaded_order]). *)
Definition onDOMContentLoaded (result : GetResult) : M unit :=
  fetchContacts result ;;
  clearForm ;;
  modify (set_contactFormHidden true).

Definition handle (ev : Event) : M unit :=
  match ev with
  | DOMContentLoaded result => onDOMContentLoaded result
  | ContactClick contact => selectContact contact
  | AddContactClick => addContactBtn_click
  | AddEmailClick => addEmailBtn_click
  | EmailInput value => emailInput_input value
  | EmailEnter now => emailInput_enter now
  | EmailDeleteClick index => emailDelete_click index
  | FirstNameInput value => modify (set_firstNameValue value) ;; checkForChanges
  | LastNameInput value => modify (set_lastNameValue value) ;; checkForChanges
  | SearchInput value => modify (set_searchQuery value) ;; renderContactsList
  | SaveClick now result refetch => saveBtn_click now result refetch
  | DeleteClick answer result refetch => deleteBtn_click answer result refetch
  | CancelClick => clearForm
  end.

(** An exception that leaves a listener is reported by the browser and the
    page goes on with the state reached. *)
Definition step (st : State) (ev : Event) : State := exec (handle ev) st.

(** The exception that leaves the listener of [ev] in [st], if any: what
    the browser then reports on the console as an uncaught error. *)
Definition uncaught (st : State) (ev : Event) : option jsstring :=
  match fst (handle ev st) with
  | Normal _ => None
  | Throw message => Some message
  end.

(** Which events the page offers in a state: controls of a hidden form and
    a disabled button cannot be used, a row or an input must be there to
    be used, and only a rendered contact can be clicked. *)
Definition enabled (st : State) (ev : Event) : Prop :=
  match ev with
  | DOMContentLoaded _ => False
  | ContactClick contact => In contact (contactsListItems st)
  | AddContactClick => True
  | SearchInput _ => True
  | AddEmailClick | FirstNameInput _ | LastNameInput _ | CancelClick =>
      contactFormHidden st = false
  | EmailInput _ | EmailEnter _ =>
      contactFormHidden st = false /\ emailInputValue st <> None
  | EmailDeleteClick index =>
      contactFormHidden st = false /\ (index < List.length (emailRows st))%nat
  | SaveClick _ _ _ =>
      contactFormHidden st = false /\ saveBtnDisabled st = false
  | DeleteClick _ _ _ =>
      contactFormHidden st = false /\ deleteBtnShown st = true
  end.

(** The states of a session in which no event arrives while a request is
    pending: the document is loaded, then events follow, each listener
    being run to its end.  [allowed] restricts what the environment does.
    Sessions in which events arrive during an [await] are those of
    [reachableAsync] below. *)
Inductive reachable (allowed : State -> Event -> Prop) : State -> Prop :=
| reachable_loaded : forall result,
    allowed pageLoaded (DOMContentLoaded result) ->
    reachable allowed (step pageLoaded (DOMContentLoaded result))
| reachable_step : forall st ev,
    reachable allowed st -> enabled st ev -> allowed st ev ->
    reachable allowed (step st ev).

(* --------------------------------------------------------------------- *)
(** ** Listeners cut at their [await]s *)

(** An [async] function runs up to its next [await] and resumes later,
    after the listeners of the events that arrived in between.  Two
    [await]s that follow each other without a statement in between (the
    response, then its body) are taken as one. *)

(** [fetchContacts] up to its [await]: the request is sent. *)
Definition fetchContacts_start : M unit := sendRequest GET ApiContacts None.

(** [fetchContacts] once the request is answered. *)
Definition fetchContacts_resume (result : GetResult) : M unit :=
  tryCatch (fetchContacts_answered result)
    (fun error => console_error (js "Error fetching contacts:") error).

(** The listener of [DOMContentLoaded] up to the end: [fetchContacts] runs
    up to its [await], then the two statements that follow the call. *)
Definition onDOMContentLoaded_start : M unit :=
  fetchContacts_start ;;
  clearForm ;;
  modify (set_contactFormHidden true).

(** The click listener of [saveBtn] up to the first [await] of
    [saveContact]: the pending e-mail is committed, the form is read and
    the request is sent. *)
Definition saveBtn_click_start (now : Z) : M unit :=
  emailInput <- gets emailInputValue ;;
  match emailInput with
  | Some value =>
      match emailToCommit value with
      | Some email =>
          modify (fun st =>
            set_currentEmailList
              (push (currentEmailList st) {| email_id := now; email := email |}) st)
      | None => ret tt
      end
  | None => ret tt
  end ;;
  contactData <- getFormData ;;
  sendRequest (if truthy_id (payload_id contactData) then PUT else POST)
    match payload_id contactData with
    | Some i => if truthy_id (Some i) then ApiContact i else ApiContacts
    | None => ApiContacts
    end
    (Some contactData).

(** The handler of the [catch] of [saveContact]. *)
Definition saveContact_catch (error : jsstring) : M unit :=
  console_error (js "Error saving contact:") error ;;
  alert error.

(** [saveContact] once its request is answered, up to the [await] of
    [fetchContacts]. *)
Definition saveContact_resume (result : SaveResult) : M unit :=
  tryCatch
    match result with
    | SaveRejected message => throw message
    | SaveNotOk body =>
        error <- awaitJson body ;;
        throw (match error with
               | Some message =>
                   if truthy_string message then message
                   else js "Failed to save contact"
               | None => js "Failed to save contact"
               end)
    | SaveOk body =>
        _ <- awaitJson body ;;
        fetchContacts_start
    end
    saveContact_catch.

(** [saveContact] once [fetchContacts] has returned. *)
Definition saveContact_finish (savedContact : Contact) : M unit :=
  tryCatch (selectContact savedContact) saveContact_catch.

(** The click listener of [deleteBtn] up to the [await] of
    [deleteContact]: the question is asked and, if the answer is yes, the
    request is sent. *)
Definition deleteBtn_click_start (answer : bool) : M unit :=
  selected <- gets selectedContactId ;;
  match selected with
  | Some id =>
      if truthy_id selected then
        confirmed <- confirm (js "Are you sure you want to delete this contact?") answer ;;
        if negb confirmed then ret tt
        else sendRequest DELETE (ApiContact id) None
      else ret tt
  | None => ret tt
  end.

(** The handler of the [catch] of [deleteContact]. *)
Definition deleteContact_catch (error : jsstring) : M unit :=
  console_error (js "Error deleting contact:") error ;;
  alert error.

(** [deleteContact] once its request is answered, up to the [await] of
    [fetchContacts]. *)
Definition deleteContact_resume (result : DeleteResult) : M unit :=
  tryCatch
    match result with
    | DeleteRejected message => throw message
    | DeleteResponse ok _ =>
        if negb ok then throw (js "Failed to delete contact")
        else fetchContacts_start
    end
    deleteContact_catch.

(** [deleteContact] once [fetchContacts] has returned. *)
Definition deleteContact_finish : M unit :=
  tryCatch clearForm deleteContact_catch.

(** The states of a session in which events may arrive while requests are
    pending.  Every run of the script between two [await]s is one of the
    changes below.  Which continuations are pending is not recorded: a
    continuation is allowed at any time and with any answer, so that
    [reachableAsync] holds of every state the page can be in, and a
    property of all these states is a property of the page whatever the
    order in which answers and events arrive. *)
Inductive reachableAsync : State -> Prop :=
| async_loaded :
    reachableAsync (exec onDOMContentLoaded_start pageLoaded)
| async_event : forall st ev,
    reachableAsync st -> enabled st ev ->
    match ev with
    | SaveClick _ _ _ | DeleteClick _ _ _ => False
    | _ => True
    end ->
    reachableAsync (step st ev)
| async_save_click : forall st now,
    reachableAsync st ->
    contactFormHidden st = false -> saveBtnDisabled st = false ->
    reachableAsync (exec (saveBtn_click_start now) st)
| async_delete_click : forall st answer,
    reachableAsync st ->
    contactFormHidden st = false -> deleteBtnShown st = true ->
    reachableAsync (exec (deleteBtn_click_start answer) st)
| async_list_answered : forall st result,
    reachableAsync st -> reachableAsync (exec (fetchContacts_resume result) st)
| async_save_answered : forall st result,
    reachableAsync st -> reachableAsync (exec (saveContact_resume result) st)
| async_save_finished : forall st savedContact,
    reachableAsync st -> reachableAsync (exec (saveContact_finish savedContact) st)
| async_delete_answered : forall st result,
    reachableAsync st -> reachableAsync (exec (deleteContact_resume result) st)
| async_delete_finished : forall st,
    reachableAsync st -> reachableAsync (exec deleteContact_finish st).

End Engine.

(* ===================================================================== *)
(** * Vocabulary of the specification *)
(* ===================================================================== *)

(** A run of one or more characters that are neither white space nor the
    at sign. *)
Definition emailPart (u : jsstring) : Prop :=
  u <> [] /\ Forall (fun c => isWhiteSpace c = false /\ c <> 64) u.

(** The entity of a character: what one pass over the text would write. *)
Definition htmlEntity (c : codeUnit) : jsstring :=
  if N.eqb c 38 then js "&amp;"
  else if N.eqb c 60 then js "&lt;"
  else if N.eqb c 62 then js "&gt;"
  else if N.eqb c 34 then js "&quot;"
  else if N.eqb c 39 then js "&#039;"
  else [c].

(** The characters that open or close markup or an attribute value. *)
Definition isHtmlDelimiter (c : codeUnit) : bool :=
  N.eqb c 60 || N.eqb c 62 || N.eqb c 34 || N.eqb c 39.

(** A reference engine for instances: on ASCII text [toLowerCase] maps the
    letters A-Z to a-z and nothing else, and code-unit order is a
    consistent comparison. *)
Definition asciiLowerChar (c : codeUnit) : codeUnit :=
  if N.leb 65 c && N.leb c 90 then c + 32 else c.

Definition asciiLower (s : jsstring) : jsstring := List.map asciiLowerChar s.

Definition isAscii (s : jsstring) : Prop := Forall (fun c => c < 128) s.

Fixpoint codeUnitCompare (a b : jsstring) : Z :=
  match a, b with
  | [], [] => 0%Z
  | [], _ :: _ => (-1)%Z
  | _ :: _, [] => 1%Z
  | x :: a', y :: b' =>
      if N.ltb x y then (-1)%Z
      else if N.ltb y x then 1%Z
      else codeUnitCompare a' b'
  end.

(** A comparison function is consistent when [<= 0] is a total preorder. *)
Definition consistentCompare (compare : jsstring -> jsstring -> Z) : Prop :=
  (forall a b, (compare a b <= 0)%Z \/ (compare b a <= 0)%Z) /\
  (forall a b c, (compare a b <= 0)%Z -> (compare b c <= 0)%Z -> (compare a c <= 0)%Z).

(** The two contacts of the example of the specification. *)
Definition contactZed : Contact :=
  {| contact_id := 1; firstName := []; lastName := js "Zed"; emails := [] |}.
Definition contactAdams : Contact :=
  {| contact_id := 2; firstName := []; lastName := js "Adams"; emails := [] |}.

(** What [renderContactsList] has in [sortedContacts] for the array that
    [contacts] refers to. *)
Definition visibleContacts (toLowerCase : jsstring -> jsstring)
  (localeCompare : jsstring -> jsstring -> Z)
  (h : ArrayStore) (contacts : ArrayRef) (query : jsstring) : list Contact :=
  let (h', sorted) := sortedContacts_ref toLowerCase localeCompare h contacts query in
  readArray h' sorted.

(** The condition under which the search keeps a contact. *)
Definition searchKeeps (toLowerCase : jsstring -> jsstring) (query : jsstring)
  (contact : Contact) : Prop :=
  includes (toLowerCase (firstName contact ++ [32] ++ lastName contact))
    (toLowerCase query) = true
  \/ exists e, In e (emails contact)
               /\ includes (toLowerCase (email e)) (toLowerCase query) = true.

(** The Draft, the Pristine Snapshot and the Selection State of the
    specification, as parts of the state of the page.  The Draft is the two
    name fields, the committed e-mail list and the pending e-mail input. *)
Definition draftOf (st : State)
  : jsstring * jsstring * list EmailEntry * option jsstring :=
  (firstNameValue st, lastNameValue st, currentEmailList st, emailInputValue st).

Definition snapshotOf (st : State) : option OriginalContact := originalContact st.

Definition selectionOf (st : State) : option Z := selectedContactId st.

(** The pending e-mail text: what is typed in the e-mail input, nothing
    when there is no input. *)
Definition pendingEmailText (st : State) : jsstring :=
  match emailInputValue st with
  | Some value => value
  | None => []
  end.

(** A name or e-mail without leading or trailing white space. *)
Definition trimmed (s : jsstring) : Prop := trim s = s.

(** The condition of the change detector, for a given reading [pending] of
    the pending e-mail text. *)
Definition changeCondition (pending : jsstring) (st : State) : Prop :=
  match originalContact st with
  | None =>
      trim (firstNameValue st) <> []
      \/ trim (lastNameValue st) <> []
      \/ currentEmailList st <> []
      \/ (pending <> [] /\ isValidEmail pending = true)
  | Some original =>
      trim (firstNameValue st) <> original_firstName original
      \/ trim (lastNameValue st) <> original_lastName original
      \/ List.map email (currentEmailList st)
         <> List.map email (original_emails original)
      \/ (pending <> [] /\ isValidEmail pending = true)
  end.

(** The change detector as the specification words it: the pending text is
    tested as it stands. *)
Definition hasChanges_spec (st : State) : Prop :=
  changeCondition (pendingEmailText st) st.

(** Every field of the form shows the value of the snapshot and no valid
    e-mail is pending. *)
Definition revertedTo (original : OriginalContact) (st : State) : Prop :=
  firstNameValue st = original_firstName original
  /\ lastNameValue st = original_lastName original
  /\ List.map email (currentEmailList st) = List.map email (original_emails original)
  /\ isValidEmail (trim (pendingEmailText st)) = false.

(** [removeEmail(localId)] as the specification words it: the entries with
    that local id go, the others stay in order. *)
Definition removeEmail_spec (localId : Z) (l : list EmailEntry) : list EmailEntry :=
  List.filter (fun e => negb (Z.eqb (email_id e) localId)) l.

(** The state after a sequence of events on a freshly loaded page. *)
Definition run (toLowerCase : jsstring -> jsstring)
  (localeCompare : jsstring -> jsstring -> Z) (events : list Event) : State :=
  fold_left (step toLowerCase localeCompare) events pageLoaded.

(** No restriction on the environment. *)
Definition anyEvent (st : State) (ev : Event) : Prop := True.

(** The environment mints fresh local ids: a timestamp used for a new entry
    is not the id of an entry of the list, and the e-mail entries of a
    contact that comes from the server have pairwise different ids. *)
Definition freshIds (st : State) (ev : Event) : Prop :=
  match ev with
  | ContactClick contact => NoDup (List.map email_id (emails contact))
  | EmailEnter now => ~ In now (List.map email_id (currentEmailList st))
  | SaveClick now result _ =>
      ~ In now (List.map email_id (currentEmailList st))
      /\ match result with
         | SaveOk (JsonValue saved) => NoDup (List.map email_id (emails saved))
         | _ => True
         end
  | _ => True
  end.

(** The requests [saveContact] and [fetchContacts] send. *)
Definition saveRequest (contactData : Payload) : Request :=
  {| request_method := if truthy_id (payload_id contactData) then PUT else POST;
     request_url := match payload_id contactData with
                    | Some i => if truthy_id (Some i) then ApiContact i else ApiContacts
                    | None => ApiContacts
                    end;
     request_body := Some contactData |}.

Definition listRequest : Request :=
  {| request_method := GET; request_url := ApiContacts; request_body := None |}.

Definition deleteRequest (id : Z) : Request :=
  {| request_method := DELETE; request_url := ApiContact id; request_body := None |}.

(** The state after an error was caught in [saveContact] or
    [deleteContact]: the request is in the log, the error is on the console
    and in an alert, nothing else differs. *)
Definition afterFailure (request : Request) (label message : jsstring)
  (shown : list Dialog) (st : State) : State :=
  set_dialogs (Alert message :: shown)
    (set_consoleErrors ((label, message) :: consoleErrors st)
       (set_requests (request :: requests st) st)).

(** The first step of the save listener: a valid pending e-mail joins the
    committed list under the id [now]. *)
Definition commitPending (now : Z) (st : State) : State :=
  match emailInputValue st with
  | Some value =>
      match emailToCommit value with
      | Some e =>
          set_currentEmailList
            (push (currentEmailList st) {| email_id := now; email := e |}) st
      | None => st
      end
  | None => st
  end.

(** The object [getFormData] returns in a state. *)
Definition formData (st : State) : Payload :=
  {| payload_id := if truthy_id (selectedContactId st) then selectedContactId st else None;
     payload_firstName := trim (firstNameValue st);
     payload_lastName := trim (lastNameValue st);
     payload_emails := currentEmailList st |}.

(** A save or a delete that does not go through: the request is rejected,
    the response is not [ok], or its body cannot be parsed. *)
Definition saveFailed (result : SaveResult) : Prop :=
  match result with
  | SaveOk (JsonValue _) => False
  | _ => True
  end.

Definition deleteFailed (result : DeleteResult) : Prop :=
  match result with
  | DeleteResponse true _ => False
  | _ => True
  end.

(** The value of [contacts] once the list request of a refresh is answered:
    the parsed body if there is one, the former value otherwise. *)
Definition refreshedContacts (st : State) (refetch : GetResult) : ContactsValue :=
  match refetch with
  | GetResponse _ (JsonValue v) => v
  | _ => contacts st
  end.

Definition snapshotOfContact (c : Contact) : OriginalContact :=
  {| original_firstName := firstName c;
     original_lastName := lastName c;
     original_emails := emails c |}.

(** A sequence of events the page offers one after the other from [st] and
    the environment is allowed to produce. *)
Fixpoint admissible (toLowerCase : jsstring -> jsstring)
  (localeCompare : jsstring -> jsstring -> Z)
  (allowed : State -> Event -> Prop) (st : State) (events : list Event) : Prop :=
  match events with
  | [] => True
  | ev :: rest =>
      enabled st ev /\ allowed st ev
      /\ admissible toLowerCase localeCompare allowed
           (step toLowerCase localeCompare st ev) rest
  end.


(** A computation whose last statement is [checkForChanges] leaves the
    save button in step with [hasChanges]. *)
Definition endsWithCheck (m : M unit) : Prop :=
  forall st,
    fst (m st) = Normal tt ->
    saveBtnDisabled (snd (m st)) = negb (hasChanges (snd (m st))).

(** The state after a caught error was logged and shown in an alert. *)
Definition reported (label message : jsstring) (st : State) : State :=
  set_dialogs (Alert message :: dialogs st)
    (set_consoleErrors ((label, message) :: consoleErrors st) st).

(** The form holds nothing: no selection, no snapshot, empty name fields,
    no committed e-mail, no row, no pending input, and the delete button is
    not shown. *)
Definition formEmpty (st : State) : Prop :=
  selectedContactId st = None
  /\ originalContact st = None
  /\ firstNameValue st = []
  /\ lastNameValue st = []
  /\ currentEmailList st = []
  /\ emailRows st = []
  /\ emailInputValue st = None
  /\ isAddingEmail st = false
  /\ deleteBtnShown st = false.

(** What [clearForm] and the listeners that only call it leave alone: the
    contact list, the search, what is rendered of them, the save button and
    the record of requests, dialogs and console errors. *)
Definition sameListAndLog (st st' : State) : Prop :=
  contacts st' = contacts st
  /\ searchQuery st' = searchQuery st
  /\ contactsListItems st' = contactsListItems st
  /\ saveBtnDisabled st' = saveBtnDisabled st
  /\ requests st' = requests st
  /\ dialogs st' = dialogs st
  /\ consoleErrors st' = consoleErrors st.

(** The test of [clearForm]: nothing is selected and both name fields are
    empty. *)
Definition isAddingNew (st : State) : bool :=
  negb (truthy_id (selectedContactId st))
  && jsstring_eqb (firstNameValue st) []
  && jsstring_eqb (lastNameValue st) [].

(** The requests the script can send. *)
Definition wellFormedRequest (r : Request) : Prop :=
  match request_method r with
  | GET => request_url r = ApiContacts /\ request_body r = None
  | POST =>
      request_url r = ApiContacts
      /\ exists p, request_body r = Some p /\ payload_id p = None
  | PUT =>
      exists i p,
        i <> 0%Z /\ request_url r = ApiContact i
        /\ request_body r = Some p /\ payload_id p = Some i
  | DELETE =>
      exists i, i <> 0%Z /\ request_url r = ApiContact i /\ request_body r = None
  end.

(** The rows of the e-mail list show the first committed e-mails, in
    order. *)
Definition rowsShowList (st : State) : Prop :=
  exists rest, List.map email (currentEmailList st) = emailRows st ++ rest.

(** The rendered contact list is what the search and the sort derive from
    [contacts], and is empty when [contacts] is not an array. *)
Definition listRendered (toLowerCase : jsstring -> jsstring)
  (localeCompare : jsstring -> jsstring -> Z) (st : State) : Prop :=
  match contacts st with
  | ContactsArray cs =>
      contactsListItems st
      = sortedContacts toLowerCase localeCompare cs (searchQuery st)
  | ContactsObject _ => contactsListItems st = []
  end.

(** Reading an escaped text back, as an HTML parser does with the five
    entities [escapeHtml] writes.  The script leaves this to the browser;
    the function serves to show that [escapeHtml] loses nothing. *)
Fixpoint unescapeHtml (s : jsstring) : jsstring :=
  match s with
  | [] => []
  | c :: t =>
      if N.eqb c 38 then
        match t with
        | 97 :: 109 :: 112 :: 59 :: t' => 38 :: unescapeHtml t'
        | 108 :: 116 :: 59 :: t' => 60 :: unescapeHtml t'
        | 103 :: 116 :: 59 :: t' => 62 :: unescapeHtml t'
        | 113 :: 117 :: 111 :: 116 :: 59 :: t' => 34 :: unescapeHtml t'
        | 35 :: 48 :: 51 :: 57 :: 59 :: t' => 39 :: unescapeHtml t'
        | _ => c :: unescapeHtml t
        end
      else c :: unescapeHtml t
  end.

(** One of the five characters [escapeHtml] replaces. *)
Definition isHtmlSpecial (c : codeUnit) : bool :=
  N.eqb c 38 || N.eqb c 60 || N.eqb c 62 || N.eqb c 34 || N.eqb c 39.

(** The events that edit the Draft in the form: the name fields, the
    e-mail input, Enter in it, Add email and the delete button of a row. *)
Definition isDraftEdit (ev : Event) : bool :=
  match ev with
  | AddEmailClick | EmailInput _ | EmailEnter _ | EmailDeleteClick _
  | FirstNameInput _ | LastNameInput _ => true
  | _ => false
  end.

(** The two listeners that talk to the server on a click. *)
Definition isServerCall (ev : Event) : bool :=
  match ev with
  | SaveClick _ _ _ | DeleteClick _ _ _ => true
  | _ => false
  end.

(** Two contacts whose last names the comparison does not tell apart. *)
Definition sameRank (localeCompare : jsstring -> jsstring -> Z) (a b : Contact) : bool :=
  (localeCompare (lastName a) (lastName b) <=? 0)%Z
  && (localeCompare (lastName b) (lastName a) <=? 0)%Z.

(** A text without line break: what a single-line input can hold. *)
Definition singleLine (s : jsstring) : Prop := stripNewlines s = s.

(** The Draft holds nothing: empty name fields, no committed e-mail, no
    row, no pending input, and [isAddingEmail] is not set. *)
Definition draftEmpty (st : State) : Prop :=
  firstNameValue st = []
  /\ lastNameValue st = []
  /\ currentEmailList st = []
  /\ emailRows st = []
  /\ emailInputValue st = None
  /\ isAddingEmail st = false.

(** The condition under which the listener of Add email throws: the flag
    is not set, no contact is being created, and [contacts] holds no
    array, so that [contacts.find] is not a function. *)
Definition addEmailThrows (st : State) : Prop :=
  isAddingEmail st = false
  /\ isNewContact st = false
  /\ exists error, contacts st = ContactsObject error.

(* ===================================================================== *)
(** * Theorems *)
(* ===================================================================== *)

(* --------------------------------------------------------------------- *)
(** ** The derivative matcher decides the language of a pattern *)

Lemma matches_nil_nullable (r : Regex) : matches r [] -> nullable r = true.
Proof.
  intros H. remember [] as s eqn:Es in H.
  induction H; simpl; try reflexivity; try discriminate.
  - apply app_eq_nil in Es. destruct Es as [E1 E2].
    rewrite (IHmatches1 E1), (IHmatches2 E2). reflexivity.
  - rewrite (IHmatches Es). reflexivity.
  - rewrite (IHmatches Es). apply orb_true_r.
Qed.

Lemma nullable_matches_nil (r : Regex) : nullable r = true -> matches r [].
Proof.
  induction r; simpl; intros H; try discriminate.
  - constructor.
  - apply andb_true_iff in H. destruct H as [H1 H2].
    change (@nil codeUnit) with (@nil codeUnit ++ []).
    constructor; auto.
  - apply orb_true_iff in H. destruct H as [H | H].
    + apply MAltL; auto.
    + apply MAltR; auto.
  - constructor.
Qed.

Lemma derive_sound (c : codeUnit) (r : Regex) :
  forall s, matches (derive c r) s -> matches r (c :: s).
Proof.
  induction r; simpl; intros s H.
  - inversion H.
  - inversion H.
  - destruct (N.eqb_spec c c0) as [E | E].
    + inversion H; subst. constructor.
    + inversion H.
  - destruct (notInClass l c) eqn:E.
    + inversion H; subst. constructor. exact E.
    + inversion H.
  - destruct (nullable r1) eqn:E.
    + inversion H; subst.
      * match goal with
        | [ H' : matches (RSeq _ _) _ |- _ ] => inversion H'; subst
        end.
        change (c :: s1 ++ s2) with ((c :: s1) ++ s2).
        constructor; auto.
      * change (c :: s) with ([] ++ c :: s).
        constructor; auto using nullable_matches_nil.
    + inversion H; subst.
      change (c :: s1 ++ s2) with ((c :: s1) ++ s2).
      constructor; auto.
  - inversion H; subst.
    + apply MAltL; auto.
    + apply MAltR; auto.
  - inversion H; subst.
    change (c :: s1 ++ s2) with ((c :: s1) ++ s2).
    constructor; auto.
Qed.

Lemma derive_complete (c : codeUnit) (r : Regex) (w : jsstring) :
  matches r w -> forall t, w = c :: t -> matches (derive c r) t.
Proof.
  intros H. induction H as
    [ | d | atoms d Hd | r1 r2 s1 s2 H1 IH1 H2 IH2 | r1 r2 s H1 IH1
    | r1 r2 s H2 IH2 | r1 | r1 s1 s2 H1 IH1 H2 IH2 ];
    intros t E; simpl.
  - discriminate.
  - injection E as -> <-. rewrite N.eqb_refl. constructor.
  - injection E as -> <-. rewrite Hd. constructor.
  - destruct s1 as [| c1 s1'].
    + simpl in E. subst s2.
      rewrite (matches_nil_nullable _ H1).
      apply MAltR. apply IH2. reflexivity.
    + simpl in E. injection E as -> <-.
      destruct (nullable r1).
      * apply MAltL. constructor; auto.
      * constructor; auto.
  - apply MAltL; auto.
  - apply MAltR; auto.
  - discriminate.
  - destruct s1 as [| c1 s1'].
    + simpl in E. apply IH2 in E. exact E.
    + simpl in E. injection E as -> <-.
      constructor; auto.
Qed.

Lemma anchoredTest_matches (s : jsstring) :
  forall r, anchoredTest r s = true <-> matches r s.
Proof.
  induction s as [| c s IH]; intros r; simpl.
  - split; [apply nullable_matches_nil | apply matches_nil_nullable].
  - rewrite IH. split.
    + apply derive_sound.
    + intros H. apply (derive_complete _ _ _ H). reflexivity.
Qed.

(* --------------------------------------------------------------------- *)
(** ** The language of the e-mail pattern *)

Lemma matches_seq (r1 r2 : Regex) (s : jsstring) :
  matches (RSeq r1 r2) s <->
  exists s1 s2, s = s1 ++ s2 /\ matches r1 s1 /\ matches r2 s2.
Proof.
  split.
  - intros H. inversion H; subst. eauto.
  - intros (s1 & s2 & -> & H1 & H2). constructor; assumption.
Qed.

Lemma matches_char (c : codeUnit) (s : jsstring) :
  matches (RChar c) s <-> s = [c].
Proof.
  split.
  - intros H. inversion H. reflexivity.
  - intros ->. constructor.
Qed.

Lemma matches_star_notIn (atoms : list ClassAtom) (s : jsstring) :
  matches (RStar (RNotIn atoms)) s <-> forallb (notInClass atoms) s = true.
Proof.
  split.
  - intros H. remember (RStar (RNotIn atoms)) as r eqn:Er.
    induction H; try discriminate.
    + reflexivity.
    + injection Er as ->. rewrite forallb_app.
      rewrite IHmatches2 by reflexivity.
      inversion H; subst. simpl.
      match goal with [ H' : notInClass _ _ = true |- _ ] => rewrite H' end.
      reflexivity.
  - induction s as [| c s IH]; simpl; intros H.
    + constructor.
    + apply andb_true_iff in H. destruct H as [Hc Hs].
      change (c :: s) with ([c] ++ s).
      constructor; [constructor; assumption | auto].
Qed.

Lemma matches_plus_notIn (atoms : list ClassAtom) (s : jsstring) :
  matches (RPlus (RNotIn atoms)) s <->
  s <> [] /\ forallb (notInClass atoms) s = true.
Proof.
  unfold RPlus. rewrite matches_seq. split.
  - intros (s1 & s2 & -> & H1 & H2). inversion H1; subst.
    split; [discriminate |]. simpl.
    apply matches_star_notIn in H2. rewrite H2.
    match goal with [ H' : notInClass _ _ = true |- _ ] => rewrite H' end.
    reflexivity.
  - intros [Hne H]. destruct s as [| c s]; [congruence |].
    simpl in H. apply andb_true_iff in H. destruct H as [Hc Hs].
    exists [c], s. split; [reflexivity |].
    split; [constructor; assumption | apply matches_star_notIn; assumption].
Qed.

Lemma notSpaceAt_class (c : codeUnit) :
  notInClass [ClassSpace; ClassChar 64] c = true <->
  isWhiteSpace c = false /\ c <> 64.
Proof.
  unfold notInClass. cbn [existsb atomMatches].
  rewrite orb_false_r, negb_true_iff, orb_false_iff, N.eqb_neq.
  reflexivity.
Qed.

Lemma matches_plus_notSpaceAt (s : jsstring) :
  matches (RPlus notSpaceAt) s <-> emailPart s.
Proof.
  unfold notSpaceAt, emailPart. rewrite matches_plus_notIn.
  rewrite forallb_forall, Forall_forall.
  split; intros [Hne H]; (split; [exact Hne |]); intros c Hc;
    apply notSpaceAt_class; auto.
Qed.

Lemma emailRe_language (s : jsstring) :
  matches emailRe s <->
  exists u v w,
    s = u ++ [64] ++ v ++ [46] ++ w /\ emailPart u /\ emailPart v /\ emailPart w.
Proof.
  unfold emailRe. split.
  - intros H.
    apply matches_seq in H. destruct H as (u & s1 & -> & Hu & H).
    apply matches_seq in H. destruct H as (a & s2 & -> & Ha & H).
    apply matches_seq in H. destruct H as (v & s3 & -> & Hv & H).
    apply matches_seq in H. destruct H as (d & w & -> & Hd & Hw).
    apply matches_char in Ha. apply matches_char in Hd. subst a d.
    exists u, v, w. rewrite <- !matches_plus_notSpaceAt. auto.
  - intros (u & v & w & -> & Hu & Hv & Hw).
    rewrite <- matches_plus_notSpaceAt in Hu, Hv, Hw.
    repeat (constructor; try assumption).
Qed.

(* --------------------------------------------------------------------- *)
(** ** Strings: equality, [trim], [includes] *)

Lemma jsstring_eqb_eq (a b : jsstring) : jsstring_eqb a b = true <-> a = b.
Proof.
  unfold jsstring_eqb. destruct (list_eq_dec N.eq_dec a b); split; congruence.
Qed.

Lemma jsstring_eqb_neq (a b : jsstring) : negb (jsstring_eqb a b) = true <-> a <> b.
Proof.
  unfold jsstring_eqb. destruct (list_eq_dec N.eq_dec a b); simpl; split;
    congruence.
Qed.

Lemma truthy_string_nonempty (s : jsstring) : truthy_string s = true <-> s <> [].
Proof. destruct s; simpl; split; congruence. Qed.

Lemma trimStart_snoc (x : jsstring) (c : codeUnit) :
  isWhiteSpace c = false -> trimStart (x ++ [c]) = trimStart x ++ [c].
Proof.
  intros Hc. induction x as [| d x IH]; simpl.
  - rewrite Hc. reflexivity.
  - destruct (isWhiteSpace d); [exact IH | reflexivity].
Qed.

Lemma trimEnd_cons (c : codeUnit) (s : jsstring) :
  isWhiteSpace c = false -> trimEnd (c :: s) = c :: trimEnd s.
Proof.
  intros Hc. unfold trimEnd. simpl.
  rewrite (trimStart_snoc _ _ Hc), rev_app_distr. reflexivity.
Qed.

Lemma trimStart_idempotent (s : jsstring) : trimStart (trimStart s) = trimStart s.
Proof.
  induction s as [| c s IH]; simpl; [reflexivity |].
  destruct (isWhiteSpace c) eqn:E; [exact IH |].
  simpl. rewrite E. reflexivity.
Qed.

Lemma trimStart_head (s : jsstring) :
  trimStart s = [] \/
  exists c t, trimStart s = c :: t /\ isWhiteSpace c = false.
Proof.
  induction s as [| c s IH]; simpl; [left; reflexivity |].
  destruct (isWhiteSpace c) eqn:E; [exact IH |].
  right. exists c, s. auto.
Qed.

Lemma trimEnd_idempotent (s : jsstring) : trimEnd (trimEnd s) = trimEnd s.
Proof.
  unfold trimEnd. rewrite rev_involutive, trimStart_idempotent. reflexivity.
Qed.

(** Trimming twice is trimming once: the names [getFormData] sends are
    fixed points of [trim]. *)
Lemma trim_idempotent (s : jsstring) : trim (trim s) = trim s.
Proof.
  unfold trim. destruct (trimStart_head s) as [E | (c & t & E & Hc)].
  - rewrite E. reflexivity.
  - rewrite E. rewrite (trimEnd_cons _ _ Hc). simpl. rewrite Hc.
    rewrite <- (trimEnd_cons _ _ Hc). apply trimEnd_idempotent.
Qed.

Lemma trimEnd_no_space (s : jsstring) :
  Forall (fun c => isWhiteSpace c = false) s -> trimEnd s = s.
Proof.
  induction 1 as [| c s Hc _ IH]; [reflexivity |].
  rewrite (trimEnd_cons _ _ Hc), IH. reflexivity.
Qed.

Lemma trim_no_space (s : jsstring) :
  Forall (fun c => isWhiteSpace c = false) s -> trim s = s.
Proof.
  intros H. unfold trim.
  assert (E : trimStart s = s).
  { destruct H as [| c s Hc _]; simpl; [reflexivity |]. rewrite Hc. reflexivity. }
  rewrite E. apply trimEnd_no_space. exact H.
Qed.

Lemma startsWith_prefix (s p : jsstring) :
  startsWith s p = true <-> exists post, s = p ++ post.
Proof.
  revert s. induction p as [| c p IH]; intros s; simpl.
  - split; [intros _; exists s; reflexivity | reflexivity].
  - destruct s as [| d s].
    + split; [discriminate | intros [post E]; discriminate].
    + rewrite andb_true_iff, N.eqb_eq, IH. split.
      * intros [-> [post ->]]. exists post. reflexivity.
      * intros [post E]. injection E as -> ->. eauto.
Qed.

(** [includes] is the substring test. *)
Lemma includes_substring (s sub : jsstring) :
  includes s sub = true <-> exists pre post, s = pre ++ sub ++ post.
Proof.
  induction s as [| c s IH].
  - simpl. rewrite orb_false_r, startsWith_prefix. split.
    + intros [post E]. exists [], post. exact E.
    + intros (pre & post & E). destruct pre; [eauto |]. discriminate.
  - cbn [includes]. rewrite orb_true_iff, startsWith_prefix, IH. split.
    + intros [[post E] | (pre & post & E)].
      * exists [], post. exact E.
      * exists (c :: pre), post. rewrite E. reflexivity.
    + intros (pre & post & E). destruct pre as [| d pre].
      * left. exists post. exact E.
      * right. injection E as -> ->. eauto.
Qed.

Lemma includes_empty (s : jsstring) : includes s [] = true.
Proof. destruct s; reflexivity. Qed.

(* --------------------------------------------------------------------- *)
(** ** A valid e-mail has no white space, so [trim] leaves it alone *)

Lemma emailPart_no_space (u : jsstring) :
  emailPart u -> Forall (fun c => isWhiteSpace c = false) u.
Proof.
  intros [_ H]. eapply Forall_impl; [| exact H]. simpl. intros c [Hc _]. exact Hc.
Qed.

Lemma isValidEmail_no_space (s : jsstring) :
  isValidEmail s = true -> Forall (fun c => isWhiteSpace c = false) s.
Proof.
  unfold isValidEmail. rewrite anchoredTest_matches, emailRe_language.
  intros (u & v & w & -> & Hu & Hv & Hw).
  repeat (apply Forall_app; split);
    auto using emailPart_no_space; repeat constructor.
Qed.

Lemma isValidEmail_trim (s : jsstring) : isValidEmail s = true -> trim s = s.
Proof. intros H. apply trim_no_space, isValidEmail_no_space, H. Qed.

Lemma isValidEmail_nonempty (s : jsstring) : isValidEmail s = true -> s <> [].
Proof. intros H ->. discriminate. Qed.

(* --------------------------------------------------------------------- *)
(** ** [escapeHtml] *)

Lemma flat_map_flat_map (A B C : Type) (f : A -> list B) (g : B -> list C) (l : list A) :
  flat_map g (flat_map f l) = flat_map (fun x => flat_map g (f x)) l.
Proof.
  induction l as [| x l IH]; simpl; [reflexivity |].
  rewrite flat_map_app, IH. reflexivity.
Qed.

Lemma escapeHtml_charwise (s : jsstring) : escapeHtml s = flat_map htmlEntity s.
Proof.
  unfold escapeHtml, replaceAll. rewrite !flat_map_flat_map.
  apply flat_map_ext. intros c. unfold htmlEntity.
  destruct (N.eqb_spec c 38) as [-> | H38]; [reflexivity |].
  destruct (N.eqb_spec c 60) as [-> | H60]; [reflexivity |].
  destruct (N.eqb_spec c 62) as [-> | H62]; [reflexivity |].
  destruct (N.eqb_spec c 34) as [-> | H34]; [reflexivity |].
  destruct (N.eqb_spec c 39) as [-> | H39]; [reflexivity |].
  simpl.
  repeat match goal with
         | [ H : c <> ?k |- context [N.eqb c ?k] ] =>
             rewrite (proj2 (N.eqb_neq c k) H); simpl
         end.
  reflexivity.
Qed.

Lemma htmlEntity_safe (c : codeUnit) :
  Forall (fun x => isHtmlDelimiter x = false) (htmlEntity c).
Proof.
  unfold htmlEntity.
  destruct (N.eqb_spec c 38); [repeat constructor |].
  destruct (N.eqb_spec c 60); [repeat constructor |].
  destruct (N.eqb_spec c 62); [repeat constructor |].
  destruct (N.eqb_spec c 34); [repeat constructor |].
  destruct (N.eqb_spec c 39); [repeat constructor |].
  constructor; [| constructor].
  unfold isHtmlDelimiter.
  repeat match goal with
         | [ H : c <> ?k |- context [N.eqb c ?k] ] =>
             rewrite (proj2 (N.eqb_neq c k) H); simpl
         end.
  reflexivity.
Qed.

(* --------------------------------------------------------------------- *)
(** ** Single-line inputs *)

Lemma stripNewlines_singleLine (s : jsstring) : singleLine (stripNewlines s).
Proof.
  unfold singleLine, stripNewlines. induction s as [| c s IH]; [reflexivity |].
  cbn [List.filter]. destruct (negb (isLineBreak c)) eqn:E; [| exact IH].
  cbn [List.filter]. rewrite E, IH. reflexivity.
Qed.

Lemma singleLine_Forall (s : jsstring) :
  singleLine s <-> Forall (fun c => isLineBreak c = false) s.
Proof.
  unfold singleLine, stripNewlines. split.
  - intros E. rewrite <- E. apply Forall_forall. intros c Hc.
    apply filter_In in Hc. destruct Hc as [_ Hc]. apply negb_true_iff, Hc.
  - induction 1 as [| c s Hc _ IH]; [reflexivity |].
    cbn [List.filter]. rewrite Hc. cbn [negb]. rewrite IH. reflexivity.
Qed.

Lemma trimStart_incl (s : jsstring) (c : codeUnit) : In c (trimStart s) -> In c s.
Proof.
  induction s as [| d s IH]; [intros H; exact H |].
  cbn [trimStart]. destruct (isWhiteSpace d); [| intros H; exact H].
  intros H. right. apply IH, H.
Qed.

Lemma trim_incl (s : jsstring) (c : codeUnit) : In c (trim s) -> In c s.
Proof.
  unfold trim, trimEnd. intros H.
  apply in_rev, trimStart_incl in H. apply in_rev in H.
  apply trimStart_incl, H.
Qed.

(** Trimming a text without line break leaves a text without line
    break. *)
Lemma trim_singleLine (s : jsstring) : singleLine s -> singleLine (trim s).
Proof.
  rewrite !singleLine_Forall, !Forall_forall. intros H c Hc.
  apply H, trim_incl, Hc.
Qed.

(** A name field that was assigned [s] reads [s] again after trimming
    exactly when [s] has neither surrounding white space nor a line
    break. *)
Lemma field_keeps_name (s : jsstring) :
  trim (stripNewlines s) = s <-> trimmed s /\ singleLine s.
Proof.
  unfold trimmed. split.
  - intros E.
    assert (Hs : singleLine s).
    { rewrite <- E. apply trim_singleLine, stripNewlines_singleLine. }
    split; [| exact Hs]. unfold singleLine in Hs. rewrite Hs in E. exact E.
  - intros [Ht Hs]. unfold singleLine in Hs. rewrite Hs. exact Ht.
Qed.

(* --------------------------------------------------------------------- *)
(** ** [JSON.stringify] is injective on arrays of strings *)

Lemma hexValue_hexDigit (d : N) : d < 16 -> hexValue (hexDigit d) = d.
Proof.
  intros H. unfold hexValue, hexDigit.
  destruct (N.ltb_spec d 10).
  - destruct (N.ltb_spec (48 + d) 58); lia.
  - destruct (N.ltb_spec (87 + d) 58); lia.
Qed.

Lemma hex_digits_value (c : N) :
  c < 65536 ->
  4096 * (c / 4096) + 256 * ((c / 256) mod 16) + 16 * ((c / 16) mod 16) + c mod 16 = c.
Proof.
  intros H.
  assert (E1 : c / 16 = 16 * (c / 256) + (c / 16) mod 16).
  { replace (c / 256) with (c / 16 / 16) by (rewrite N.Div0.div_div; reflexivity).
    apply N.div_mod. discriminate. }
  assert (E2 : c / 256 = 16 * (c / 4096) + (c / 256) mod 16).
  { replace (c / 4096) with (c / 256 / 16) by (rewrite N.Div0.div_div; reflexivity).
    apply N.div_mod. discriminate. }
  assert (E0 : c = 16 * (c / 16) + c mod 16) by (apply N.div_mod; discriminate).
  lia.
Qed.

Lemma unquote_unicodeEscape (c : codeUnit) (t : jsstring) :
  c < 65536 ->
  unquoteJSONBody (unicodeEscape c ++ t) =
  match unquoteJSONBody t with
  | Some (r, rest) => Some (c :: r, rest)
  | None => None
  end.
Proof.
  intros H. unfold unicodeEscape.
  cbn [app unquoteJSONBody].
  change (N.eqb 92 34) with false. change (N.eqb 92 92) with true.
  change (N.eqb 117 117) with true. cbv iota.
  assert (H3 : c / 4096 < 16) by (apply N.Div0.div_lt_upper_bound; lia).
  rewrite (hexValue_hexDigit _ H3).
  rewrite !hexValue_hexDigit by (apply N.mod_lt; discriminate).
  rewrite (hex_digits_value _ H). reflexivity.
Qed.

Lemma unquote_literal (c : codeUnit) (t : jsstring) :
  c <> 34 -> c <> 92 ->
  unquoteJSONBody (c :: t) =
  match unquoteJSONBody t with
  | Some (r, rest) => Some (c :: r, rest)
  | None => None
  end.
Proof.
  intros H34 H92. cbn [unquoteJSONBody].
  rewrite (proj2 (N.eqb_neq c 34) H34), (proj2 (N.eqb_neq c 92) H92).
  reflexivity.
Qed.

Lemma unquote_quoteCodeUnit (c : codeUnit) (t : jsstring) :
  unquoteJSONBody (quoteCodeUnit c ++ t) =
  match unquoteJSONBody t with
  | Some (r, rest) => Some (c :: r, rest)
  | None => None
  end.
Proof.
  unfold quoteCodeUnit.
  destruct (N.eqb_spec c 8) as [-> | H8]; [reflexivity |].
  destruct (N.eqb_spec c 9) as [-> | H9]; [reflexivity |].
  destruct (N.eqb_spec c 10) as [-> | H10]; [reflexivity |].
  destruct (N.eqb_spec c 12) as [-> | H12]; [reflexivity |].
  destruct (N.eqb_spec c 13) as [-> | H13]; [reflexivity |].
  destruct (N.eqb_spec c 34) as [-> | H34]; [reflexivity |].
  destruct (N.eqb_spec c 92) as [-> | H92]; [reflexivity |].
  destruct (N.ltb_spec c 32) as [Hlt | Hge].
  - apply unquote_unicodeEscape. lia.
  - apply unquote_literal; assumption.
Qed.

Lemma surrogate_bounds (c : codeUnit) :
  isLeadingSurrogate c = true \/ isTrailingSurrogate c = true ->
  c < 65536 /\ c <> 34 /\ c <> 92.
Proof.
  unfold isLeadingSurrogate, isTrailingSurrogate.
  rewrite !andb_true_iff, !N.leb_le. lia.
Qed.

(** Reading back what [quoteJSONBody] wrote, up to the closing quote, gives
    the string and what follows the quote. *)
Lemma unquote_quoteJSONBody (n : nat) :
  forall (s rest : jsstring),
    (List.length s <= n)%nat ->
    unquoteJSONBody (quoteJSONBody s ++ 34 :: rest) = Some (s, rest).
Proof.
  induction n as [| n IH]; intros s rest Hlen.
  - destruct s; [reflexivity | simpl in Hlen; lia].
  - destruct s as [| c t]; [reflexivity |].
    simpl in Hlen. cbn [quoteJSONBody].
    destruct (isLeadingSurrogate c) eqn:Elead.
    + destruct (surrogate_bounds c (or_introl Elead)) as (Hc & Hc34 & Hc92).
      destruct t as [| d t'].
      * rewrite unquote_unicodeEscape by exact Hc. reflexivity.
      * destruct (isTrailingSurrogate d) eqn:Etrail.
        -- destruct (surrogate_bounds d (or_intror Etrail)) as (_ & Hd34 & Hd92).
           cbn [app].
           rewrite (unquote_literal c _ Hc34 Hc92), (unquote_literal d _ Hd34 Hd92).
           rewrite IH by (simpl in Hlen; lia). reflexivity.
        -- rewrite <- app_assoc, unquote_unicodeEscape by exact Hc.
           rewrite IH by lia. reflexivity.
    + destruct (isTrailingSurrogate c) eqn:Etrail.
      * destruct (surrogate_bounds c (or_intror Etrail)) as (Hc & _).
        rewrite <- app_assoc, unquote_unicodeEscape by exact Hc.
        rewrite IH by lia. reflexivity.
      * rewrite <- app_assoc, unquote_quoteCodeUnit.
        rewrite IH by lia. reflexivity.
Qed.

Lemma quoteJSONString_inj (x y r1 r2 : jsstring) :
  quoteJSONString x ++ r1 = quoteJSONString y ++ r2 -> x = y /\ r1 = r2.
Proof.
  unfold quoteJSONString. intros E.
  assert (E' : quoteJSONBody x ++ 34 :: r1 = quoteJSONBody y ++ 34 :: r2).
  { cbn [app] in E. rewrite <- !app_assoc in E. cbn [app] in E.
    injection E as E. exact E. }
  apply (f_equal unquoteJSONBody) in E'.
  rewrite (unquote_quoteJSONBody (List.length x) x r1 (le_n _)) in E'.
  rewrite (unquote_quoteJSONBody (List.length y) y r2 (le_n _)) in E'.
  injection E' as -> ->. auto.
Qed.

Lemma stringifyElements_cons (x : jsstring) (xs : list jsstring) :
  stringifyElements (x :: xs) =
  quoteJSONString x ++
  match xs with
  | [] => []
  | _ :: _ => 44 :: stringifyElements xs
  end.
Proof. reflexivity. Qed.

Lemma stringifyElements_inj (l1 : list jsstring) :
  forall l2,
    stringifyElements l1 ++ [93] = stringifyElements l2 ++ [93] -> l1 = l2.
Proof.
  induction l1 as [| x xs IH]; intros [| y ys] E.
  - reflexivity.
  - rewrite stringifyElements_cons in E. unfold quoteJSONString in E.
    cbn [app stringifyElements] in E. discriminate.
  - rewrite stringifyElements_cons in E. unfold quoteJSONString in E.
    cbn [app stringifyElements] in E. discriminate.
  - rewrite !stringifyElements_cons, <- !app_assoc in E.
    apply quoteJSONString_inj in E. destruct E as [-> E].
    f_equal. destruct xs as [| x' xs'], ys as [| y' ys'].
    + reflexivity.
    + discriminate.
    + discriminate.
    + apply IH. exact (f_equal (@tl codeUnit) E).
Qed.

Theorem JSON_stringify_inj (l1 l2 : list jsstring) :
  JSON_stringify l1 = JSON_stringify l2 -> l1 = l2.
Proof.
  unfold JSON_stringify. intros E. injection E as E.
  apply stringifyElements_inj. exact E.
Qed.

Lemma JSON_stringify_neq (l1 l2 : list jsstring) :
  negb (jsstring_eqb (JSON_stringify l1) (JSON_stringify l2)) = true <-> l1 <> l2.
Proof.
  rewrite jsstring_eqb_neq. split.
  - intros H E. apply H. rewrite E. reflexivity.
  - intros H E. apply H. apply JSON_stringify_inj. exact E.
Qed.

(* --------------------------------------------------------------------- *)
(** ** Arrays: [splice], [sort], the store *)

Lemma splice1_push (A : Type) (l : list A) (x : A) :
  splice1 (List.length l) (push l x) = l.
Proof.
  unfold push. induction l as [| y l IH]; simpl; [reflexivity |].
  rewrite IH. reflexivity.
Qed.

Lemma splice1_out_of_range (A : Type) (l : list A) :
  forall index, (List.length l <= index)%nat -> splice1 index l = l.
Proof.
  induction l as [| y l IH]; intros index H; simpl; [reflexivity |].
  destruct index as [| i]; simpl in H; [lia |].
  rewrite IH by lia. reflexivity.
Qed.

Lemma splice1_incl (A : Type) (l : list A) :
  forall index x, In x (splice1 index l) -> In x l.
Proof.
  induction l as [| y l IH]; intros index x H; simpl in *; [exact H |].
  destruct index as [| i]; simpl in H.
  - right. exact H.
  - destruct H as [H | H]; [left; exact H | right; eapply IH; exact H].
Qed.

Lemma splice1_map (A B : Type) (f : A -> B) (l : list A) :
  forall index, List.map f (splice1 index l) = splice1 index (List.map f l).
Proof.
  induction l as [| y l IH]; intros index; simpl; [reflexivity |].
  destruct index as [| i]; simpl; [reflexivity |].
  rewrite IH. reflexivity.
Qed.

Lemma splice1_NoDup (A : Type) (l : list A) :
  forall index, NoDup l -> NoDup (splice1 index l).
Proof.
  induction l as [| y l IH]; intros index H; simpl; [exact H |].
  inversion H as [| ? ? Hy Hl]; subst.
  destruct index as [| i]; [exact Hl |].
  constructor; [| apply IH; exact Hl].
  intros Hin. apply Hy. eapply splice1_incl. exact Hin.
Qed.

Lemma insertSorted_perm (A : Type) (cmp : A -> A -> Z) (x : A) (l : list A) :
  Permutation (insertSorted cmp x l) (x :: l).
Proof.
  induction l as [| y l IH]; simpl; [reflexivity |].
  destruct (cmp x y <=? 0)%Z; [reflexivity |].
  rewrite IH. apply perm_swap.
Qed.

Lemma arraySort_perm (A : Type) (cmp : A -> A -> Z) (l : list A) :
  Permutation (arraySort cmp l) l.
Proof.
  induction l as [| x l IH]; simpl; [reflexivity |].
  rewrite insertSorted_perm, IH. reflexivity.
Qed.

Section SortOrder.

Variable A : Type.
Variable cmp : A -> A -> Z.
Hypothesis cmp_total : forall a b, (cmp a b <= 0)%Z \/ (cmp b a <= 0)%Z.
Hypothesis cmp_trans :
  forall a b c, (cmp a b <= 0)%Z -> (cmp b c <= 0)%Z -> (cmp a c <= 0)%Z.

Lemma insertSorted_sorted (x : A) (l : list A) :
  StronglySorted (fun a b => (cmp a b <= 0)%Z) l ->
  StronglySorted (fun a b => (cmp a b <= 0)%Z) (insertSorted cmp x l).
Proof.
  induction 1 as [| y l Hl IH Hy]; simpl.
  - constructor; constructor.
  - destruct (Z.leb_spec (cmp x y) 0) as [Hxy | Hxy].
    + constructor; [constructor; assumption |].
      constructor; [exact Hxy |].
      eapply Forall_impl; [| exact Hy].
      intros z Hz. simpl in Hz. eapply cmp_trans; [exact Hxy | exact Hz].
    + constructor; [exact IH |].
      assert (Hyx : (cmp y x <= 0)%Z)
        by (destruct (cmp_total x y); [lia | assumption]).
      eapply Permutation_Forall.
      * symmetry. apply insertSorted_perm.
      * constructor; assumption.
Qed.

Lemma arraySort_sorted (l : list A) :
  StronglySorted (fun a b => (cmp a b <= 0)%Z) (arraySort cmp l).
Proof.
  induction l as [| x l IH]; simpl; [constructor |].
  apply insertSorted_sorted. exact IH.
Qed.

(** The sort is stable: elements that compare equal to a given one keep
    the order they had.  With the two lemmas above this fixes the result of
    [Array.prototype.sort] for a consistent comparison function. *)
Lemma insertSorted_filter_equal (a x : A) (l : list A) :
  List.filter (fun y => (cmp a y <=? 0)%Z && (cmp y a <=? 0)%Z)
    (insertSorted cmp x l)
  = List.filter (fun y => (cmp a y <=? 0)%Z && (cmp y a <=? 0)%Z) (x :: l).
Proof.
  induction l as [| y l IH]; [reflexivity |].
  cbn [insertSorted].
  destruct (Z.leb_spec (cmp x y) 0) as [Hxy | Hxy]; [reflexivity |].
  cbn [List.filter] in *. rewrite IH.
  destruct (Z.leb_spec (cmp a x) 0) as [Hax | Hax];
    destruct (Z.leb_spec (cmp x a) 0) as [Hxa | Hxa];
    destruct (Z.leb_spec (cmp a y) 0) as [Hay | Hay];
    destruct (Z.leb_spec (cmp y a) 0) as [Hya | Hya];
    cbn [andb]; try reflexivity.
  pose proof (cmp_trans x a y Hxa Hay). lia.
Qed.

Lemma arraySort_stable (a : A) (l : list A) :
  List.filter (fun y => (cmp a y <=? 0)%Z && (cmp y a <=? 0)%Z) (arraySort cmp l)
  = List.filter (fun y => (cmp a y <=? 0)%Z && (cmp y a <=? 0)%Z) l.
Proof.
  induction l as [| x l IH]; [reflexivity |].
  cbn [arraySort]. rewrite insertSorted_filter_equal.
  cbn [List.filter]. rewrite IH. reflexivity.
Qed.

End SortOrder.

Lemma readArray_alloc_old (h : ArrayStore) (a : list Contact) (r : ArrayRef) :
  (r < List.length h)%nat -> readArray (fst (allocArray h a)) r = readArray h r.
Proof. intros H. unfold readArray, allocArray. simpl. apply app_nth1. exact H. Qed.

Lemma readArray_alloc_new (h : ArrayStore) (a : list Contact) :
  readArray (fst (allocArray h a)) (snd (allocArray h a)) = a.
Proof.
  unfold readArray, allocArray. simpl.
  rewrite app_nth2, Nat.sub_diag by lia. reflexivity.
Qed.

Lemma readArray_write_same (h : ArrayStore) :
  forall r a, (r < List.length h)%nat -> readArray (writeArray h r a) r = a.
Proof.
  unfold readArray. induction h as [| x h IH]; intros r a H; simpl in H; [lia |].
  destruct r as [| r]; simpl; [reflexivity |]. apply IH. lia.
Qed.

Lemma readArray_write_other (h : ArrayStore) :
  forall r r' a, r <> r' -> readArray (writeArray h r a) r' = readArray h r'.
Proof.
  unfold readArray. induction h as [| x h IH]; intros r r' a H; simpl.
  - reflexivity.
  - destruct r as [| r], r' as [| r']; simpl; try reflexivity; try congruence.
    apply IH. congruence.
Qed.

(* --------------------------------------------------------------------- *)
(** ** The reference engine is an engine *)

Lemma codeUnitCompare_total (a : jsstring) :
  forall b, (codeUnitCompare a b <= 0)%Z \/ (codeUnitCompare b a <= 0)%Z.
Proof.
  induction a as [| x a IH]; intros [| y b]; simpl; try lia.
  destruct (N.ltb_spec x y), (N.ltb_spec y x); try lia. apply IH.
Qed.

Lemma codeUnitCompare_trans (a : jsstring) :
  forall b c,
    (codeUnitCompare a b <= 0)%Z -> (codeUnitCompare b c <= 0)%Z ->
    (codeUnitCompare a c <= 0)%Z.
Proof.
  induction a as [| x a IH]; intros [| y b] [| z c]; simpl; try lia.
  destruct (N.ltb_spec x y), (N.ltb_spec y x), (N.ltb_spec y z),
    (N.ltb_spec z y), (N.ltb_spec x z), (N.ltb_spec z x); try lia.
  apply IH.
Qed.

Lemma codeUnitCompare_consistent : consistentCompare codeUnitCompare.
Proof.
  split; [intros a b; apply codeUnitCompare_total | apply codeUnitCompare_trans].
Qed.

(* ===================================================================== *)
(** * Validator and escaping *)
(* ===================================================================== *)

(** C4. [isValidEmail] is a total function on strings; it answers true
    exactly for the strings made of one or more characters that are neither
    white space nor the at sign, then an at sign, then one or more such
    characters, then a dot, then one or more such characters.  It accepts
    a@b.co and rejects a@b, a b@c.d and the empty string. *)
Theorem isValidEmail_shape :
  (forall s : jsstring,
      isValidEmail s = true <->
      exists u v w,
        s = u ++ [64] ++ v ++ [46] ++ w
        /\ emailPart u /\ emailPart v /\ emailPart w)
  /\ isValidEmail (js "a@b.co") = true
  /\ isValidEmail (js "a@b") = false
  /\ isValidEmail (js "a b@c.d") = false
  /\ isValidEmail [] = false.
Proof.
  split.
  - intros s. unfold isValidEmail.
    rewrite anchoredTest_matches. apply emailRe_language.
  - repeat split; reflexivity.
Qed.

(** C10. What [escapeHtml] returns has no less-than sign, greater-than
    sign, double quote or apostrophe; it is the input with every ampersand,
    less-than sign, greater-than sign, double quote and apostrophe replaced
    by its entity and every other character kept, the ampersands of the
    entities themselves not being escaped again. *)
Theorem escapeHtml_no_delimiters :
  forall unsafe : jsstring,
    escapeHtml unsafe = flat_map htmlEntity unsafe
    /\ (forall c, In c (escapeHtml unsafe) ->
                  c <> 60 /\ c <> 62 /\ c <> 34 /\ c <> 39).
Proof.
  intros unsafe. split; [apply escapeHtml_charwise |].
  rewrite escapeHtml_charwise. intros c Hc.
  apply in_flat_map in Hc. destruct Hc as (x & _ & Hc).
  pose proof (htmlEntity_safe x) as Hsafe.
  rewrite Forall_forall in Hsafe. specialize (Hsafe c Hc).
  unfold isHtmlDelimiter in Hsafe.
  rewrite !orb_false_iff, !N.eqb_neq in Hsafe. tauto.
Qed.

(* ===================================================================== *)
(** * List filter and sort *)
(* ===================================================================== *)

Lemma filterContacts_ref_spec (toLowerCase : jsstring -> jsstring)
  (h : ArrayStore) (contacts : ArrayRef) (query : jsstring) :
  (contacts < List.length h)%nat ->
  let (h1, filtered) := filterContacts_ref toLowerCase h contacts query in
  readArray h1 filtered = filterContacts toLowerCase (readArray h contacts) query
  /\ (filtered < List.length h1)%nat
  /\ (List.length h <= List.length h1)%nat
  /\ (forall r, (r < List.length h)%nat -> readArray h1 r = readArray h r).
Proof.
  intros H. unfold filterContacts_ref, filterContacts.
  destruct (negb (truthy_string query)).
  - auto.
  - cbv zeta.
    pose proof (readArray_alloc_new h
      (List.filter (contactMatches toLowerCase (toLowerCase query))
         (readArray h contacts))) as Hnew.
    pose proof (fun r => readArray_alloc_old h
      (List.filter (contactMatches toLowerCase (toLowerCase query))
         (readArray h contacts)) r) as Hold.
    unfold allocArray in *. simpl in *.
    rewrite length_app. simpl. repeat split; auto; lia.
Qed.

Lemma sortedContacts_ref_spec (toLowerCase : jsstring -> jsstring)
  (localeCompare : jsstring -> jsstring -> Z)
  (h : ArrayStore) (contacts : ArrayRef) (query : jsstring) :
  (contacts < List.length h)%nat ->
  let (h', sorted) := sortedContacts_ref toLowerCase localeCompare h contacts query in
  readArray h' sorted
  = sortedContacts toLowerCase localeCompare (readArray h contacts) query
  /\ sorted <> contacts
  /\ (forall r, (r < List.length h)%nat -> readArray h' r = readArray h r).
Proof.
  intros H. unfold sortedContacts_ref, sortedContacts.
  pose proof (filterContacts_ref_spec toLowerCase h contacts query H) as Hf.
  destruct (filterContacts_ref toLowerCase h contacts query) as [h1 filtered].
  destruct Hf as (Hread & Hlt & Hlen & Hold).
  pose proof (readArray_alloc_new h1 (readArray h1 filtered)) as Hnew.
  pose proof (fun r => readArray_alloc_old h1 (readArray h1 filtered) r) as Hold1.
  unfold allocArray in *. simpl in Hnew, Hold1. cbv iota beta zeta.
  assert (Hin : (List.length h1 < List.length (h1 ++ [readArray h1 filtered]))%nat)
    by (rewrite length_app; simpl; lia).
  split; [| split].
  - rewrite readArray_write_same by exact Hin.
    rewrite Hnew, Hread. reflexivity.
  - lia.
  - intros r Hr. rewrite readArray_write_other by lia.
    rewrite Hold1 by lia. apply Hold. exact Hr.
Qed.

Lemma filterContacts_In (toLowerCase : jsstring -> jsstring)
  (cs : list Contact) (query : jsstring) (c : Contact) :
  In c (filterContacts toLowerCase cs query) <->
  In c cs /\ (query = [] \/ searchKeeps toLowerCase query c).
Proof.
  unfold filterContacts, searchKeeps.
  destruct query as [| q query]; simpl negb; cbv iota.
  - tauto.
  - cbv zeta. rewrite filter_In. unfold contactMatches.
    rewrite orb_true_iff, existsb_exists. split.
    + intros [Hc [H | (x & Hx & H)]]; (split; [exact Hc |]); right.
      * left. exact H.
      * apply in_map_iff in Hx. destruct Hx as (e & <- & He). eauto.
    + intros [Hc [H | [H | (e & He & H)]]]; [discriminate | |];
        (split; [exact Hc |]).
      * left. exact H.
      * right. exists (toLowerCase (email e)). split; [| exact H].
        apply (in_map (fun e0 => toLowerCase (email e0))). exact He.
Qed.

(** C5. Whatever array the variable [contacts] refers to and whatever the
    query, the contacts [renderContactsList] shows are exactly the contacts
    of the array whose lowercased [firstName lastName] text contains the
    lowercased query or one of whose lowercased e-mails does (all of them
    when the query is empty), each as often as in the array; they are in
    ascending order of [lastName] under [localeCompare]; and no array that
    existed before, the source array included, is changed.  With the
    contacts Zed and Adams the empty query shows Adams then Zed, and the
    query zed shows Zed alone. *)
Theorem visibleContacts_filtered_sorted
  (toLowerCase : jsstring -> jsstring)
  (localeCompare : jsstring -> jsstring -> Z)
  (Hcompare : consistentCompare localeCompare)
  (Hlower : forall s, isAscii s -> toLowerCase s = asciiLower s)
  (Horder : (localeCompare (js "Zed") (js "Adams") > 0)%Z) :
  (forall (h : ArrayStore) (contacts : ArrayRef) (query : jsstring),
      (contacts < List.length h)%nat ->
      let shown := visibleContacts toLowerCase localeCompare h contacts query in
      (forall c, In c shown <->
                 In c (readArray h contacts)
                 /\ (query = [] \/ searchKeeps toLowerCase query c))
      /\ Permutation shown
           (filterContacts toLowerCase (readArray h contacts) query)
      /\ StronglySorted
           (fun a b => (localeCompare (lastName a) (lastName b) <= 0)%Z) shown
      /\ shown
         = sortedContacts toLowerCase localeCompare (readArray h contacts) query
      /\ (forall r, (r < List.length h)%nat ->
            readArray
              (fst (sortedContacts_ref toLowerCase localeCompare h contacts query)) r
            = readArray h r))
  /\ visibleContacts toLowerCase localeCompare [[contactZed; contactAdams]] 0%nat []
     = [contactAdams; contactZed]
  /\ visibleContacts toLowerCase localeCompare [[contactZed; contactAdams]] 0%nat (js "zed")
     = [contactZed].
Proof.
  assert (Hshown : forall h contacts query,
             (contacts < List.length h)%nat ->
             visibleContacts toLowerCase localeCompare h contacts query
             = sortedContacts toLowerCase localeCompare (readArray h contacts) query).
  { intros h contacts query H. unfold visibleContacts.
    pose proof (sortedContacts_ref_spec toLowerCase localeCompare h contacts query H) as Hs.
    destruct (sortedContacts_ref toLowerCase localeCompare h contacts query).
    apply Hs. }
  split; [| split].
  - intros h contacts query H shown. subst shown.
    rewrite (Hshown _ _ _ H). unfold sortedContacts.
    split; [| split; [| split; [| split]]].
    + intros c. rewrite <- filterContacts_In. split; intros Hc.
      * eapply Permutation_in; [apply arraySort_perm | exact Hc].
      * eapply Permutation_in; [symmetry; apply arraySort_perm | exact Hc].
    + apply arraySort_perm.
    + destruct Hcompare as [Htotal Htrans].
      apply (arraySort_sorted Contact (byLastName localeCompare)).
      * intros a b. apply Htotal.
      * intros a b c. apply Htrans.
    + reflexivity.
    + intros r Hr.
      pose proof (sortedContacts_ref_spec toLowerCase localeCompare h contacts query H) as Hs.
      destruct (sortedContacts_ref toLowerCase localeCompare h contacts query).
      apply Hs. exact Hr.
  - rewrite Hshown by (simpl; lia).
    unfold sortedContacts, filterContacts, readArray. simpl.
    unfold byLastName. simpl lastName.
    destruct (Z.leb_spec (localeCompare (js "Zed") (js "Adams")) 0); [lia |].
    reflexivity.
  - rewrite Hshown by (simpl; lia).
    unfold sortedContacts, filterContacts, readArray, contactMatches. simpl.
    rewrite !Hlower by (repeat constructor).
    reflexivity.
Qed.

(** C5, instance.  The reference engine meets the assumptions; under it the query zed keeps
    Zed and drops Adams. *)
Lemma visibleContacts_filtered_sorted_witness :
  consistentCompare codeUnitCompare
  /\ (forall s, isAscii s -> asciiLower s = asciiLower s)
  /\ (codeUnitCompare (js "Zed") (js "Adams") > 0)%Z
  /\ visibleContacts asciiLower codeUnitCompare [[contactZed; contactAdams]] 0%nat (js "zed")
     = [contactZed].
Proof.
  split; [apply codeUnitCompare_consistent |].
  split; [reflexivity |].
  split; [reflexivity |].
  apply (visibleContacts_filtered_sorted asciiLower codeUnitCompare
           codeUnitCompare_consistent (fun s _ => eq_refl) eq_refl).
Defined.

(* ===================================================================== *)
(** * Sync controller *)
(* ===================================================================== *)

(** Proof steps for listeners: name the fields of the state, unfold the
    listener and the monad, split on the tests that remain. *)
Ltac run_listener :=
  unfold step, exec, handle, onDOMContentLoaded, addContactBtn_click,
    addEmailBtn_click, emailInput_input, emailInput_enter, emailDelete_click,
    deleteBtn_click, deleteContact, fetchContacts, fetchContacts_answered,
    selectContact, clearForm,
    renderContactsList, renderEmailList, addNewEmailInput, checkForChanges,
    confirm, alert, console_error, sendRequest, awaitJson, tryCatch, when,
    bind, gets, modify, throw, ret, truthy_id;
  cbn -[hasChanges sortedContacts].

Ltac split_ifs :=
  repeat match goal with
         | [ |- context [if ?b then _ else _] ] => destruct b; cbn -[hasChanges sortedContacts]
         end.

Ltac open_state st :=
  destruct st as [cs sel adding isNew list orig query items hidden first last
                    rows input disabled shown reqs dlgs errs].

(** Admissibility of a concrete sequence of events, by evaluation. *)
Ltac admissible_by_computation :=
  repeat match goal with
         | [ |- admissible _ _ _ _ (_ :: _) ] =>
             split; [| split]
         | [ |- admissible _ _ _ _ [] ] => exact I
         end;
  simpl;
  try exact I;
  try (split; reflexivity);
  try (split; [reflexivity | discriminate]);
  try (split; [reflexivity | repeat constructor]);
  try (left; reflexivity);
  try reflexivity;
  try (repeat constructor; simpl; intros H; repeat destruct H as [H | H];
       discriminate);
  try (intros H; repeat destruct H as [H | H]; discriminate H || exact H).

Section Sync.

Variable toLowerCase : jsstring -> jsstring.
Variable localeCompare : jsstring -> jsstring -> Z.

(** [renderContactsList] shows what the search and the sort derive from
    the array in [contacts]. *)
Lemma renderContactsList_array (st : State) (array : list Contact) :
  contacts st = ContactsArray array ->
  fst (renderContactsList toLowerCase localeCompare st) = Normal tt
  /\ contactsListItems (exec (renderContactsList toLowerCase localeCompare) st)
     = sortedContacts toLowerCase localeCompare array (searchQuery st)
  /\ contacts (exec (renderContactsList toLowerCase localeCompare) st)
     = ContactsArray array.
Proof.
  intros H. open_state st. simpl in H. subst cs.
  repeat split; reflexivity.
Qed.

(* --------------------------------------------------------------------- *)
(** ** [fetchContacts] *)

(** A refresh that is answered with an array replaces [contacts] and the
    rendered list and nothing else. *)
Lemma fetchContacts_array (st : State) (ok : bool) (cs : list Contact) :
  exec (fetchContacts toLowerCase localeCompare
          (GetResponse ok (JsonValue (ContactsArray cs)))) st
  = set_contactsListItems
      (sortedContacts toLowerCase localeCompare cs (searchQuery st))
      (set_contacts (ContactsArray cs)
         (set_requests (listRequest :: requests st) st)).
Proof. reflexivity. Qed.

(** A refresh whose request is rejected, or whose body is not JSON, is
    logged and changes nothing else. *)
Lemma fetchContacts_rejected (st : State) (message : jsstring) :
  exec (fetchContacts toLowerCase localeCompare (GetRejected message)) st
  = set_consoleErrors ((js "Error fetching contacts:", message) :: consoleErrors st)
      (set_requests (listRequest :: requests st) st).
Proof. reflexivity. Qed.

Lemma fetchContacts_unparsable (st : State) (ok : bool) (message : jsstring) :
  exec (fetchContacts toLowerCase localeCompare
          (GetResponse ok (JsonRejected message))) st
  = set_consoleErrors ((js "Error fetching contacts:", message) :: consoleErrors st)
      (set_requests (listRequest :: requests st) st).
Proof. reflexivity. Qed.

(** A refresh answered with a JSON body that is not an array: the body is
    assigned to [contacts] before rendering throws. *)
Lemma fetchContacts_object (st : State) (ok : bool) (error : option jsstring) :
  let st' :=
    exec (fetchContacts toLowerCase localeCompare
            (GetResponse ok (JsonValue (ContactsObject error)))) st in
  contacts st' = ContactsObject error
  /\ contactsListItems st' = []
  /\ exists message,
       consoleErrors st' = (js "Error fetching contacts:", message) :: consoleErrors st.
Proof.
  repeat split; try reflexivity. eexists. reflexivity.
Qed.

Lemma fetchContacts_never_throws (st : State) (refetch : GetResult) :
  fst (fetchContacts toLowerCase localeCompare refetch st) = Normal tt.
Proof.
  destruct refetch as [m | ok [m | [cs | e]]]; reflexivity.
Qed.

(** The Draft, the Snapshot and the Selection are out of reach of
    [fetchContacts], whatever the answer. *)
Lemma fetchContacts_session (st : State) (refetch : GetResult) :
  let st' := exec (fetchContacts toLowerCase localeCompare refetch) st in
  draftOf st' = draftOf st
  /\ snapshotOf st' = snapshotOf st
  /\ selectionOf st' = selectionOf st
  /\ dialogs st' = dialogs st
  /\ requests st' = listRequest :: requests st
  /\ contacts st' = refreshedContacts st refetch.
Proof.
  destruct refetch as [m | ok [m | [cs | e]]]; repeat split; reflexivity.
Qed.

(** The listener of [DOMContentLoaded] in the order things happen: the
    request is sent, the form is cleared and hidden, and then the answer is
    handled.  The state is the one of the listener as written. *)
Lemma onDOMContentLoaded_order (st : State) (result : GetResult) :
  exec (onDOMContentLoaded toLowerCase localeCompare result) st
  = exec (tryCatch (fetchContacts_answered toLowerCase localeCompare result)
            (fun error => console_error (js "Error fetching contacts:") error))
      (exec (bind clearForm (fun _ => modify (set_contactFormHidden true)))
         (exec (sendRequest GET ApiContacts None) st)).
Proof.
  open_state st.
  destruct result as [m | ok [m | [cs' | e]]];
    run_listener; split_ifs; reflexivity.
Qed.

(* --------------------------------------------------------------------- *)
(** ** Sessions *)

Lemma reachable_run_from (allowed : State -> Event -> Prop) (events : list Event) :
  forall st,
    reachable toLowerCase localeCompare allowed st ->
    admissible toLowerCase localeCompare allowed st events ->
    reachable toLowerCase localeCompare allowed
      (fold_left (step toLowerCase localeCompare) events st).
Proof.
  induction events as [| ev events IH]; intros st Hst Hadm; simpl.
  - exact Hst.
  - destruct Hadm as (Hen & Hal & Hrest).
    apply IH; [| exact Hrest].
    apply reachable_step; assumption.
Qed.

(** A session: the document is loaded and admissible events follow. *)
Lemma reachable_run (allowed : State -> Event -> Prop) (result : GetResult)
  (events : list Event) :
  allowed pageLoaded (DOMContentLoaded result) ->
  admissible toLowerCase localeCompare allowed
    (step toLowerCase localeCompare pageLoaded (DOMContentLoaded result)) events ->
  reachable toLowerCase localeCompare allowed
    (run toLowerCase localeCompare (DOMContentLoaded result :: events)).
Proof.
  intros Hload Hadm. unfold run. simpl.
  apply reachable_run_from; [| exact Hadm].
  apply reachable_loaded. exact Hload.
Qed.

End Sync.

(** C8.  The list is [contactZed]; the refresh is answered with status 500
    and the JSON body of an error.  The error object takes the place of the
    list in [contacts], the rendered list is emptied, and the [TypeError]
    of rendering is what gets logged: the former list is lost.  The same in
    a session: a contact is deleted and the refresh that follows is
    answered in that way. *)
Theorem fetchContacts_error_body_replaces_list :
  (let before :=
     run asciiLower codeUnitCompare
       [DOMContentLoaded (GetResponse true (JsonValue (ContactsArray [contactZed])))] in
   let after :=
     exec (fetchContacts asciiLower codeUnitCompare
             (GetResponse false (JsonValue (ContactsObject (Some (js "db down"))))))
       before in
   contacts before = ContactsArray [contactZed]
   /\ contactsListItems before = [contactZed]
   /\ contacts after = ContactsObject (Some (js "db down"))
   /\ contactsListItems after = []
   /\ consoleErrors after = [(js "Error fetching contacts:", notIterableMessage)]
   /\ dialogs after = [])
  /\
  (let before :=
     run asciiLower codeUnitCompare
       [DOMContentLoaded
          (GetResponse true (JsonValue (ContactsArray [contactZed; contactAdams])));
        ContactClick contactZed] in
   let after :=
     run asciiLower codeUnitCompare
       [DOMContentLoaded
          (GetResponse true (JsonValue (ContactsArray [contactZed; contactAdams])));
        ContactClick contactZed;
        DeleteClick true (DeleteResponse true (JsonValue None))
          (GetResponse false (JsonValue (ContactsObject (Some (js "db down")))))] in
   reachable asciiLower codeUnitCompare anyEvent after
   /\ contacts before = ContactsArray [contactZed; contactAdams]
   /\ contactsListItems before = [contactAdams; contactZed]
   /\ contacts after = ContactsObject (Some (js "db down"))
   /\ contactsListItems after = []).
Proof.
  split.
  - repeat split; reflexivity.
  - split; [apply reachable_run; [exact I |]; admissible_by_computation |].
    repeat split; reflexivity.
Qed.

(* ===================================================================== *)
(** * Change detector *)
(* ===================================================================== *)

Lemma unsavedEmail_pending (st : State) :
  unsavedEmail st = trim (pendingEmailText st).
Proof. unfold unsavedEmail, pendingEmailText. destruct (emailInputValue st); reflexivity. Qed.

Lemma hasUnsavedValidEmail_iff (st : State) :
  hasUnsavedValidEmail st = true <->
  trim (pendingEmailText st) <> []
  /\ isValidEmail (trim (pendingEmailText st)) = true.
Proof.
  unfold hasUnsavedValidEmail. rewrite unsavedEmail_pending.
  rewrite andb_true_iff, truthy_string_nonempty. reflexivity.
Qed.

Lemma length_positive_nonempty (A : Type) (l : list A) :
  Nat.ltb 0 (List.length l) = true <-> l <> [].
Proof. destruct l; cbv [Nat.ltb Nat.leb List.length]; split; congruence. Qed.

Lemma hasChanges_changeCondition (st : State) :
  hasChanges st = true <-> changeCondition (trim (pendingEmailText st)) st.
Proof.
  unfold hasChanges, changeCondition.
  destruct (originalContact st) as [original |].
  - rewrite !orb_true_iff, JSON_stringify_neq, !jsstring_eqb_neq,
      hasUnsavedValidEmail_iff. tauto.
  - rewrite !orb_true_iff, !truthy_string_nonempty, length_positive_nonempty,
      hasUnsavedValidEmail_iff. tauto.
Qed.

(** C1 (amended).  [checkForChanges] enables the save button exactly when
    [hasChanges] holds.  For a new contact (no snapshot) that is when the
    trimmed first name or the trimmed last name is not empty, or the
    committed list is not empty, or the trimmed pending e-mail text is not
    empty and valid.  For an existing contact that is when the trimmed
    first name or the trimmed last name differs from the snapshot's, or the
    e-mail strings of the committed list differ from the snapshot's as
    ordered lists, or the trimmed pending text is not empty and valid.
    When the names of the snapshot carry no surrounding white space,
    putting every field back to the snapshot's value gives false. *)
Theorem checkForChanges_detects_changes (st : State) :
  saveBtnDisabled (exec checkForChanges st) = negb (hasChanges st)
  /\ (hasChanges st = true <-> changeCondition (trim (pendingEmailText st)) st)
  /\ (forall original,
         originalContact st = Some original ->
         trimmed (original_firstName original) ->
         trimmed (original_lastName original) ->
         revertedTo original st ->
         hasChanges st = false).
Proof.
  split; [reflexivity |]. split; [apply hasChanges_changeCondition |].
  intros original Horig Hfirst Hlast (Ef & El & Ee & Ep).
  apply not_true_is_false. rewrite hasChanges_changeCondition.
  unfold changeCondition. rewrite Horig, Ef, El, Ee.
  unfold trimmed in Hfirst, Hlast. rewrite Hfirst, Hlast, Ep.
  intros [H | [H | [H | [_ H]]]]; congruence.
Qed.

(** C1, instance.  An existing contact is selected, its first name is edited and put
    back: no change is reported. *)
Lemma checkForChanges_detects_changes_witness :
  let c := {| contact_id := 7; firstName := js "Ann"; lastName := js "Lee";
              emails := [{| email_id := 1; email := js "ann@x.com" |}] |} in
  let st :=
    run asciiLower codeUnitCompare
      [DOMContentLoaded (GetResponse true (JsonValue (ContactsArray [c])));
       ContactClick c; FirstNameInput (js "Anna"); FirstNameInput (js "Ann")] in
  originalContact st = Some (snapshotOfContact c)
  /\ trimmed (js "Ann") /\ trimmed (js "Lee")
  /\ revertedTo (snapshotOfContact c) st
  /\ hasChanges st = false.
Proof.
  intros c st.
  assert (Horig : originalContact st = Some (snapshotOfContact c)) by reflexivity.
  assert (Hf : trimmed (js "Ann")) by reflexivity.
  assert (Hl : trimmed (js "Lee")) by reflexivity.
  assert (Hr : revertedTo (snapshotOfContact c) st) by (repeat split; reflexivity).
  split; [exact Horig |]. split; [exact Hf |]. split; [exact Hl |].
  split; [exact Hr |].
  exact (proj2 (proj2 (checkForChanges_detects_changes st))
           (snapshotOfContact c) Horig Hf Hl Hr).
Defined.

(** C1, as stated, fails in two places.  A pending text that is valid only
    once trimmed (here a no-break space before a@b.co) enables the save
    button of an otherwise empty new contact.  And an existing contact
    whose stored first name starts with a space reports a change as soon as
    it is selected, every field showing the snapshot's value. *)
Lemma checkForChanges_counterexample :
  (let st :=
     run asciiLower codeUnitCompare
       [DOMContentLoaded (GetResponse true (JsonValue (ContactsArray [])));
        AddContactClick; AddEmailClick; EmailInput (160 :: js "a@b.co")] in
   reachable asciiLower codeUnitCompare anyEvent st
   /\ hasChanges st = true /\ saveBtnDisabled st = false /\ ~ hasChanges_spec st)
  /\
  (let c := {| contact_id := 7; firstName := js " Ann"; lastName := js "Lee";
               emails := [] |} in
   let st :=
     run asciiLower codeUnitCompare
       [DOMContentLoaded (GetResponse true (JsonValue (ContactsArray [c])));
        ContactClick c] in
   reachable asciiLower codeUnitCompare anyEvent st
   /\ originalContact st = Some (snapshotOfContact c)
   /\ revertedTo (snapshotOfContact c) st
   /\ hasChanges st = true).
Proof.
  split.
  - split; [apply reachable_run; [exact I |]; admissible_by_computation |].
    split; [reflexivity |]. split; [reflexivity |].
    unfold hasChanges_spec, changeCondition. simpl.
    intros [H | [H | [H | [_ H]]]]; try (apply H; reflexivity).
    discriminate.
  - split; [apply reachable_run; [exact I |]; admissible_by_computation |].
    repeat split; reflexivity.
Qed.

(* ===================================================================== *)
(** * Save and delete *)
(* ===================================================================== *)

Section SaveDelete.

Variable toLowerCase : jsstring -> jsstring.
Variable localeCompare : jsstring -> jsstring -> Z.

(** The save listener commits the pending e-mail, reads the form and calls
    [saveContact]. *)
Lemma saveBtn_click_saveContact (st : State) (now : Z) (result : SaveResult)
  (refetch : GetResult) :
  step toLowerCase localeCompare st (SaveClick now result refetch)
  = exec (saveContact toLowerCase localeCompare
            (formData (commitPending now st)) result refetch)
      (commitPending now st).
Proof.
  unfold step, exec, handle, saveBtn_click, commitPending, bind, gets. simpl.
  destruct (emailInputValue st) as [value |]; [| reflexivity].
  destruct (emailToCommit value); reflexivity.
Qed.

Lemma commitPending_frame (st : State) (now : Z) :
  let st' := commitPending now st in
  contacts st' = contacts st
  /\ selectedContactId st' = selectedContactId st
  /\ originalContact st' = originalContact st
  /\ firstNameValue st' = firstNameValue st
  /\ lastNameValue st' = lastNameValue st
  /\ emailInputValue st' = emailInputValue st
  /\ requests st' = requests st
  /\ dialogs st' = dialogs st
  /\ searchQuery st' = searchQuery st.
Proof.
  unfold commitPending.
  destruct (emailInputValue st) as [value |] eqn:E;
    [destruct (emailToCommit value) |];
    simpl; rewrite ?E; repeat split; reflexivity.
Qed.

(** [saveContact] when the save does not go through. *)
Lemma saveContact_failed (st : State) (p : Payload) (result : SaveResult)
  (refetch : GetResult) :
  saveFailed result ->
  exists message,
    exec (saveContact toLowerCase localeCompare p result refetch) st
    = afterFailure (saveRequest p) (js "Error saving contact:") message
        (dialogs st) st.
Proof.
  destruct result as [m | [m | [e |]] | [m | saved]]; simpl; intros H;
    try contradiction; eexists; reflexivity.
Qed.

Lemma endsWithCheck_checkForChanges : endsWithCheck checkForChanges.
Proof. intros st _. reflexivity. Qed.

Lemma endsWithCheck_bind (A : Type) (m : M A) (k : A -> M unit) :
  (forall a, endsWithCheck (k a)) -> endsWithCheck (bind m k).
Proof.
  intros Hk st. unfold bind. destruct (m st) as [[a | e] st1].
  - apply Hk.
  - simpl. discriminate.
Qed.

Lemma selectContact_endsWithCheck (c : Contact) :
  endsWithCheck (selectContact toLowerCase localeCompare c).
Proof.
  unfold selectContact.
  repeat (apply endsWithCheck_bind; intros).
  apply endsWithCheck_checkForChanges.
Qed.

(** [selectContact] when [contacts] is an array. *)
Lemma selectContact_array (st : State) (c : Contact) (cs : list Contact) :
  contacts st = ContactsArray cs ->
  fst (selectContact toLowerCase localeCompare c st) = Normal tt
  /\ let st' := exec (selectContact toLowerCase localeCompare c) st in
     contacts st' = ContactsArray cs
     /\ contactsListItems st'
        = sortedContacts toLowerCase localeCompare cs (searchQuery st)
     /\ selectionOf st' = Some (contact_id c)
     /\ snapshotOf st' = Some (snapshotOfContact c)
     /\ draftOf st'
        = (stripNewlines (firstName c), stripNewlines (lastName c), emails c, None)
     /\ saveBtnDisabled st' = negb (hasChanges st')
     /\ requests st' = requests st
     /\ dialogs st' = dialogs st.
Proof.
  intros H.
  assert (Hn : fst (selectContact toLowerCase localeCompare c st) = Normal tt).
  { destruct st; simpl in H; subst. reflexivity. }
  split; [exact Hn |]. cbv zeta.
  assert (Hbtn := selectContact_endsWithCheck c st Hn).
  split; [| split; [| split; [| split; [| split; [| split; [exact Hbtn |]]]]]];
    clear Hbtn Hn; destruct st; simpl in H; subst;
    first [reflexivity | (split; reflexivity)].
Qed.

(** Once a contact is selected, a change is reported exactly when one of
    its names does not read the same in its field after trimming, that is
    when it carries surrounding white space or a line break. *)
Lemma hasChanges_selected (st : State) (c : Contact) :
  snapshotOf st = Some (snapshotOfContact c) ->
  draftOf st
  = (stripNewlines (firstName c), stripNewlines (lastName c), emails c, None) ->
  hasChanges st = true <->
  ~ (trimmed (firstName c) /\ singleLine (firstName c))
  \/ ~ (trimmed (lastName c) /\ singleLine (lastName c)).
Proof.
  unfold snapshotOf, draftOf. intros Hs Hd. injection Hd as Ef El Ee Ei.
  rewrite hasChanges_changeCondition. unfold changeCondition, pendingEmailText.
  rewrite Hs, Ef, El, Ee, Ei. simpl.
  rewrite <- !field_keeps_name. split.
  - intros [H | [H | [H | [H _]]]]; auto; congruence.
  - intros [H | H]; auto.
Qed.

(** [saveContact] when the save goes through: the request is sent, the
    list is fetched, and the contact of the response is selected if
    [contacts] then holds an array. *)
Lemma saveContact_ok_steps (st : State) (p : Payload) (saved : Contact)
  (refetch : GetResult) (cs : list Contact) :
  let sent := set_requests (saveRequest p :: requests st) st in
  let fetched := exec (fetchContacts toLowerCase localeCompare refetch) sent in
  contacts fetched = ContactsArray cs ->
  exec (saveContact toLowerCase localeCompare p (SaveOk (JsonValue saved)) refetch) st
  = exec (selectContact toLowerCase localeCompare saved) fetched.
Proof.
  intros sent fetched H.
  pose proof (fetchContacts_never_throws toLowerCase localeCompare sent refetch) as Hf.
  destruct (selectContact_array fetched saved cs H) as [Hs _].
  unfold exec.
  change (saveContact toLowerCase localeCompare p (SaveOk (JsonValue saved)) refetch st)
    with (tryCatch
            (bind (fetchContacts toLowerCase localeCompare refetch)
               (fun _ => selectContact toLowerCase localeCompare saved))
            (fun error =>
               bind (console_error (js "Error saving contact:") error)
                 (fun _ => alert error))
            sent).
  unfold tryCatch, bind. unfold fetched, exec in Hs |- *.
  destruct (fetchContacts toLowerCase localeCompare refetch sent) as [r f].
  cbn [fst snd] in Hf, Hs |- *. subst r.
  destruct (selectContact toLowerCase localeCompare saved f) as [r s].
  cbn [fst snd] in Hs |- *. subst r. reflexivity.
Qed.

Lemma saveContact_ok (st : State) (p : Payload) (saved : Contact)
  (refetch : GetResult) (cs : list Contact) :
  refreshedContacts st refetch = ContactsArray cs ->
  let st' := exec (saveContact toLowerCase localeCompare p
                     (SaveOk (JsonValue saved)) refetch) st in
  requests st' = listRequest :: saveRequest p :: requests st
  /\ contacts st' = ContactsArray cs
  /\ selectionOf st' = Some (contact_id saved)
  /\ snapshotOf st' = Some (snapshotOfContact saved)
  /\ draftOf st'
     = (stripNewlines (firstName saved), stripNewlines (lastName saved),
        emails saved, None)
  /\ saveBtnDisabled st' = negb (hasChanges st').
Proof.
  intros H st'.
  pose proof (fetchContacts_session toLowerCase localeCompare
                (set_requests (saveRequest p :: requests st) st) refetch)
    as (_ & _ & _ & _ & Hreq & Hcontacts).
  assert (Hcs : contacts
                  (exec (fetchContacts toLowerCase localeCompare refetch)
                     (set_requests (saveRequest p :: requests st) st))
                = ContactsArray cs).
  { rewrite Hcontacts. exact H. }
  subst st'. rewrite (saveContact_ok_steps st p saved refetch cs Hcs).
  destruct (selectContact_array _ saved cs Hcs)
    as (_ & Hc & _ & Hsel & Hsnap & Hdraft & Hbtn & Hr & _).
  rewrite Hr, Hreq. auto 10.
Qed.

(** [selectContact] sends nothing, whether it completes or throws. *)
Lemma selectContact_requests (st : State) (c : Contact) :
  requests (snd (selectContact toLowerCase localeCompare c st)) = requests st.
Proof.
  destruct st as [cs sel adding isNew list orig query items hidden first last
                    rows input disabled shown reqs dlgs errs].
  destruct cs; reflexivity.
Qed.

(** When the save goes through, the save request and then the list request
    are sent, whatever happens next. *)
Lemma saveContact_ok_requests (st : State) (p : Payload) (saved : Contact)
  (refetch : GetResult) :
  requests (exec (saveContact toLowerCase localeCompare p
                    (SaveOk (JsonValue saved)) refetch) st)
  = listRequest :: saveRequest p :: requests st.
Proof.
  pose proof (fetchContacts_never_throws toLowerCase localeCompare
                (set_requests (saveRequest p :: requests st) st) refetch) as Hf.
  pose proof (fetchContacts_session toLowerCase localeCompare
                (set_requests (saveRequest p :: requests st) st) refetch)
    as (_ & _ & _ & _ & Hreq & _).
  unfold exec in *.
  change (saveContact toLowerCase localeCompare p (SaveOk (JsonValue saved)) refetch st)
    with (tryCatch
            (bind (fetchContacts toLowerCase localeCompare refetch)
               (fun _ => selectContact toLowerCase localeCompare saved))
            (fun error =>
               bind (console_error (js "Error saving contact:") error)
                 (fun _ => alert error))
            (set_requests (saveRequest p :: requests st) st)).
  unfold tryCatch, bind.
  destruct (fetchContacts toLowerCase localeCompare refetch
              (set_requests (saveRequest p :: requests st) st)) as [r f].
  cbn [fst snd] in Hf, Hreq |- *. subst r.
  pose proof (selectContact_requests f saved) as Hs.
  destruct (selectContact toLowerCase localeCompare saved f) as [[u | e] s];
    cbn [fst snd] in Hs |- *.
  - rewrite Hs. exact Hreq.
  - change (requests s = listRequest :: saveRequest p :: requests st).
    rewrite Hs. exact Hreq.
Qed.

(** [clearForm] completes normally. *)
Lemma clearForm_never_throws (st : State) : fst (clearForm st) = Normal tt.
Proof.
  destruct st as [cs sel adding isNew list orig query items hidden first last
                    rows input disabled shown reqs dlgs errs].
  unfold clearForm, bind, gets, modify, when, renderEmailList, ret.
  cbn [fst snd selectedContactId firstNameValue lastNameValue].
  destruct (negb (negb (truthy_id sel) && jsstring_eqb first [] && jsstring_eqb last []));
    reflexivity.
Qed.

(** [deleteContact] by cases: the user declines; the request is rejected;
    the response is not [ok]; the response is [ok], and then the list is
    fetched and the form cleared. *)
Lemma deleteContact_declined (st : State) (id : Z) (result : DeleteResult)
  (refetch : GetResult) :
  exec (deleteContact toLowerCase localeCompare id false result refetch) st
  = set_dialogs
      (Confirm (js "Are you sure you want to delete this contact?") false
         :: dialogs st) st.
Proof. reflexivity. Qed.

Lemma deleteContact_rejected (st : State) (id : Z) (message : jsstring)
  (refetch : GetResult) :
  exec (deleteContact toLowerCase localeCompare id true
          (DeleteRejected message) refetch) st
  = afterFailure (deleteRequest id) (js "Error deleting contact:") message
      (Confirm (js "Are you sure you want to delete this contact?") true
         :: dialogs st) st.
Proof. reflexivity. Qed.

Lemma deleteContact_not_ok (st : State) (id : Z) (body : JsonResult (option jsstring))
  (refetch : GetResult) :
  exec (deleteContact toLowerCase localeCompare id true
          (DeleteResponse false body) refetch) st
  = afterFailure (deleteRequest id) (js "Error deleting contact:")
      (js "Failed to delete contact")
      (Confirm (js "Are you sure you want to delete this contact?") true
         :: dialogs st) st.
Proof. reflexivity. Qed.

Lemma deleteContact_ok_steps (st : State) (id : Z) (body : JsonResult (option jsstring))
  (refetch : GetResult) :
  let asked :=
    set_dialogs
      (Confirm (js "Are you sure you want to delete this contact?") true
         :: dialogs st) st in
  let sent := set_requests (deleteRequest id :: requests asked) asked in
  exec (deleteContact toLowerCase localeCompare id true
          (DeleteResponse true body) refetch) st
  = exec clearForm (exec (fetchContacts toLowerCase localeCompare refetch) sent).
Proof.
  intros asked sent.
  pose proof (fetchContacts_never_throws toLowerCase localeCompare sent refetch) as Hf.
  unfold exec.
  change (deleteContact toLowerCase localeCompare id true
            (DeleteResponse true body) refetch st)
    with (tryCatch
            (bind (fetchContacts toLowerCase localeCompare refetch)
               (fun _ => clearForm))
            (fun error =>
               bind (console_error (js "Error deleting contact:") error)
                 (fun _ => alert error))
            sent).
  unfold tryCatch, bind.
  destruct (fetchContacts toLowerCase localeCompare refetch sent) as [r f].
  cbn [fst snd] in Hf |- *. subst r.
  pose proof (clearForm_never_throws f) as Hc.
  destruct (clearForm f) as [r s]. cbn [fst snd] in Hc |- *. subst r. reflexivity.
Qed.

(** The delete listener calls [deleteContact] when the selected id is
    truthy and does nothing otherwise. *)
Lemma deleteBtn_click_deleteContact (st : State) (answer : bool)
  (result : DeleteResult) (refetch : GetResult) :
  step toLowerCase localeCompare st (DeleteClick answer result refetch)
  = match selectedContactId st with
    | Some id =>
        if truthy_id (Some id)
        then exec (deleteContact toLowerCase localeCompare id answer result refetch) st
        else st
    | None => st
    end.
Proof.
  unfold step, exec, handle, deleteBtn_click, bind, gets. cbn [fst snd].
  destruct (selectedContactId st) as [id |]; [| reflexivity].
  destruct (truthy_id (Some id)); reflexivity.
Qed.

(** C6 (amended).  A save click whose request comes back [ok] with a
    contact, the list request that follows leaving an array in [contacts]:
    the list request is sent after the save request, the contact the server
    returned is selected, the Snapshot holds its values, and the Draft
    holds its e-mails and its names as the two single-line name fields keep
    them, that is without their line breaks.  A change is then reported
    exactly when one of the returned names carries leading or trailing
    white space or a line break; so none is reported when the returned
    names have neither, as is the case when the server returns the names it
    was sent, the name fields holding no line break. *)
Theorem successful_save_reselects (st : State) (now : Z) (saved : Contact)
  (refetch : GetResult) (cs : list Contact) :
  refreshedContacts st refetch = ContactsArray cs ->
  let sent := formData (commitPending now st) in
  let st' := step toLowerCase localeCompare st
               (SaveClick now (SaveOk (JsonValue saved)) refetch) in
  requests st' = listRequest :: saveRequest sent :: requests st
  /\ contacts st' = ContactsArray cs
  /\ selectionOf st' = Some (contact_id saved)
  /\ snapshotOf st' = Some (snapshotOfContact saved)
  /\ draftOf st'
     = (stripNewlines (firstName saved), stripNewlines (lastName saved),
        emails saved, None)
  /\ saveBtnDisabled st' = negb (hasChanges st')
  /\ (hasChanges st' = true <->
      ~ (trimmed (firstName saved) /\ singleLine (firstName saved))
      \/ ~ (trimmed (lastName saved) /\ singleLine (lastName saved)))
  /\ (trimmed (firstName saved) -> singleLine (firstName saved) ->
      trimmed (lastName saved) -> singleLine (lastName saved) ->
      hasChanges st' = false)
  /\ (singleLine (firstNameValue st) -> singleLine (lastNameValue st) ->
      firstName saved = payload_firstName sent ->
      lastName saved = payload_lastName sent ->
      hasChanges st' = false).
Proof.
  intros Hcs. cbv zeta. rewrite saveBtn_click_saveContact.
  destruct (commitPending_frame st now)
    as (Hc & _ & _ & Hfn & Hln & _ & Hr & _ & _).
  assert (Hcs1 : refreshedContacts (commitPending now st) refetch = ContactsArray cs).
  { unfold refreshedContacts in *. rewrite Hc. exact Hcs. }
  pose proof (saveContact_ok (commitPending now st)
                (formData (commitPending now st)) saved refetch cs Hcs1) as H.
  cbv zeta in H. destruct H as (Hreq & Hcontacts & Hsel & Hsnap & Hdraft & Hbtn).
  rewrite Hr in Hreq.
  pose proof (hasChanges_selected _ saved Hsnap Hdraft) as Hiff.
  repeat (split; [assumption |]).
  split.
  - intros Hf1 Hf2 Hl1 Hl2. apply not_true_is_false. rewrite Hiff. tauto.
  - intros Hsf Hsl Hf Hl. apply not_true_is_false. rewrite Hiff.
    rewrite Hf, Hl. cbn [formData payload_firstName payload_lastName].
    rewrite Hfn, Hln. unfold trimmed. rewrite !trim_idempotent.
    pose proof (trim_singleLine _ Hsf). pose proof (trim_singleLine _ Hsl).
    tauto.
Qed.

End SaveDelete.

(** C6, instance.  The end-to-end example of the specification: a new contact Ann Lee with
    one e-mail is saved, the server answers with id 7. *)
Lemma successful_save_reselects_witness :
  let st :=
    run asciiLower codeUnitCompare
      [DOMContentLoaded (GetResponse true (JsonValue (ContactsArray [])));
       AddContactClick; FirstNameInput (js "Ann"); LastNameInput (js "Lee");
       AddEmailClick; EmailInput (js "ann@x.com"); EmailEnter 1000] in
  let saved :=
    {| contact_id := 7; firstName := js "Ann"; lastName := js "Lee";
       emails := [{| email_id := 1000; email := js "ann@x.com" |}] |} in
  let refetch := GetResponse true (JsonValue (ContactsArray [saved])) in
  let st' := step asciiLower codeUnitCompare st
               (SaveClick 2000 (SaveOk (JsonValue saved)) refetch) in
  refreshedContacts st refetch = ContactsArray [saved]
  /\ requests st'
     = [listRequest;
        {| request_method := POST; request_url := ApiContacts;
           request_body :=
             Some {| payload_id := None; payload_firstName := js "Ann";
                     payload_lastName := js "Lee";
                     payload_emails :=
                       [{| email_id := 1000; email := js "ann@x.com" |}] |} |};
        listRequest]
  /\ selectionOf st' = Some 7%Z
  /\ hasChanges st' = false.
Proof.
  intros st saved refetch st'.
  assert (H : refreshedContacts st refetch = ContactsArray [saved]) by reflexivity.
  pose proof (successful_save_reselects asciiLower codeUnitCompare
                st 2000 saved refetch [saved] H)
    as (Hreq & _ & Hsel & _ & _ & _ & _ & Htrim & _).
  split; [exact H |]. split; [exact Hreq |]. split; [exact Hsel |].
  apply Htrim; reflexivity.
Defined.

(** C6, as stated, fails when the server returns a name with surrounding
    white space: the save button is enabled right after the save.  It also
    fails when the server returns a name with a line break: the field
    holds the name without the line break, the Draft is not the returned
    value, and the save button is enabled. *)
Lemma successful_save_counterexample :
  (let saved :=
     {| contact_id := 7; firstName := js " Ann"; lastName := js "Lee";
        emails := [] |} in
   let st' :=
     run asciiLower codeUnitCompare
       [DOMContentLoaded (GetResponse true (JsonValue (ContactsArray [])));
        AddContactClick; FirstNameInput (js "Ann"); LastNameInput (js "Lee");
        SaveClick 2000 (SaveOk (JsonValue saved))
          (GetResponse true (JsonValue (ContactsArray [saved])))] in
   reachable asciiLower codeUnitCompare anyEvent st'
   /\ contacts st' = ContactsArray [saved]
   /\ selectionOf st' = Some 7%Z
   /\ snapshotOf st' = Some (snapshotOfContact saved)
   /\ draftOf st' = (js " Ann", js "Lee", [], None)
   /\ hasChanges st' = true
   /\ saveBtnDisabled st' = false)
  /\
  (let saved :=
     {| contact_id := 7; firstName := [65; 110; 10; 110]; lastName := js "Lee";
        emails := [] |} in
   let st' :=
     run asciiLower codeUnitCompare
       [DOMContentLoaded (GetResponse true (JsonValue (ContactsArray [])));
        AddContactClick; FirstNameInput (js "Ann"); LastNameInput (js "Lee");
        SaveClick 2000 (SaveOk (JsonValue saved))
          (GetResponse true (JsonValue (ContactsArray [saved])))] in
   reachable asciiLower codeUnitCompare anyEvent st'
   /\ trimmed (firstName saved)
   /\ snapshotOf st' = Some (snapshotOfContact saved)
   /\ draftOf st' = (js "Ann", js "Lee", [], None)
   /\ firstNameValue st' <> firstName saved
   /\ hasChanges st' = true
   /\ saveBtnDisabled st' = false).
Proof.
  split.
  - intros saved st'.
    split; [apply reachable_run; [exact I |]; admissible_by_computation |].
    repeat split; reflexivity.
  - intros saved st'.
    split; [apply reachable_run; [exact I |]; admissible_by_computation |].
    repeat split; try reflexivity. discriminate.
Qed.

Section Failures.

Variable toLowerCase : jsstring -> jsstring.
Variable localeCompare : jsstring -> jsstring -> Z.

Lemma deleteBtn_click_frame (st : State) (answer : bool) (result : DeleteResult)
  (refetch : GetResult) :
  answer = false \/ deleteFailed result ->
  let st' := step toLowerCase localeCompare st (DeleteClick answer result refetch) in
  draftOf st' = draftOf st
  /\ snapshotOf st' = snapshotOf st
  /\ selectionOf st' = selectionOf st
  /\ contacts st' = contacts st
  /\ contactsListItems st' = contactsListItems st
  /\ (answer = false -> requests st' = requests st).
Proof.
  intros H.
  destruct st as [cs sel adding isNew list orig query items hidden first last
                    rows input disabled shown reqs dlgs errs].
  destruct sel as [id |]; [| repeat split; reflexivity].
  unfold step, exec, handle, deleteBtn_click, bind, gets, truthy_id.
  cbn [fst snd selectedContactId].
  destruct (negb (Z.eqb id 0)); [| repeat split; reflexivity].
  destruct answer.
  - destruct H as [H | H]; [discriminate |].
    destruct result as [m | [|] body]; simpl in H; try contradiction;
      repeat split; try reflexivity; discriminate.
  - repeat split; reflexivity.
Qed.

(** C7 (amended).  When [saveContact] fails, the request is in the log, the
    error is logged and shown in one alert, and nothing else changes; the
    text is the [error] of the response when the response is not [ok] and
    carries a non-empty one, the fixed text when it carries none, and the
    message of the exception when the request is rejected or a body cannot
    be parsed.  When [deleteContact] fails after the user confirmed, the
    same holds with the fixed text of [deleteContact] for every response
    that is not [ok], whatever its body; when the user declines, no request
    is sent and only the answer is recorded.  Seen from the listeners: a
    failed save click leaves the Snapshot, the Selection and the contact
    list as they were and the Draft as the commit of the pending e-mail
    left it; a declined or failed delete click leaves Draft, Snapshot,
    Selection and contact list as they were. *)
Theorem failed_save_or_delete (st : State) :
  (forall p refetch message,
      exec (saveContact toLowerCase localeCompare p (SaveRejected message) refetch) st
      = afterFailure (saveRequest p) (js "Error saving contact:") message
          (dialogs st) st)
  /\ (forall p refetch message,
         exec (saveContact toLowerCase localeCompare p
                 (SaveNotOk (JsonRejected message)) refetch) st
         = afterFailure (saveRequest p) (js "Error saving contact:") message
             (dialogs st) st)
  /\ (forall p refetch message,
         exec (saveContact toLowerCase localeCompare p
                 (SaveOk (JsonRejected message)) refetch) st
         = afterFailure (saveRequest p) (js "Error saving contact:") message
             (dialogs st) st)
  /\ (forall p refetch error,
         error <> [] ->
         exec (saveContact toLowerCase localeCompare p
                 (SaveNotOk (JsonValue (Some error))) refetch) st
         = afterFailure (saveRequest p) (js "Error saving contact:") error
             (dialogs st) st)
  /\ (forall p refetch error,
         error = None \/ error = Some [] ->
         exec (saveContact toLowerCase localeCompare p
                 (SaveNotOk (JsonValue error)) refetch) st
         = afterFailure (saveRequest p) (js "Error saving contact:")
             (js "Failed to save contact") (dialogs st) st)
  /\ (forall id refetch message,
         exec (deleteContact toLowerCase localeCompare id true
                 (DeleteRejected message) refetch) st
         = afterFailure (deleteRequest id) (js "Error deleting contact:") message
             (Confirm (js "Are you sure you want to delete this contact?") true
                :: dialogs st) st)
  /\ (forall id refetch body,
         exec (deleteContact toLowerCase localeCompare id true
                 (DeleteResponse false body) refetch) st
         = afterFailure (deleteRequest id) (js "Error deleting contact:")
             (js "Failed to delete contact")
             (Confirm (js "Are you sure you want to delete this contact?") true
                :: dialogs st) st)
  /\ (forall id result refetch,
         exec (deleteContact toLowerCase localeCompare id false result refetch) st
         = set_dialogs
             (Confirm (js "Are you sure you want to delete this contact?") false
                :: dialogs st) st)
  /\ (forall now result refetch,
         saveFailed result ->
         let st' := step toLowerCase localeCompare st (SaveClick now result refetch) in
         snapshotOf st' = snapshotOf st
         /\ selectionOf st' = selectionOf st
         /\ contacts st' = contacts st
         /\ draftOf st' = draftOf (commitPending now st))
  /\ (forall answer result refetch,
         answer = false \/ deleteFailed result ->
         let st' := step toLowerCase localeCompare st
                      (DeleteClick answer result refetch) in
         draftOf st' = draftOf st
         /\ snapshotOf st' = snapshotOf st
         /\ selectionOf st' = selectionOf st
         /\ contacts st' = contacts st
         /\ (answer = false -> requests st' = requests st)).
Proof.
  split; [reflexivity |]. split; [reflexivity |]. split; [reflexivity |].
  split.
  { intros p refetch [| c error] H; [congruence | reflexivity]. }
  split.
  { intros p refetch error [-> | ->]; reflexivity. }
  split; [reflexivity |]. split; [reflexivity |]. split; [reflexivity |].
  split.
  - intros now result refetch H st'. subst st'.
    rewrite saveBtn_click_saveContact.
    destruct (saveContact_failed toLowerCase localeCompare (commitPending now st)
                (formData (commitPending now st)) result refetch H) as [m ->].
    destruct (commitPending_frame st now) as (Hc & Hs & Ho & _).
    unfold snapshotOf, selectionOf. simpl.
    rewrite Hc, Hs, Ho. repeat split; reflexivity.
  - intros answer result refetch H.
    pose proof (deleteBtn_click_frame st answer result refetch H) as Hf.
    cbv zeta in *. tauto.
Qed.

End Failures.

(** C7, instance.  A contact is selected and the delete request is answered with status
    500: the Draft, the Snapshot and the Selection stay. *)
Lemma failed_save_or_delete_witness :
  let st :=
    run asciiLower codeUnitCompare
      [DOMContentLoaded (GetResponse true (JsonValue (ContactsArray [contactZed])));
       ContactClick contactZed] in
  let result := DeleteResponse false (JsonRejected (js "Unexpected token")) in
  let st' := step asciiLower codeUnitCompare st
               (DeleteClick true result (GetRejected [])) in
  (true = false \/ deleteFailed result)
  /\ draftOf st' = draftOf st
  /\ snapshotOf st' = snapshotOf st
  /\ selectionOf st' = Some 1%Z.
Proof.
  intros st result st'.
  assert (H : true = false \/ deleteFailed result) by (right; exact I).
  destruct (failed_save_or_delete asciiLower codeUnitCompare st)
    as (_ & _ & _ & _ & _ & _ & _ & _ & _ & Hdelete).
  destruct (Hdelete true result (GetRejected []) H) as (Hd & Hs & Hsel & _).
  split; [exact H |]. split; [exact Hd |]. split; [exact Hs |]. exact Hsel.
Defined.

(** C7, as stated, fails in two places.  A failing delete whose response
    carries an error text shows the fixed text of [deleteContact], not the
    text of the server.  And a failed save leaves the valid pending e-mail
    committed in the Draft. *)
Lemma failed_save_or_delete_counterexample :
  (let st' :=
     run asciiLower codeUnitCompare
       [DOMContentLoaded (GetResponse true (JsonValue (ContactsArray [contactZed])));
        ContactClick contactZed;
        DeleteClick true
          (DeleteResponse false (JsonValue (Some (js "Contact is locked"))))
          (GetRejected [])] in
   reachable asciiLower codeUnitCompare anyEvent st'
   /\ dialogs st'
      = [Alert (js "Failed to delete contact");
         Confirm (js "Are you sure you want to delete this contact?") true]
   /\ js "Failed to delete contact" <> js "Contact is locked")
  /\
  (let st :=
     run asciiLower codeUnitCompare
       [DOMContentLoaded (GetResponse true (JsonValue (ContactsArray [contactZed])));
        ContactClick contactZed; AddEmailClick; EmailInput (js "zed@x.com")] in
   let st' :=
     run asciiLower codeUnitCompare
       [DOMContentLoaded (GetResponse true (JsonValue (ContactsArray [contactZed])));
        ContactClick contactZed; AddEmailClick; EmailInput (js "zed@x.com");
        SaveClick 2000 (SaveRejected (js "Failed to fetch")) (GetRejected [])] in
   reachable asciiLower codeUnitCompare anyEvent st'
   /\ currentEmailList st = []
   /\ currentEmailList st' = [{| email_id := 2000; email := js "zed@x.com" |}]
   /\ draftOf st' <> draftOf st
   /\ dialogs st' = [Alert (js "Failed to fetch")]).
Proof.
  split.
  - split; [apply reachable_run; [exact I |]; admissible_by_computation |].
    split; [reflexivity | discriminate].
  - split; [apply reachable_run; [exact I |]; admissible_by_computation |].
    repeat split; try reflexivity. discriminate.
Qed.

(* ===================================================================== *)
(** * The committed e-mail list *)
(* ===================================================================== *)

Section EmailList.

Variable toLowerCase : jsstring -> jsstring.
Variable localeCompare : jsstring -> jsstring -> Z.

Lemma clearForm_list (st : State) : currentEmailList (exec clearForm st) = [].
Proof. open_state st. run_listener. split_ifs; reflexivity. Qed.

(** What one event can do to the committed list. *)
Lemma currentEmailList_step (st : State) (ev : Event) :
  let l := currentEmailList st in
  let l' := currentEmailList (step toLowerCase localeCompare st ev) in
  l' = l
  \/ l' = []
  \/ (exists c, ev = ContactClick c /\ l' = emails c)
  \/ (exists index, ev = EmailDeleteClick index /\ l' = splice1 index l)
  \/ (exists now, (ev = EmailEnter now \/ exists r rf, ev = SaveClick now r rf)
                  /\ l' = currentEmailList (commitPending now st))
  \/ (exists now saved rf,
         ev = SaveClick now (SaveOk (JsonValue saved)) rf /\ l' = emails saved).
Proof.
  cbv zeta.
  destruct ev as [r | c | | | v | now | index | v | v | v | now r rf | a r rf | ].
  - right. left. open_state st.
    destruct r as [m | ok [m | [cs' | e]]]; run_listener; split_ifs; reflexivity.
  - open_state st. destruct cs as [cs | e].
    + right. right. left. exists c. split; reflexivity.
    + left. reflexivity.
  - right. left. open_state st. run_listener. split_ifs; reflexivity.
  - left. open_state st.
    destruct adding; [reflexivity |]. destruct isNew; [reflexivity |].
    destruct cs as [cs | e]; [| reflexivity].
    run_listener. destruct (find _ cs); reflexivity.
  - left. open_state st. destruct input; reflexivity.
  - right. right. right. right. left. exists now. split; [left; reflexivity |].
    open_state st. destruct input as [value |]; [| reflexivity].
    unfold commitPending. run_listener.
    destruct (emailToCommit value); [| reflexivity].
    destruct adding; reflexivity.
  - right. right. right. left. exists index. split; [reflexivity |].
    open_state st. destruct adding; reflexivity.
  - left. reflexivity.
  - left. reflexivity.
  - left. open_state st. destruct cs; reflexivity.
  - rewrite saveBtn_click_saveContact.
    destruct r as [m | [m | e] | [m | saved]];
      try (right; right; right; right; left; exists now;
           split; [right; eauto | reflexivity]).
    destruct (refreshedContacts (commitPending now st) rf) as [cs | e] eqn:E.
    + right. right. right. right. right. exists now, saved, rf.
      split; [reflexivity |].
      destruct (saveContact_ok toLowerCase localeCompare (commitPending now st)
                  (formData (commitPending now st)) saved rf cs E)
        as (_ & _ & _ & _ & Hd & _).
      unfold draftOf in Hd. injection Hd as _ _ Hl _. exact Hl.
    + right. right. right. right. left. exists now.
      split; [right; eauto |].
      generalize (formData (commitPending now st)). intros p.
      revert E. generalize (commitPending now st). intros st1 E.
      open_state st1.
      destruct rf as [m | ok [m | [cs' | e']]]; simpl in E;
        try discriminate; subst; reflexivity.
  - rewrite deleteBtn_click_deleteContact.
    destruct (selectedContactId st) as [id |]; [| left; reflexivity].
    destruct (truthy_id (Some id)); [| left; reflexivity].
    destruct a; [| left; rewrite deleteContact_declined; reflexivity].
    destruct r as [m | [|] body].
    + left. rewrite deleteContact_rejected. reflexivity.
    + right. left. rewrite deleteContact_ok_steps. apply clearForm_list.
    + left. rewrite deleteContact_not_ok. reflexivity.
  - right. left. apply clearForm_list.
Qed.

End EmailList.

Lemma removeEmail_spec_absent (localId : Z) (l : list EmailEntry) :
  ~ In localId (List.map email_id l) -> removeEmail_spec localId l = l.
Proof.
  unfold removeEmail_spec. induction l as [| x l IH]; simpl; intros H.
  - reflexivity.
  - destruct (Z.eqb_spec (email_id x) localId) as [E | E]; simpl.
    + exfalso. apply H. left. exact E.
    + rewrite IH; [reflexivity |]. intros Hin. apply H. right. exact Hin.
Qed.

(** With pairwise different local ids, removing the row at an index is
    removing the entry with the local id of that row. *)
Lemma splice1_removeEmail_spec (l : list EmailEntry) :
  forall index entry,
    NoDup (List.map email_id l) ->
    nth_error l index = Some entry ->
    splice1 index l = removeEmail_spec (email_id entry) l.
Proof.
  induction l as [| x l IH]; intros index entry Hnd Hnth.
  - destruct index; discriminate.
  - simpl in Hnd. inversion Hnd as [| ? ? Hx Hl]; subst.
    destruct index as [| i]; simpl in Hnth.
    + injection Hnth as ->. simpl.
      unfold removeEmail_spec. simpl. rewrite Z.eqb_refl. simpl.
      symmetry. apply removeEmail_spec_absent. exact Hx.
    + simpl. unfold removeEmail_spec. simpl.
      destruct (Z.eqb_spec (email_id x) (email_id entry)) as [E | E]; simpl.
      * exfalso. apply Hx. rewrite E. apply in_map.
        eapply nth_error_In. exact Hnth.
      * f_equal. apply IH; assumption.
Qed.

Lemma NoDup_push_fresh (l : list EmailEntry) (now : Z) (e : jsstring) :
  NoDup (List.map email_id l) ->
  ~ In now (List.map email_id l) ->
  NoDup (List.map email_id (push l {| email_id := now; email := e |})).
Proof.
  intros Hnd Hfresh. unfold push. rewrite map_app. simpl.
  apply NoDup_app.
  - exact Hnd.
  - constructor; [intros [] | constructor].
  - intros x Hx [<- | []]. contradiction.
Qed.

Lemma commitPending_NoDup (st : State) (now : Z) :
  NoDup (List.map email_id (currentEmailList st)) ->
  ~ In now (List.map email_id (currentEmailList st)) ->
  NoDup (List.map email_id (currentEmailList (commitPending now st))).
Proof.
  intros Hnd Hfresh. unfold commitPending.
  destruct (emailInputValue st) as [value |]; [| exact Hnd].
  destruct (emailToCommit value); [| exact Hnd].
  apply NoDup_push_fresh; assumption.
Qed.

Section Invariant.

Variable toLowerCase : jsstring -> jsstring.
Variable localeCompare : jsstring -> jsstring -> Z.

Lemma step_NoDup (st : State) (ev : Event) :
  freshIds st ev ->
  NoDup (List.map email_id (currentEmailList st)) ->
  NoDup (List.map email_id
           (currentEmailList (step toLowerCase localeCompare st ev))).
Proof.
  intros Hfresh Hnd.
  destruct (currentEmailList_step toLowerCase localeCompare st ev)
    as [E | [E | [(c & -> & E) | [(index & -> & E)
       | [(now & Hev & E) | (now & saved & rf & -> & E)]]]]];
    rewrite E.
  - exact Hnd.
  - constructor.
  - exact Hfresh.
  - rewrite splice1_map. apply splice1_NoDup. exact Hnd.
  - apply commitPending_NoDup; [exact Hnd |].
    destruct Hev as [-> | (r & rf & ->)]; simpl in Hfresh; tauto.
  - simpl in Hfresh. tauto.
Qed.

(** C9 (amended).  As long as the environment mints fresh local ids (no
    timestamp of a commit is the id of an entry already in the list, and
    the e-mail entries of every contact the server hands over have pairwise
    different ids), the committed e-mail list of every reachable state has
    no two entries with the same local id. *)
Theorem email_ids_distinct (st : State) :
  reachable toLowerCase localeCompare freshIds st ->
  NoDup (List.map email_id (currentEmailList st)).
Proof.
  induction 1 as [result _ | st ev _ IH _ Hfresh].
  - destruct result as [m | ok [m | [cs | e]]]; constructor.
  - apply step_NoDup; assumption.
Qed.

(* --------------------------------------------------------------------- *)
(** ** Adding and removing an e-mail *)

Lemma emailDelete_click_list (st : State) (index : nat) :
  currentEmailList (step toLowerCase localeCompare st (EmailDeleteClick index))
  = splice1 index (currentEmailList st).
Proof.
  destruct st as [cs sel adding isNew list orig query items hidden first last
                    rows input disabled shown reqs dlgs errs].
  destruct adding; reflexivity.
Qed.

(** C3 (amended).  Removal is by position: the delete button of a row
    removes the entry at the index of the row.  Committing an e-mail with
    Enter appends an entry, a row for it is rendered last, and the delete
    button of that row gives the former list back, same entries in the same
    order.  A removal at an index past the end of the list leaves the list
    as it is.  When the local ids of the list are pairwise different,
    removing a row is removing the entry that has the local id of that
    row. *)
Theorem email_add_remove_roundtrip (st : State) :
  (forall index,
      currentEmailList (step toLowerCase localeCompare st (EmailDeleteClick index))
      = splice1 index (currentEmailList st))
  /\ (forall now value e,
         emailInputValue st = Some value ->
         emailToCommit value = Some e ->
         let added := step toLowerCase localeCompare st (EmailEnter now) in
         let row := List.length (currentEmailList st) in
         currentEmailList added
         = currentEmailList st ++ [{| email_id := now; email := e |}]
         /\ List.length (emailRows added) = S row
         /\ nth_error (emailRows added) row = Some e
         /\ currentEmailList
              (step toLowerCase localeCompare added (EmailDeleteClick row))
            = currentEmailList st)
  /\ (forall index,
         (List.length (currentEmailList st) <= index)%nat ->
         currentEmailList (step toLowerCase localeCompare st (EmailDeleteClick index))
         = currentEmailList st)
  /\ (forall index entry,
         NoDup (List.map email_id (currentEmailList st)) ->
         nth_error (currentEmailList st) index = Some entry ->
         currentEmailList (step toLowerCase localeCompare st (EmailDeleteClick index))
         = removeEmail_spec (email_id entry) (currentEmailList st)).
Proof.
  split; [apply emailDelete_click_list |]. split; [| split].
  - intros now value e Hin Hcommit added row.
    assert (Hboth : currentEmailList added
                    = push (currentEmailList st) {| email_id := now; email := e |}
                    /\ emailRows added = List.map email (currentEmailList added)).
    { subst added row.
      destruct st as [cs sel adding isNew list orig query items hidden first last
                        rows input disabled shown reqs dlgs errs].
      simpl in Hin. subst input.
      unfold step, exec, handle, emailInput_enter, bind, gets.
      cbn [fst snd emailInputValue]. rewrite Hcommit.
      destruct adding; split; reflexivity. }
    destruct Hboth as [Hadded Hrows].
    split; [exact Hadded |]. split; [| split].
    + rewrite Hrows, Hadded. unfold push. rewrite length_map, length_app.
      simpl. subst row. lia.
    + rewrite Hrows, Hadded. unfold push. rewrite map_app.
      subst row. rewrite nth_error_app2; rewrite length_map; [| lia].
      rewrite Nat.sub_diag. reflexivity.
    + rewrite emailDelete_click_list, Hadded. subst row. apply splice1_push.
  - intros index H. rewrite emailDelete_click_list.
    apply splice1_out_of_range. exact H.
  - intros index entry Hnd Hnth. rewrite emailDelete_click_list.
    apply splice1_removeEmail_spec; assumption.
Qed.


End Invariant.

(* ===================================================================== *)
(** * Instances and counterexamples on concrete sessions *)
(* ===================================================================== *)

(** C9, instance.  Two e-mails are committed one after the other, the clock having moved
    on in between. *)
Lemma email_ids_distinct_witness :
  let st :=
    run asciiLower codeUnitCompare
      [DOMContentLoaded (GetResponse true (JsonValue (ContactsArray [contactZed])));
       ContactClick contactZed; AddEmailClick; EmailInput (js "a@b.co");
       EmailEnter 1000; EmailInput (js "c@d.ef"); EmailEnter 1001] in
  reachable asciiLower codeUnitCompare freshIds st
  /\ List.map email_id (currentEmailList st) = [1000%Z; 1001%Z]
  /\ NoDup (List.map email_id (currentEmailList st)).
Proof.
  intros st.
  assert (H : reachable asciiLower codeUnitCompare freshIds st).
  { apply reachable_run; [exact I |]. admissible_by_computation. }
  split; [exact H |]. split; [reflexivity |].
  exact (email_ids_distinct asciiLower codeUnitCompare st H).
Defined.

(** C9, as stated, fails when local ids are not fresh.  Two commits for
    which [Date.now()] gives the same value leave two entries with one id;
    so does selecting a contact whose e-mail entries come from the server
    with equal ids. *)
Lemma email_ids_distinct_counterexample :
  (let st :=
     run asciiLower codeUnitCompare
       [DOMContentLoaded (GetResponse true (JsonValue (ContactsArray [contactZed])));
        ContactClick contactZed; AddEmailClick; EmailInput (js "a@b.co");
        EmailEnter 1000; EmailInput (js "c@d.ef"); EmailEnter 1000] in
   reachable asciiLower codeUnitCompare anyEvent st
   /\ currentEmailList st
      = [{| email_id := 1000; email := js "a@b.co" |};
         {| email_id := 1000; email := js "c@d.ef" |}]
   /\ ~ NoDup (List.map email_id (currentEmailList st)))
  /\
  (let c := {| contact_id := 3; firstName := js "Ann"; lastName := js "Lee";
               emails := [{| email_id := 1; email := js "a@b.co" |};
                          {| email_id := 1; email := js "c@d.ef" |}] |} in
   let st :=
     run asciiLower codeUnitCompare
       [DOMContentLoaded (GetResponse true (JsonValue (ContactsArray [c])));
        ContactClick c] in
   reachable asciiLower codeUnitCompare anyEvent st
   /\ ~ NoDup (List.map email_id (currentEmailList st))).
Proof.
  split.
  - intros st. split; [| split].
    + apply reachable_run; [exact I |]. admissible_by_computation.
    + reflexivity.
    + simpl. intros H. inversion H as [| ? ? Hin _]. apply Hin. left. reflexivity.
  - intros c st. split.
    + apply reachable_run; [exact I |]. admissible_by_computation.
    + simpl. intros H. inversion H as [| ? ? Hin _]. apply Hin. left. reflexivity.
Qed.

(** C3, instance.  An e-mail is typed, committed with Enter and removed with the delete
    button of its row: the list is the one before. *)
Lemma email_add_remove_roundtrip_witness :
  let c := {| contact_id := 3; firstName := js "Ann"; lastName := js "Lee";
              emails := [{| email_id := 1; email := js "a@b.co" |}] |} in
  let st :=
    run asciiLower codeUnitCompare
      [DOMContentLoaded (GetResponse true (JsonValue (ContactsArray [c])));
       ContactClick c; AddEmailClick; EmailInput (js "x@y.z")] in
  let added := step asciiLower codeUnitCompare st (EmailEnter 1000) in
  emailInputValue st = Some (js "x@y.z")
  /\ emailToCommit (js "x@y.z") = Some (js "x@y.z")
  /\ currentEmailList added
     = [{| email_id := 1; email := js "a@b.co" |};
        {| email_id := 1000; email := js "x@y.z" |}]
  /\ currentEmailList (step asciiLower codeUnitCompare added (EmailDeleteClick 1))
     = [{| email_id := 1; email := js "a@b.co" |}].
Proof.
  intros c st added.
  assert (Hin : emailInputValue st = Some (js "x@y.z")) by reflexivity.
  assert (Hc : emailToCommit (js "x@y.z") = Some (js "x@y.z")) by reflexivity.
  destruct (email_add_remove_roundtrip asciiLower codeUnitCompare st)
    as (_ & Hround & _).
  destruct (Hround 1000%Z (js "x@y.z") (js "x@y.z") Hin Hc)
    as (Hadded & _ & _ & Hback).
  split; [exact Hin |]. split; [exact Hc |]. split; [exact Hadded |]. exact Hback.
Defined.

(** C3, as stated, fails: removal goes by the index of the row, not by the
    local id.  With two entries under one local id the delete button of the
    second row removes the second entry; removal of the entries matching
    that local id would remove both, and removal of the first match would
    remove the first. *)
Lemma email_add_remove_roundtrip_counterexample :
  let first := {| email_id := 7; email := js "a@x.y" |} in
  let second := {| email_id := 7; email := js "b@x.y" |} in
  let c := {| contact_id := 3; firstName := js "Ann"; lastName := js "Lee";
              emails := [first; second] |} in
  let st :=
    run asciiLower codeUnitCompare
      [DOMContentLoaded (GetResponse true (JsonValue (ContactsArray [c])));
       ContactClick c] in
  let st' :=
    run asciiLower codeUnitCompare
      [DOMContentLoaded (GetResponse true (JsonValue (ContactsArray [c])));
       ContactClick c; EmailDeleteClick 1] in
  reachable asciiLower codeUnitCompare anyEvent st'
  /\ nth_error (currentEmailList st) 1 = Some second
  /\ currentEmailList st' = [first]
  /\ removeEmail_spec (email_id second) (currentEmailList st) = []
  /\ currentEmailList st' <> removeEmail_spec (email_id second) (currentEmailList st)
  /\ currentEmailList st' <> [second].
Proof.
  intros first second c st st'.
  split; [apply reachable_run; [exact I |]; admissible_by_computation |].
  repeat split; try reflexivity; discriminate.
Qed.



(* ===================================================================== *)
(** * Further properties: clearing the form, loading, deleting *)
(* ===================================================================== *)

(** [clearForm] empties the form and touches nothing else; it hides the
    form unless nothing was selected and both name fields were empty. *)
Lemma clearForm_state (st : State) :
  let st' := exec clearForm st in
  formEmpty st'
  /\ isNewContact st' = false
  /\ sameListAndLog st st'
  /\ contactFormHidden st' = (if isAddingNew st then contactFormHidden st else true)
  /\ hasChanges st' = false.
Proof.
  open_state st. unfold isAddingNew, formEmpty, sameListAndLog.
  cbn [selectedContactId firstNameValue lastNameValue contactFormHidden].
  unfold exec, clearForm, renderEmailList, addNewEmailInput, when, bind, gets,
    modify, ret.
  cbn [fst snd selectedContactId firstNameValue lastNameValue isAddingEmail
       currentEmailList].
  destruct (negb (truthy_id sel) && jsstring_eqb first [] && jsstring_eqb last []);
    repeat split; reflexivity.
Qed.

Section FormAndList.

Variable toLowerCase : jsstring -> jsstring.
Variable localeCompare : jsstring -> jsstring -> Z.

(** X1.  When the document is loaded, whatever the answer to the list
    request: one GET request has been sent and no dialog shown, the form is
    empty and hidden, [contacts] holds the parsed body of the answer if
    there is one and the empty list otherwise, and the rendered list is the
    sorted view of it.  The save button is enabled.  Handling the answer
    after the form has been cleared and hidden, as the event loop does,
    gives the same state as the calls in the order of the source. *)
Theorem page_load_state (result : GetResult) :
  let st' := step toLowerCase localeCompare pageLoaded (DOMContentLoaded result) in
  formEmpty st'
  /\ contactFormHidden st' = true
  /\ isNewContact st' = false
  /\ saveBtnDisabled st' = false
  /\ requests st' = [listRequest]
  /\ dialogs st' = []
  /\ contacts st' = refreshedContacts pageLoaded result
  /\ listRendered toLowerCase localeCompare st'
  /\ st' = exec (tryCatch (fetchContacts_answered toLowerCase localeCompare result)
                   (fun error => console_error (js "Error fetching contacts:") error))
             (exec (bind clearForm (fun _ => modify (set_contactFormHidden true)))
                (exec (sendRequest GET ApiContacts None) pageLoaded)).
Proof.
  cbv zeta. unfold listRendered, formEmpty.
  repeat (split;
          [destruct result as [m | ok [m | [cs | e]]];
           cbn -[hasChanges sortedContacts]; repeat split; reflexivity |]).
  apply (onDOMContentLoaded_order toLowerCase localeCompare pageLoaded result).
Qed.

(** X2.  Cancel and Add contact empty the form: no selection, no snapshot,
    empty name fields, no committed e-mail, no row and no pending input.
    They leave the contact list, the search, the rendered list and the log
    as they are, and they do not recompute the save button: it keeps the
    state it had although no change is left to save.  Cancel hides the form
    unless nothing was selected and both name fields were empty, in which
    case the form stays as it was; Add contact shows the form. *)
Theorem cancel_and_add_contact_reset (st : State) :
  (let st' := step toLowerCase localeCompare st CancelClick in
   formEmpty st'
   /\ isNewContact st' = false
   /\ sameListAndLog st st'
   /\ hasChanges st' = false
   /\ contactFormHidden st'
      = (if isAddingNew st then contactFormHidden st else true))
  /\
  (let st' := step toLowerCase localeCompare st AddContactClick in
   formEmpty st'
   /\ isNewContact st' = true
   /\ sameListAndLog st st'
   /\ hasChanges st' = false
   /\ contactFormHidden st' = false).
Proof.
  split.
  - pose proof (clearForm_state st) as H. cbv zeta in *. tauto.
  - open_state st. unfold formEmpty, sameListAndLog.
    unfold step, exec, handle, addContactBtn_click, clearForm, renderEmailList,
      addNewEmailInput, when, bind, gets, modify, ret.
    cbn [fst snd selectedContactId firstNameValue lastNameValue isAddingEmail
         currentEmailList].
    destruct (negb (truthy_id sel) && jsstring_eqb first [] && jsstring_eqb last []);
      repeat split; reflexivity.
Qed.

(** X3.  On a fresh page Add contact opens a form whose save button is
    enabled although nothing was entered; a click on it sends a POST with
    empty names and no e-mail. *)
Theorem empty_contact_can_be_saved (loaded : GetResult) (now : Z)
  (result : SaveResult) (refetch : GetResult) :
  let st :=
    run toLowerCase localeCompare [DOMContentLoaded loaded; AddContactClick] in
  let st' := step toLowerCase localeCompare st (SaveClick now result refetch) in
  reachable toLowerCase localeCompare anyEvent st
  /\ enabled st (SaveClick now result refetch)
  /\ hasChanges st = false
  /\ In {| request_method := POST; request_url := ApiContacts;
           request_body :=
             Some {| payload_id := None; payload_firstName := [];
                     payload_lastName := []; payload_emails := [] |} |}
        (requests st').
Proof.
  cbv zeta.
  split; [| split; [| split]].
  - apply reachable_run; [exact I |]. split; [exact I |]. split; exact I.
  - destruct loaded as [m | ok [m | [cs | e]]]; split; reflexivity.
  - destruct loaded as [m | ok [m | [cs | e]]]; reflexivity.
  - rewrite saveBtn_click_saveContact.
    destruct result as [m | [m | e] | [m | saved]].
    + destruct loaded as [m' | ok [m' | [cs | e]]]; simpl; auto.
    + destruct loaded as [m' | ok [m' | [cs | e]]]; simpl; auto.
    + destruct loaded as [m' | ok [m' | [cs | e']]], e as [e |];
        try destruct e; simpl; auto.
    + destruct loaded as [m' | ok [m' | [cs | e]]]; simpl; auto.
    + rewrite saveContact_ok_requests. right.
      destruct loaded as [m' | ok [m' | [cs | e]]]; left; reflexivity.
Qed.

(** X4.  A confirmed delete whose response is [ok], for a selected contact
    with a truthy id: the DELETE request and then the list request are
    sent, the form is emptied and hidden, and [contacts] holds the parsed
    body of the list answer if there is one and its former value
    otherwise. *)
Theorem successful_delete_clears (st : State) (id : Z)
  (body : JsonResult (option jsstring)) (refetch : GetResult) :
  selectedContactId st = Some id ->
  id <> 0%Z ->
  let st' := step toLowerCase localeCompare st
               (DeleteClick true (DeleteResponse true body) refetch) in
  requests st' = listRequest :: deleteRequest id :: requests st
  /\ dialogs st'
     = Confirm (js "Are you sure you want to delete this contact?") true
         :: dialogs st
  /\ contacts st' = refreshedContacts st refetch
  /\ formEmpty st'
  /\ isNewContact st' = false
  /\ contactFormHidden st' = true.
Proof.
  intros Hsel Hid. cbv zeta.
  rewrite deleteBtn_click_deleteContact, Hsel.
  assert (Ht : truthy_id (Some id) = true)
    by (simpl; rewrite (proj2 (Z.eqb_neq id 0) Hid); reflexivity).
  rewrite Ht, deleteContact_ok_steps.
  set (sent := set_requests _ _).
  pose proof (fetchContacts_session toLowerCase localeCompare sent refetch)
    as (_ & _ & Hs & Hd & Hr & Hc).
  pose proof (clearForm_state
                (exec (fetchContacts toLowerCase localeCompare refetch) sent))
    as (He & Hn & Hl & Hh & _).
  destruct Hl as (Hc' & _ & _ & _ & Hr' & Hd' & _).
  assert (Hnew : isAddingNew
                   (exec (fetchContacts toLowerCase localeCompare refetch) sent)
                 = false).
  { unfold isAddingNew. unfold selectionOf in Hs. rewrite Hs.
    change (selectedContactId sent) with (selectedContactId st).
    rewrite Hsel, Ht. reflexivity. }
  rewrite Hnew in Hh.
  split; [rewrite Hr', Hr; reflexivity |].
  split; [rewrite Hd', Hd; reflexivity |].
  split; [rewrite Hc', Hc; destruct refetch as [m | ok [m | v]]; reflexivity |].
  auto.
Qed.

(** X5.  When the selected id is falsy (nothing is selected, or the
    selected contact has id 0), a click on Delete does nothing at all: no
    confirmation is asked and no request is sent. *)
Theorem delete_without_truthy_id_is_noop (st : State) (answer : bool)
  (result : DeleteResult) (refetch : GetResult) :
  truthy_id (selectedContactId st) = false ->
  step toLowerCase localeCompare st (DeleteClick answer result refetch) = st.
Proof.
  intros H. rewrite deleteBtn_click_deleteContact.
  destruct (selectedContactId st) as [id |]; [| reflexivity].
  rewrite H. reflexivity.
Qed.

End FormAndList.

(** X4, instance.  The contact Zed is selected and deleted. *)
Lemma successful_delete_clears_witness :
  let st :=
    run asciiLower codeUnitCompare
      [DOMContentLoaded (GetResponse true (JsonValue (ContactsArray [contactZed])));
       ContactClick contactZed] in
  let st' := step asciiLower codeUnitCompare st
               (DeleteClick true (DeleteResponse true (JsonValue None))
                  (GetResponse true (JsonValue (ContactsArray [])))) in
  selectedContactId st = Some 1%Z
  /\ 1%Z <> 0%Z
  /\ contacts st' = ContactsArray []
  /\ formEmpty st'
  /\ contactFormHidden st' = true.
Proof.
  intros st st'.
  assert (Hsel : selectedContactId st = Some 1%Z) by reflexivity.
  assert (Hid : 1%Z <> 0%Z) by discriminate.
  destruct (successful_delete_clears asciiLower codeUnitCompare st 1%Z
              (JsonValue None) (GetResponse true (JsonValue (ContactsArray [])))
              Hsel Hid) as (_ & _ & Hc & He & _ & Hh).
  split; [exact Hsel |]. split; [exact Hid |]. split; [exact Hc |].
  split; [exact He | exact Hh].
Defined.

(** X5, instance.  A contact whose id is 0 is selected: Delete does
    nothing. *)
Lemma delete_without_truthy_id_is_noop_witness :
  let c := {| contact_id := 0; firstName := js "Ann"; lastName := js "Lee";
              emails := [] |} in
  let st :=
    run asciiLower codeUnitCompare
      [DOMContentLoaded (GetResponse true (JsonValue (ContactsArray [c])));
       ContactClick c] in
  truthy_id (selectedContactId st) = false
  /\ step asciiLower codeUnitCompare st
       (DeleteClick true (DeleteResponse true (JsonValue None)) (GetRejected []))
     = st.
Proof.
  intros c st.
  assert (H : truthy_id (selectedContactId st) = false) by reflexivity.
  split; [exact H |].
  exact (delete_without_truthy_id_is_noop asciiLower codeUnitCompare st true
           (DeleteResponse true (JsonValue None)) (GetRejected []) H).
Defined.

(* ===================================================================== *)
(** * Invariants of the page *)
(* ===================================================================== *)

Section PageInvariants.

Variable toLowerCase : jsstring -> jsstring.
Variable localeCompare : jsstring -> jsstring -> Z.

(** [saveContact] when the save goes through, whatever the list request
    gives: the contact of the response is selected, and if that throws
    (the list answer left no array in [contacts]) the error is logged and
    shown. *)
Lemma saveContact_ok_unfold (st : State) (p : Payload) (saved : Contact)
  (refetch : GetResult) :
  let sent := set_requests (saveRequest p :: requests st) st in
  let fetched := exec (fetchContacts toLowerCase localeCompare refetch) sent in
  exec (saveContact toLowerCase localeCompare p (SaveOk (JsonValue saved)) refetch) st
  = match fst (selectContact toLowerCase localeCompare saved fetched) with
    | Normal _ => exec (selectContact toLowerCase localeCompare saved) fetched
    | Throw error =>
        reported (js "Error saving contact:") error
          (exec (selectContact toLowerCase localeCompare saved) fetched)
    end.
Proof.
  intros sent fetched.
  pose proof (fetchContacts_never_throws toLowerCase localeCompare sent refetch) as Hf.
  unfold fetched, exec.
  change (saveContact toLowerCase localeCompare p (SaveOk (JsonValue saved)) refetch st)
    with (tryCatch
            (bind (fetchContacts toLowerCase localeCompare refetch)
               (fun _ => selectContact toLowerCase localeCompare saved))
            (fun error =>
               bind (console_error (js "Error saving contact:") error)
                 (fun _ => alert error))
            sent).
  unfold tryCatch, bind.
  destruct (fetchContacts toLowerCase localeCompare refetch sent) as [r f].
  cbn [fst snd] in Hf |- *. subst r.
  destruct (selectContact toLowerCase localeCompare saved f) as [[u | e] s];
    reflexivity.
Qed.

(** The commit of the save listener changes the committed list at most. *)
Lemma commitPending_cases (st : State) (now : Z) :
  commitPending now st = st
  \/ exists e,
       commitPending now st
       = set_currentEmailList
           (push (currentEmailList st) {| email_id := now; email := e |}) st.
Proof.
  unfold commitPending.
  destruct (emailInputValue st) as [value |]; [| left; reflexivity].
  destruct (emailToCommit value) as [e |]; [| left; reflexivity].
  right. exists e. reflexivity.
Qed.

Lemma wellFormed_saveRequest (st : State) : wellFormedRequest (saveRequest (formData st)).
Proof.
  unfold wellFormedRequest, saveRequest, formData.
  cbn [request_method request_url request_body payload_id].
  destruct (selectedContactId st) as [id |]; [| simpl; eauto].
  unfold truthy_id. destruct (Z.eqb_spec id 0) as [E | E]; simpl.
  - eauto.
  - rewrite (proj2 (Z.eqb_neq id 0) E). simpl. exists id. eexists. eauto.
Qed.

Lemma wellFormed_deleteRequest (id : Z) :
  truthy_id (Some id) = true -> wellFormedRequest (deleteRequest id).
Proof.
  unfold truthy_id. intros H. apply negb_true_iff, Z.eqb_neq in H.
  exists id. auto.
Qed.

(** Save and Delete are made of a few kinds of state change; a property
    that each of them keeps holds after the two listeners, or held just
    before the [clearForm] that ends a delete. *)
Lemma save_delete_by_parts (P : State -> Prop) :
  (forall st now, P st -> P (commitPending now st)) ->
  (forall st r, wellFormedRequest r -> P st ->
                P (set_requests (r :: requests st) st)) ->
  (forall st d, P st -> P (set_dialogs (d :: dialogs st) st)) ->
  (forall st e, P st -> P (set_consoleErrors (e :: consoleErrors st) st)) ->
  (forall st r, P st -> P (exec (fetchContacts toLowerCase localeCompare r) st)) ->
  (forall st c, P st -> P (exec (selectContact toLowerCase localeCompare c) st)) ->
  forall st ev,
    isServerCall ev = true -> P st ->
    P (step toLowerCase localeCompare st ev)
    \/ exists s, P s /\ step toLowerCase localeCompare st ev = exec clearForm s.
Proof.
  intros Hcommit Hreq Hdlg Herr Hfetch Hsel st ev Hev HP.
  assert (Hfail : forall s r label m,
             wellFormedRequest r -> P s ->
             P (afterFailure r label m (dialogs s) s)).
  { intros s r label m Hw Hs.
    exact (Hdlg _ (Alert m) (Herr _ (label, m) (Hreq s r Hw Hs))). }
  destruct ev as [| | | | | | | | | | now result refetch | answer result refetch |];
    try discriminate Hev; clear Hev.
  - left. rewrite saveBtn_click_saveContact.
    pose proof (Hcommit st now HP) as H1.
    pose proof (wellFormed_saveRequest (commitPending now st)) as Hw.
    revert H1 Hw. generalize (formData (commitPending now st)).
    generalize (commitPending now st). clear HP. intros s p H1 Hw.
    destruct result as [m | body | [m | saved]].
    + destruct (saveContact_failed toLowerCase localeCompare s p
                  (SaveRejected m) refetch I) as [message ->].
      apply Hfail; assumption.
    + destruct (saveContact_failed toLowerCase localeCompare s p
                  (SaveNotOk body) refetch I) as [message ->].
      apply Hfail; assumption.
    + destruct (saveContact_failed toLowerCase localeCompare s p
                  (SaveOk (JsonRejected m)) refetch I) as [message ->].
      apply Hfail; assumption.
    + rewrite saveContact_ok_unfold. cbv zeta.
      pose proof (Hsel _ saved (Hfetch _ refetch (Hreq s _ Hw H1))) as H2.
      destruct (fst (selectContact toLowerCase localeCompare saved _)) as [u | e].
      * exact H2.
      * exact (Hdlg _ (Alert e) (Herr _ (js "Error saving contact:", e) H2)).
  - rewrite deleteBtn_click_deleteContact.
    destruct (selectedContactId st) as [id |]; [| left; exact HP].
    destruct (truthy_id (Some id)) eqn:Ht; [| left; exact HP].
    pose proof (wellFormed_deleteRequest id Ht) as Hw.
    destruct answer.
    + pose proof (Hdlg st
                    (Confirm (js "Are you sure you want to delete this contact?") true)
                    HP) as H1.
      destruct result as [m | [|] body].
      * left. rewrite deleteContact_rejected.
        exact (Hfail _ (deleteRequest id) (js "Error deleting contact:") m Hw H1).
      * right. rewrite deleteContact_ok_steps. cbv zeta.
        eexists. split; [| reflexivity].
        exact (Hfetch _ refetch (Hreq _ _ Hw H1)).
      * left. rewrite deleteContact_not_ok.
        exact (Hfail _ (deleteRequest id) (js "Error deleting contact:")
                 (js "Failed to delete contact") Hw H1).
    + left. rewrite deleteContact_declined. apply Hdlg. exact HP.
Qed.

Lemma exec_bind (A B : Type) (m : M A) (k : A -> M B) (a : A) (st : State) :
  fst (m st) = Normal a -> exec (bind m k) st = exec (k a) (exec m st).
Proof.
  unfold exec, bind. destruct (m st) as [r s]. cbn [fst snd]. intros ->.
  reflexivity.
Qed.

Lemma onDOMContentLoaded_steps (st : State) (result : GetResult) :
  step toLowerCase localeCompare st (DOMContentLoaded result)
  = set_contactFormHidden true
      (exec clearForm (exec (fetchContacts toLowerCase localeCompare result) st)).
Proof.
  unfold step, handle, onDOMContentLoaded.
  rewrite (exec_bind _ _ _ _ tt st
             (fetchContacts_never_throws toLowerCase localeCompare st result)).
  rewrite (exec_bind _ _ _ _ tt _ (clearForm_never_throws _)).
  reflexivity.
Qed.

Lemma addContactBtn_click_steps (st : State) :
  step toLowerCase localeCompare st AddContactClick
  = set_contactFormHidden false (set_isNewContact true (exec clearForm st)).
Proof.
  unfold step, handle, addContactBtn_click.
  rewrite (exec_bind _ _ _ _ tt st (clearForm_never_throws st)).
  reflexivity.
Qed.

(** What an edit of the Draft leaves alone. *)
Lemma draftEdit_frame (st : State) (ev : Event) :
  isDraftEdit ev = true ->
  let st' := step toLowerCase localeCompare st ev in
  contacts st' = contacts st
  /\ searchQuery st' = searchQuery st
  /\ contactsListItems st' = contactsListItems st
  /\ requests st' = requests st
  /\ dialogs st' = dialogs st
  /\ consoleErrors st' = consoleErrors st
  /\ selectedContactId st' = selectedContactId st
  /\ originalContact st' = originalContact st
  /\ isNewContact st' = isNewContact st
  /\ contactFormHidden st' = contactFormHidden st
  /\ deleteBtnShown st' = deleteBtnShown st.
Proof.
  intros H. open_state st.
  destruct ev as [| | | | v | now | index | v | v | | | |];
    try discriminate H; clear H; cbv zeta.
  - destruct adding; [repeat split; reflexivity |].
    destruct isNew; [repeat split; reflexivity |].
    destruct cs as [cs | e]; [| repeat split; reflexivity].
    run_listener. destruct (find _ cs); repeat split; reflexivity.
  - destruct input; repeat split; reflexivity.
  - destruct input as [value |]; [| repeat split; reflexivity].
    run_listener. destruct (emailToCommit value); [| repeat split; reflexivity].
    destruct adding; repeat split; reflexivity.
  - destruct adding; repeat split; reflexivity.
  - repeat split; reflexivity.
  - repeat split; reflexivity.
Qed.

(** A property that every kind of state change keeps is kept by every
    event. *)
Lemma step_by_parts (P : State -> Prop) :
  (forall st now, P st -> P (commitPending now st)) ->
  (forall st r, wellFormedRequest r -> P st ->
                P (set_requests (r :: requests st) st)) ->
  (forall st d, P st -> P (set_dialogs (d :: dialogs st) st)) ->
  (forall st e, P st -> P (set_consoleErrors (e :: consoleErrors st) st)) ->
  (forall st r, P st -> P (exec (fetchContacts toLowerCase localeCompare r) st)) ->
  (forall st c, P st -> P (exec (selectContact toLowerCase localeCompare c) st)) ->
  (forall st, P st -> P (exec clearForm st)) ->
  (forall st b, P st -> P (set_contactFormHidden b st)) ->
  (forall st b, P st -> P (set_isNewContact b st)) ->
  (forall st ev, isDraftEdit ev = true -> P st ->
                 P (step toLowerCase localeCompare st ev)) ->
  (forall st v, P st -> P (step toLowerCase localeCompare st (SearchInput v))) ->
  forall st ev, P st -> P (step toLowerCase localeCompare st ev).
Proof.
  intros Hcommit Hreq Hdlg Herr Hfetch Hsel Hclear Hhid Hnew Hedit Hsearch st ev HP.
  destruct ev as [r | c | | | v | now | index | v | v | v | now r rf | a r rf | ].
  - rewrite onDOMContentLoaded_steps. auto.
  - apply Hsel. exact HP.
  - rewrite addContactBtn_click_steps. auto.
  - apply Hedit; [reflexivity | exact HP].
  - apply Hedit; [reflexivity | exact HP].
  - apply Hedit; [reflexivity | exact HP].
  - apply Hedit; [reflexivity | exact HP].
  - apply Hedit; [reflexivity | exact HP].
  - apply Hedit; [reflexivity | exact HP].
  - apply Hsearch. exact HP.
  - destruct (save_delete_by_parts P Hcommit Hreq Hdlg Herr Hfetch Hsel st
                (SaveClick now r rf) eq_refl HP) as [H | (s & Hs & ->)]; auto.
  - destruct (save_delete_by_parts P Hcommit Hreq Hdlg Herr Hfetch Hsel st
                (DeleteClick a r rf) eq_refl HP) as [H | (s & Hs & ->)]; auto.
  - apply Hclear. exact HP.
Qed.

(* --------------------------------------------------------------------- *)
(** ** The rendered contact list *)

Lemma listRendered_same (st st' : State) :
  contacts st' = contacts st ->
  searchQuery st' = searchQuery st ->
  contactsListItems st' = contactsListItems st ->
  listRendered toLowerCase localeCompare st ->
  listRendered toLowerCase localeCompare st'.
Proof. unfold listRendered. intros -> -> ->. trivial. Qed.

Lemma step_listRendered (st : State) (ev : Event) :
  listRendered toLowerCase localeCompare st ->
  listRendered toLowerCase localeCompare (step toLowerCase localeCompare st ev).
Proof.
  apply step_by_parts; clear st ev.
  - intros st now. apply listRendered_same;
      destruct (commitPending_cases st now) as [-> | [e ->]]; reflexivity.
  - intros st r _. apply listRendered_same; reflexivity.
  - intros st d. apply listRendered_same; reflexivity.
  - intros st e. apply listRendered_same; reflexivity.
  - intros st r. open_state st. unfold listRendered.
    destruct r as [m | ok [m | [cs' | e]]]; intros H; try exact H; reflexivity.
  - intros st c _. open_state st. unfold listRendered.
    destruct cs as [cs | e]; reflexivity.
  - intros st. destruct (clearForm_state st) as (_ & _ & (Hc & Hq & Hi & _) & _).
    apply listRendered_same; assumption.
  - intros st b. apply listRendered_same; reflexivity.
  - intros st b. apply listRendered_same; reflexivity.
  - intros st ev Hev.
    destruct (draftEdit_frame st ev Hev) as (Hc & Hq & Hi & _).
    apply listRendered_same; assumption.
  - intros st v _. open_state st. unfold listRendered.
    destruct cs as [cs | e]; reflexivity.
Qed.

Lemma sortedContacts_In (cs : list Contact) (query : jsstring) (c : Contact) :
  In c (sortedContacts toLowerCase localeCompare cs query) -> In c cs.
Proof.
  unfold sortedContacts. intros H.
  apply (Permutation_in c (arraySort_perm Contact _ _)) in H.
  apply filterContacts_In in H. tauto.
Qed.

(* --------------------------------------------------------------------- *)
(** ** Rows and committed e-mails *)

Lemma rowsShowList_rendered (st : State) :
  emailRows st = List.map email (currentEmailList st) -> rowsShowList st.
Proof. intros H. exists []. rewrite H, app_nil_r. reflexivity. Qed.

Lemma draftEdit_rowsShowList (st : State) (ev : Event) :
  isDraftEdit ev = true ->
  rowsShowList st -> rowsShowList (step toLowerCase localeCompare st ev).
Proof.
  intros H HP. open_state st.
  destruct ev as [| | | | v | now | index | v | v | | | |];
    try discriminate H; clear H.
  - destruct adding; [exact HP |].
    destruct isNew; [apply rowsShowList_rendered; reflexivity |].
    destruct cs as [cs | e]; [| exact HP].
    run_listener.
    destruct (find _ cs); [apply rowsShowList_rendered; reflexivity | exact HP].
  - destruct input; exact HP.
  - destruct input as [value |]; [| exact HP].
    run_listener. destruct (emailToCommit value); [| exact HP].
    destruct adding; apply rowsShowList_rendered; reflexivity.
  - destruct adding; apply rowsShowList_rendered; reflexivity.
  - exact HP.
  - exact HP.
Qed.

Lemma step_rowsShowList (st : State) (ev : Event) :
  rowsShowList st -> rowsShowList (step toLowerCase localeCompare st ev).
Proof.
  apply step_by_parts; clear st ev.
  - intros st now [rest H].
    destruct (commitPending_cases st now) as [-> | [e ->]]; [exists rest; exact H |].
    exists (rest ++ [e]). open_state st. simpl in *. unfold push.
    rewrite map_app, H, <- app_assoc. reflexivity.
  - intros st r _ H. exact H.
  - intros st d H. exact H.
  - intros st e H. exact H.
  - intros st r H. open_state st.
    destruct r as [m | ok [m | [cs' | e]]]; exact H.
  - intros st c H. open_state st.
    destruct cs as [cs | e]; [apply rowsShowList_rendered; reflexivity | exact H].
  - intros st _. destruct (clearForm_state st) as ((_ & _ & _ & _ & Hl & Hr & _) & _).
    apply rowsShowList_rendered. rewrite Hl, Hr. reflexivity.
  - intros st b H. exact H.
  - intros st b H. exact H.
  - apply draftEdit_rowsShowList.
  - intros st v H. open_state st. destruct cs as [cs | e]; exact H.
Qed.

(* --------------------------------------------------------------------- *)
(** ** The requests *)

Lemma step_wellFormedRequests (st : State) (ev : Event) :
  Forall wellFormedRequest (requests st) ->
  Forall wellFormedRequest (requests (step toLowerCase localeCompare st ev)).
Proof.
  apply (step_by_parts (fun s => Forall wellFormedRequest (requests s)));
    clear st ev.
  - intros st now H.
    destruct (commitPending_cases st now) as [-> | [e ->]]; exact H.
  - intros st r Hr H. constructor; assumption.
  - intros st d H. exact H.
  - intros st e H. exact H.
  - intros st r H.
    destruct (fetchContacts_session toLowerCase localeCompare st r)
      as (_ & _ & _ & _ & -> & _).
    constructor; [split; reflexivity | exact H].
  - intros st c H. unfold exec. rewrite selectContact_requests. exact H.
  - intros st H. destruct (clearForm_state st) as (_ & _ & (_ & _ & _ & _ & -> & _) & _).
    exact H.
  - intros st b H. exact H.
  - intros st b H. exact H.
  - intros st ev Hev H.
    destruct (draftEdit_frame st ev Hev) as (_ & _ & _ & -> & _). exact H.
  - intros st v H. open_state st. destruct cs as [cs | e]; exact H.
Qed.

Lemma reachable_listRendered (allowed : State -> Event -> Prop) (st : State) :
  reachable toLowerCase localeCompare allowed st ->
  listRendered toLowerCase localeCompare st.
Proof.
  induction 1 as [result _ | st ev _ IH _ _].
  - apply step_listRendered. unfold listRendered. reflexivity.
  - apply step_listRendered. exact IH.
Qed.

(* --------------------------------------------------------------------- *)
(** ** Listeners cut at their [await]s *)

Lemma exec_tryCatch (m : M unit) (handler : jsstring -> M unit) (st : State) :
  exec (tryCatch m handler) st
  = match fst (m st) with
    | Normal _ => exec m st
    | Throw error => exec (handler error) (exec m st)
    end.
Proof.
  unfold exec, tryCatch. destruct (m st) as [[u | e] s]; reflexivity.
Qed.

(** [fetchContacts] is its start followed by its continuation. *)
Lemma fetchContacts_cut (st : State) (result : GetResult) :
  exec (fetchContacts toLowerCase localeCompare result) st
  = exec (fetchContacts_resume toLowerCase localeCompare result)
      (exec fetchContacts_start st).
Proof.
  open_state st. destruct result as [m | ok [m | [cs' | e]]]; reflexivity.
Qed.

(** The listener of [DOMContentLoaded] run to its end is its synchronous
    part followed by the continuation of [fetchContacts]. *)
Lemma onDOMContentLoaded_cut (st : State) (result : GetResult) :
  step toLowerCase localeCompare st (DOMContentLoaded result)
  = exec (fetchContacts_resume toLowerCase localeCompare result)
      (exec onDOMContentLoaded_start st).
Proof.
  unfold step, handle. rewrite onDOMContentLoaded_order.
  unfold onDOMContentLoaded_start, fetchContacts_start, fetchContacts_resume.
  rewrite (exec_bind _ _ (sendRequest GET ApiContacts None) _ tt st eq_refl).
  reflexivity.
Qed.

Lemma saveBtn_click_start_state (st : State) (now : Z) :
  exec (saveBtn_click_start now) st
  = set_requests
      (saveRequest (formData (commitPending now st))
         :: requests (commitPending now st))
      (commitPending now st).
Proof.
  unfold exec, saveBtn_click_start, commitPending, bind at 1, gets. cbn [fst snd].
  destruct (emailInputValue st) as [value |]; [| reflexivity].
  destruct (emailToCommit value); reflexivity.
Qed.

Lemma saveContact_resume_state (st : State) (result : SaveResult) :
  (exists message,
      exec (saveContact_resume result) st
      = reported (js "Error saving contact:") message st)
  \/ exec (saveContact_resume result) st
     = set_requests (listRequest :: requests st) st.
Proof.
  destruct result as [m | [m | [e |]] | [m | saved]];
    try (left; eexists; reflexivity).
  right. reflexivity.
Qed.

(** The save listener run to its end is its synchronous part followed by
    the continuations of [saveContact] and [fetchContacts]. *)
Lemma saveBtn_click_cut (st : State) (now : Z) (result : SaveResult)
  (refetch : GetResult) :
  step toLowerCase localeCompare st (SaveClick now result refetch)
  = let answered :=
      exec (saveContact_resume result) (exec (saveBtn_click_start now) st) in
    match result with
    | SaveOk (JsonValue saved) =>
        exec (saveContact_finish toLowerCase localeCompare saved)
          (exec (fetchContacts_resume toLowerCase localeCompare refetch) answered)
    | _ => answered
    end.
Proof.
  cbv zeta. rewrite saveBtn_click_saveContact, saveBtn_click_start_state.
  generalize (formData (commitPending now st)).
  generalize (commitPending now st). clear st. intros st p.
  destruct result as [m | [m | [e |]] | [m | saved]];
    try (open_state st; reflexivity).
  rewrite saveContact_ok_unfold. cbv zeta. rewrite fetchContacts_cut.
  unfold saveContact_finish. rewrite exec_tryCatch.
  change (exec (saveContact_resume (SaveOk (JsonValue saved)))
            (set_requests (saveRequest p :: requests st) st))
    with (exec fetchContacts_start
            (set_requests (saveRequest p :: requests st) st)).
  generalize (exec (fetchContacts_resume toLowerCase localeCompare refetch)
                (exec fetchContacts_start
                   (set_requests (saveRequest p :: requests st) st))).
  intros s.
  destruct (fst (selectContact toLowerCase localeCompare saved s));
    reflexivity.
Qed.

Lemma deleteBtn_click_start_state (st : State) (answer : bool) :
  exec (deleteBtn_click_start answer) st
  = match selectedContactId st with
    | Some id =>
        if truthy_id (Some id) then
          let asked :=
            set_dialogs
              (Confirm (js "Are you sure you want to delete this contact?") answer
                 :: dialogs st) st in
          if answer
          then set_requests (deleteRequest id :: requests asked) asked
          else asked
        else st
    | None => st
    end.
Proof.
  unfold exec, deleteBtn_click_start, bind at 1, gets. cbn [fst snd].
  destruct (selectedContactId st) as [id |]; [| reflexivity].
  destruct (truthy_id (Some id)); [| reflexivity].
  destruct answer; reflexivity.
Qed.

Lemma deleteContact_resume_state (st : State) (result : DeleteResult) :
  (exists message,
      exec (deleteContact_resume result) st
      = reported (js "Error deleting contact:") message st)
  \/ exec (deleteContact_resume result) st
     = set_requests (listRequest :: requests st) st.
Proof.
  destruct result as [m | [|] body]; try (left; eexists; reflexivity).
  right. reflexivity.
Qed.

Lemma deleteContact_finish_state (st : State) :
  exec deleteContact_finish st = exec clearForm st.
Proof.
  unfold deleteContact_finish. rewrite exec_tryCatch, clearForm_never_throws.
  reflexivity.
Qed.

(** The delete listener run to its end is its synchronous part followed,
    if the question was answered with yes, by the continuations of
    [deleteContact] and [fetchContacts]. *)
Lemma deleteBtn_click_cut (st : State) (answer : bool) (result : DeleteResult)
  (refetch : GetResult) :
  step toLowerCase localeCompare st (DeleteClick answer result refetch)
  = let started := exec (deleteBtn_click_start answer) st in
    if truthy_id (selectedContactId st) && answer then
      let answered := exec (deleteContact_resume result) started in
      match result with
      | DeleteResponse true _ =>
          exec deleteContact_finish
            (exec (fetchContacts_resume toLowerCase localeCompare refetch) answered)
      | _ => answered
      end
    else started.
Proof.
  cbv zeta. rewrite deleteBtn_click_deleteContact, deleteBtn_click_start_state.
  destruct (selectedContactId st) as [id |]; [| reflexivity].
  destruct (truthy_id (Some id)); [| reflexivity].
  destruct answer; cbn [andb]; [| apply deleteContact_declined].
  destruct result as [m | [|] body].
  - rewrite deleteContact_rejected. open_state st. reflexivity.
  - rewrite deleteContact_ok_steps, deleteContact_finish_state, fetchContacts_cut.
    reflexivity.
  - rewrite deleteContact_not_ok. open_state st. reflexivity.
Qed.

(** A session in which no event arrives during an [await] is a session
    of the page. *)
Lemma reachable_reachableAsync (allowed : State -> Event -> Prop) (st : State) :
  reachable toLowerCase localeCompare allowed st ->
  reachableAsync toLowerCase localeCompare st.
Proof.
  induction 1 as [result _ | st ev _ IH Hen _].
  - rewrite onDOMContentLoaded_cut.
    apply async_list_answered, async_loaded.
  - destruct ev as [r | c | | | v | now | index | v | v | v | now r rf | a r rf | ];
      try (apply async_event; [exact IH | exact Hen | exact I]).
    + destruct Hen as [Hh Hb]. rewrite saveBtn_click_cut. cbv zeta.
      pose proof (async_save_answered toLowerCase localeCompare _ r
                    (async_save_click toLowerCase localeCompare st now IH Hh Hb))
        as Ha.
      destruct r as [m | body | [m | saved]]; try exact Ha.
      apply async_save_finished, async_list_answered, Ha.
    + destruct Hen as [Hh Hb]. rewrite deleteBtn_click_cut. cbv zeta.
      pose proof (async_delete_click toLowerCase localeCompare st a IH Hh Hb)
        as Hs.
      destruct (truthy_id (selectedContactId st) && a); [| exact Hs].
      pose proof (async_delete_answered toLowerCase localeCompare _ r Hs) as Ha.
      destruct r as [m | [|] body]; try exact Ha.
      apply async_delete_finished, async_list_answered, Ha.
Qed.

(** A property that the synchronous listeners and every kind of state
    change of the continuations keep holds in every state of the page,
    whatever the order in which answers and events arrive. *)
Lemma async_by_parts (P : State -> Prop) :
  P (exec onDOMContentLoaded_start pageLoaded) ->
  (forall st ev, enabled st ev -> isServerCall ev = false -> P st ->
                 P (step toLowerCase localeCompare st ev)) ->
  (forall st now, contactFormHidden st = false -> P st ->
                  P (commitPending now st)) ->
  (forall st r, wellFormedRequest r -> P st ->
                P (set_requests (r :: requests st) st)) ->
  (forall st d, P st -> P (set_dialogs (d :: dialogs st) st)) ->
  (forall st e, P st -> P (set_consoleErrors (e :: consoleErrors st) st)) ->
  (forall st r, P st ->
                P (exec (fetchContacts_resume toLowerCase localeCompare r) st)) ->
  (forall st c, P st -> P (exec (selectContact toLowerCase localeCompare c) st)) ->
  (forall st, P st -> P (exec clearForm st)) ->
  forall st, reachableAsync toLowerCase localeCompare st -> P st.
Proof.
  intros Hinit Hev Hcommit Hreq Hdlg Herr Hfetch Hsel Hclear st H.
  assert (Hrep : forall s label m, P s -> P (reported label m s)).
  { intros s label m Hs. exact (Hdlg _ (Alert m) (Herr _ (label, m) Hs)). }
  assert (Hlist : wellFormedRequest listRequest) by (split; reflexivity).
  induction H as [| st ev _ IH Hen Hsync | st now _ IH Hh Hb | st answer _ IH Hh Hb
                  | st result _ IH | st result _ IH | st saved _ IH
                  | st result _ IH | st _ IH].
  - exact Hinit.
  - apply Hev; [exact Hen | destruct ev; try reflexivity; contradiction | exact IH].
  - rewrite saveBtn_click_start_state.
    apply Hreq; [apply wellFormed_saveRequest |]. apply Hcommit; assumption.
  - rewrite deleteBtn_click_start_state.
    destruct (selectedContactId st) as [id |]; [| exact IH].
    destruct (truthy_id (Some id)) eqn:Ht; [| exact IH]. cbv zeta.
    pose proof (Hdlg st
                  (Confirm (js "Are you sure you want to delete this contact?")
                     answer) IH) as H1.
    destruct answer; [| exact H1].
    apply Hreq; [apply wellFormed_deleteRequest, Ht | exact H1].
  - apply Hfetch, IH.
  - destruct (saveContact_resume_state st result) as [[m ->] | ->].
    + apply Hrep, IH.
    + apply Hreq; assumption.
  - unfold saveContact_finish. rewrite exec_tryCatch.
    pose proof (Hsel st saved IH) as H1.
    destruct (fst (selectContact toLowerCase localeCompare saved st)) as [u | e].
    + exact H1.
    + exact (Hrep _ (js "Error saving contact:") e H1).
  - destruct (deleteContact_resume_state st result) as [[m ->] | ->].
    + apply Hrep, IH.
    + apply Hreq; assumption.
  - rewrite deleteContact_finish_state. apply Hclear, IH.
Qed.

(* --------------------------------------------------------------------- *)
(** ** Selection and snapshot *)

Lemma fetchContacts_resume_form (st : State) (result : GetResult) :
  let st' := exec (fetchContacts_resume toLowerCase localeCompare result) st in
  draftOf st' = draftOf st
  /\ snapshotOf st' = snapshotOf st
  /\ selectionOf st' = selectionOf st
  /\ emailRows st' = emailRows st
  /\ isAddingEmail st' = isAddingEmail st
  /\ contactFormHidden st' = contactFormHidden st.
Proof.
  open_state st.
  destruct result as [m | ok [m | [cs' | e]]]; repeat split; reflexivity.
Qed.

Lemma step_coupled (st : State) (ev : Event) :
  (selectedContactId st = None <-> originalContact st = None) ->
  let st' := step toLowerCase localeCompare st ev in
  selectedContactId st' = None <-> originalContact st' = None.
Proof.
  cbv zeta.
  apply (step_by_parts
           (fun s => selectedContactId s = None <-> originalContact s = None));
    clear st ev.
  - intros st now H.
    destruct (commitPending_cases st now) as [-> | [e ->]]; exact H.
  - intros st r _ H. exact H.
  - intros st d H. exact H.
  - intros st e H. exact H.
  - intros st r H.
    destruct (fetchContacts_session toLowerCase localeCompare st r)
      as (_ & Ho & Hs & _).
    unfold snapshotOf, selectionOf in *. rewrite Ho, Hs. exact H.
  - intros st c _. open_state st.
    destruct cs as [cs | e]; split; discriminate.
  - intros st _. destruct (clearForm_state st) as ((Hs & Ho & _) & _).
    rewrite Hs, Ho. tauto.
  - intros st b H. exact H.
  - intros st b H. exact H.
  - intros st ev Hev H.
    destruct (draftEdit_frame st ev Hev) as (_ & _ & _ & _ & _ & _ & Hs & Ho & _).
    rewrite Hs, Ho. exact H.
  - intros st v H. open_state st. destruct cs as [cs | e]; exact H.
Qed.

(* --------------------------------------------------------------------- *)
(** ** The hidden form *)

Lemma formEmpty_draftEmpty (st : State) : formEmpty st -> draftEmpty st.
Proof. unfold formEmpty, draftEmpty. tauto. Qed.

Lemma step_hiddenDraftEmpty (st : State) (ev : Event) :
  enabled st ev ->
  isServerCall ev = false ->
  (contactFormHidden st = true -> draftEmpty st) ->
  contactFormHidden (step toLowerCase localeCompare st ev) = true ->
  draftEmpty (step toLowerCase localeCompare st ev).
Proof.
  intros Hen Hsync Hinv.
  destruct ev as [r | c | | | v | now | index | v | v | v | now r rf | a r rf | ];
    try discriminate Hsync; clear Hsync.
  - contradiction.
  - clear Hen. open_state st.
    destruct cs as [cs | e]; [intros H; discriminate H | exact Hinv].
  - rewrite addContactBtn_click_steps. intros H. discriminate H.
  - simpl in Hen. destruct (draftEdit_frame st AddEmailClick eq_refl)
      as (_ & _ & _ & _ & _ & _ & _ & _ & _ & -> & _). congruence.
  - destruct Hen as [Hen _]. destruct (draftEdit_frame st (EmailInput v) eq_refl)
      as (_ & _ & _ & _ & _ & _ & _ & _ & _ & -> & _). congruence.
  - destruct Hen as [Hen _]. destruct (draftEdit_frame st (EmailEnter now) eq_refl)
      as (_ & _ & _ & _ & _ & _ & _ & _ & _ & -> & _). congruence.
  - destruct Hen as [Hen _].
    destruct (draftEdit_frame st (EmailDeleteClick index) eq_refl)
      as (_ & _ & _ & _ & _ & _ & _ & _ & _ & -> & _). congruence.
  - simpl in Hen. destruct (draftEdit_frame st (FirstNameInput v) eq_refl)
      as (_ & _ & _ & _ & _ & _ & _ & _ & _ & -> & _). congruence.
  - simpl in Hen. destruct (draftEdit_frame st (LastNameInput v) eq_refl)
      as (_ & _ & _ & _ & _ & _ & _ & _ & _ & -> & _). congruence.
  - clear Hen. open_state st. destruct cs as [cs | e]; exact Hinv.
  - intros _. apply formEmpty_draftEmpty, clearForm_state.
Qed.

End PageInvariants.

(* ===================================================================== *)
(** * What holds in every state of a session *)
(* ===================================================================== *)

Section Sessions.

Variable toLowerCase : jsstring -> jsstring.
Variable localeCompare : jsstring -> jsstring -> Z.
Variable allowed : State -> Event -> Prop.

(** X6.  In every state of a session the rendered contact list is what
    the search and the sort derive from [contacts] under the current
    query, and it is empty when [contacts] does not hold an array.  So a
    contact that can be clicked is an element of the array in [contacts]
    and passes the current search. *)
Theorem rendered_list_follows_contacts (st : State) :
  reachable toLowerCase localeCompare allowed st ->
  listRendered toLowerCase localeCompare st
  /\ forall c,
       enabled st (ContactClick c) ->
       exists cs,
         contacts st = ContactsArray cs
         /\ In c cs
         /\ (searchQuery st = [] \/ searchKeeps toLowerCase (searchQuery st) c).
Proof.
  intros H.
  pose proof (reachable_listRendered toLowerCase localeCompare allowed st H) as Hl.
  split; [exact Hl |].
  intros c Hen. simpl in Hen. unfold listRendered in Hl.
  destruct (contacts st) as [cs | e].
  - exists cs. split; [reflexivity |].
    rewrite Hl in Hen. unfold sortedContacts in Hen.
    apply (Permutation_in c (arraySort_perm Contact _ _)) in Hen.
    apply filterContacts_In in Hen. exact Hen.
  - rewrite Hl in Hen. contradiction.
Qed.

(** X8.  In every state of a session the rows of the e-mail list show the
    first committed e-mails in order: row [index] shows the e-mail of the
    entry at [index], which is the entry its delete button removes.  (The
    list can be longer than the rows: the save listener commits the
    pending e-mail without rendering.) *)
Theorem rows_show_committed_emails (st : State) :
  reachable toLowerCase localeCompare allowed st ->
  rowsShowList st
  /\ (List.length (emailRows st) <= List.length (currentEmailList st))%nat
  /\ forall index text,
       nth_error (emailRows st) index = Some text ->
       exists e, nth_error (currentEmailList st) index = Some e /\ email e = text.
Proof.
  intros H.
  assert (Hr : rowsShowList st).
  { induction H as [result _ | st ev _ IH _ _].
    - apply step_rowsShowList. exists []. reflexivity.
    - apply step_rowsShowList. exact IH. }
  split; [exact Hr |].
  destruct Hr as [rest Hr].
  split.
  - rewrite <- (length_map email), Hr, length_app. lia.
  - intros index text Hn.
    assert (Hi : (index < List.length (emailRows st))%nat)
      by (apply nth_error_Some; congruence).
    pose proof (nth_error_map email index (currentEmailList st)) as Hm.
    rewrite Hr, nth_error_app1, Hn in Hm by exact Hi.
    destruct (nth_error (currentEmailList st) index) as [e |]; [| discriminate].
    exists e. split; [reflexivity |]. simpl in Hm. congruence.
Qed.

(** X9.  Every request of a session is one of four kinds: GET on the
    collection without body; POST on the collection with a payload that
    has no id; PUT on the contact of a non-zero id with a payload that has
    this id; DELETE on the contact of a non-zero id without body. *)
Theorem requests_are_well_formed (st : State) :
  reachable toLowerCase localeCompare allowed st ->
  Forall wellFormedRequest (requests st).
Proof.
  induction 1 as [result _ | st ev _ IH _ _].
  - apply step_wellFormedRequests. constructor.
  - apply step_wellFormedRequests. exact IH.
Qed.

End Sessions.

(* --------------------------------------------------------------------- *)
(** ** When events arrive while requests are pending *)

Section AsyncSessions.

Variable toLowerCase : jsstring -> jsstring.
Variable localeCompare : jsstring -> jsstring -> Z.

(** X7.  In every state of the page, whatever the order in which answers
    and events arrive, the selection and the snapshot are null together:
    [selectedContactId] is null exactly when [originalContact] is.  (The
    two are assigned together, by [selectContact] before it renders and by
    [clearForm].) *)
Theorem selection_has_snapshot (st : State) :
  reachableAsync toLowerCase localeCompare st ->
  selectedContactId st = None <-> originalContact st = None.
Proof.
  apply (async_by_parts toLowerCase localeCompare
           (fun s => selectedContactId s = None <-> originalContact s = None));
    clear st.
  - split; reflexivity.
  - intros st ev _ _. apply step_coupled.
  - intros st now _ H.
    destruct (commitPending_cases st now) as [-> | [e ->]]; exact H.
  - intros st r _ H. exact H.
  - intros st d H. exact H.
  - intros st e H. exact H.
  - intros st r H.
    destruct (fetchContacts_resume_form toLowerCase localeCompare st r)
      as (_ & Ho & Hs & _).
    unfold snapshotOf, selectionOf in Ho, Hs. rewrite Ho, Hs. exact H.
  - intros st c _. open_state st.
    destruct cs as [cs | e]; split; discriminate.
  - intros st _. destruct (clearForm_state st) as ((Hs & Ho & _) & _).
    rewrite Hs, Ho. tauto.
Qed.

(** X10.  In every state of the page, whatever the order in which answers
    and events arrive, a hidden form holds an empty Draft: both name fields
    are empty and there is no committed e-mail, no row and no input.  (The
    selection need not be null: a save whose form was cancelled while the
    request was pending selects the saved contact, and leaves the form
    hidden when rendering throws.) *)
Theorem hidden_form_is_empty (st : State) :
  reachableAsync toLowerCase localeCompare st ->
  contactFormHidden st = true ->
  draftEmpty st.
Proof.
  apply (async_by_parts toLowerCase localeCompare
           (fun s => contactFormHidden s = true -> draftEmpty s));
    clear st.
  - intros _. repeat split; reflexivity.
  - intros st ev. apply step_hiddenDraftEmpty.
  - intros st now Hh _ H. exfalso. revert H.
    destruct (commitPending_cases st now) as [-> | [e ->]];
      intros H; [| change (contactFormHidden st = true) in H]; congruence.
  - intros st r _ H. exact H.
  - intros st d H. exact H.
  - intros st e H. exact H.
  - intros st r H.
    destruct (fetchContacts_resume_form toLowerCase localeCompare st r)
      as (Hd & _ & _ & Hr & Ha & Hh).
    unfold draftOf in Hd. injection Hd as Hf Hl He Hi.
    unfold draftEmpty. rewrite Hh, Hf, Hl, He, Hi, Hr, Ha. exact H.
  - intros st c H. open_state st.
    destruct cs as [cs | e]; [intros H'; discriminate H' | exact H].
  - intros st _ _. apply formEmpty_draftEmpty, clearForm_state.
Qed.

End AsyncSessions.

(** X6, instance.  Adams and Zed are loaded and the search is for zed:
    Zed can be clicked and is in [contacts]. *)
Lemma rendered_list_follows_contacts_witness :
  let st :=
    run asciiLower codeUnitCompare
      [DOMContentLoaded
         (GetResponse true (JsonValue (ContactsArray [contactZed; contactAdams])));
       SearchInput (js "zed")] in
  reachable asciiLower codeUnitCompare anyEvent st
  /\ contactsListItems st = [contactZed]
  /\ listRendered asciiLower codeUnitCompare st.
Proof.
  intros st.
  assert (H : reachable asciiLower codeUnitCompare anyEvent st).
  { apply reachable_run; [exact I |]. admissible_by_computation. }
  split; [exact H |]. split; [reflexivity |].
  exact (proj1 (rendered_list_follows_contacts asciiLower codeUnitCompare
                  anyEvent st H)).
Defined.

(** X7, instance.  Zed is selected. *)
Lemma selection_has_snapshot_witness :
  let st :=
    run asciiLower codeUnitCompare
      [DOMContentLoaded (GetResponse true (JsonValue (ContactsArray [contactZed])));
       ContactClick contactZed] in
  reachableAsync asciiLower codeUnitCompare st
  /\ selectedContactId st = Some 1%Z
  /\ (selectedContactId st = None <-> originalContact st = None).
Proof.
  intros st.
  assert (H : reachableAsync asciiLower codeUnitCompare st).
  { apply (reachable_reachableAsync asciiLower codeUnitCompare anyEvent).
    apply reachable_run; [exact I |]. admissible_by_computation. }
  split; [exact H |]. split; [reflexivity |].
  exact (selection_has_snapshot asciiLower codeUnitCompare st H).
Defined.

(** X8, instance.  A save that fails after an e-mail was typed leaves the
    committed list one entry longer than the rows. *)
Lemma rows_show_committed_emails_witness :
  let st :=
    run asciiLower codeUnitCompare
      [DOMContentLoaded (GetResponse true (JsonValue (ContactsArray [])));
       AddContactClick; AddEmailClick; EmailInput (js "a@b.co");
       SaveClick 1000 (SaveRejected (js "Failed to fetch")) (GetRejected [])] in
  reachable asciiLower codeUnitCompare anyEvent st
  /\ emailRows st = []
  /\ List.map email (currentEmailList st) = [js "a@b.co"]
  /\ rowsShowList st.
Proof.
  intros st.
  assert (H : reachable asciiLower codeUnitCompare anyEvent st).
  { apply reachable_run; [exact I |]. admissible_by_computation. }
  split; [exact H |]. split; [reflexivity |]. split; [reflexivity |].
  exact (proj1 (rows_show_committed_emails asciiLower codeUnitCompare anyEvent st H)).
Defined.

(** X9, instance.  A contact is created, then Zed is selected and
    deleted. *)
Lemma requests_are_well_formed_witness :
  let st :=
    run asciiLower codeUnitCompare
      [DOMContentLoaded (GetResponse true (JsonValue (ContactsArray [contactZed])));
       AddContactClick;
       SaveClick 1000 (SaveOk (JsonValue contactAdams))
         (GetResponse true (JsonValue (ContactsArray [contactZed; contactAdams])));
       ContactClick contactZed;
       DeleteClick true (DeleteResponse true (JsonValue None))
         (GetResponse true (JsonValue (ContactsArray [contactAdams])))] in
  reachable asciiLower codeUnitCompare anyEvent st
  /\ List.map request_method (requests st) = [GET; DELETE; GET; POST; GET]
  /\ Forall wellFormedRequest (requests st).
Proof.
  intros st.
  assert (H : reachable asciiLower codeUnitCompare anyEvent st).
  { apply reachable_run; [exact I |]. admissible_by_computation. }
  split; [exact H |]. split; [reflexivity |].
  exact (requests_are_well_formed asciiLower codeUnitCompare anyEvent st H).
Defined.

(** X10, instance.  Zed is renamed and saved; the form is cancelled while
    the save request is pending; the save goes through, but the list
    request that follows is answered with an error body.  The saved
    contact is selected, rendering throws, and the form stays hidden, with
    an empty Draft. *)
Lemma hidden_form_is_empty_witness :
  let zoe := {| contact_id := 1; firstName := js "Zoe"; lastName := js "Zed";
                emails := [] |} in
  let s1 :=
    exec (fetchContacts_resume asciiLower codeUnitCompare
            (GetResponse true (JsonValue (ContactsArray [contactZed]))))
      (exec onDOMContentLoaded_start pageLoaded) in
  let s3 :=
    step asciiLower codeUnitCompare
      (step asciiLower codeUnitCompare s1 (ContactClick contactZed))
      (FirstNameInput (js "Zoe")) in
  let s5 :=
    step asciiLower codeUnitCompare (exec (saveBtn_click_start 1000) s3)
      CancelClick in
  let s7 :=
    exec (fetchContacts_resume asciiLower codeUnitCompare
            (GetResponse false (JsonValue (ContactsObject (Some (js "db down"))))))
      (exec (saveContact_resume (SaveOk (JsonValue zoe))) s5) in
  let st := exec (saveContact_finish asciiLower codeUnitCompare zoe) s7 in
  reachableAsync asciiLower codeUnitCompare st
  /\ contactFormHidden st = true
  /\ selectedContactId st = Some 1%Z
  /\ draftEmpty st.
Proof.
  intros zoe s1 s3 s5 s7 st.
  assert (H : reachableAsync asciiLower codeUnitCompare st).
  { apply async_save_finished, async_list_answered, async_save_answered.
    apply async_event; [| reflexivity | exact I].
    apply async_save_click; [| reflexivity | reflexivity].
    apply async_event; [| reflexivity | exact I].
    apply async_event; [| left; reflexivity | exact I].
    apply async_list_answered, async_loaded. }
  assert (Hh : contactFormHidden st = true) by reflexivity.
  split; [exact H |]. split; [exact Hh |]. split; [reflexivity |].
  exact (hidden_form_is_empty asciiLower codeUnitCompare st H Hh).
Defined.

(* ===================================================================== *)
(** * Editing the Draft *)
(* ===================================================================== *)

(** The listeners commit the trimmed text exactly when it is valid: the
    test for a truthy text adds nothing, the empty text being invalid. *)
Lemma emailToCommit_Some (value e : jsstring) :
  emailToCommit value = Some e <-> e = trim value /\ isValidEmail (trim value) = true.
Proof.
  unfold emailToCommit.
  destruct (trim value) as [| c t] eqn:E.
  - simpl. split; [discriminate | intros [_ H]; discriminate H].
  - cbn [truthy_string andb].
    destruct (isValidEmail (c :: t)); split;
      try discriminate; try (intros [_ H]; discriminate H).
    + intros H. injection H as <-. auto.
    + intros [-> _]. reflexivity.
Qed.

Lemma emailToCommit_None (value : jsstring) :
  emailToCommit value = None <-> isValidEmail (trim value) = false.
Proof.
  destruct (emailToCommit value) as [e |] eqn:E.
  - apply emailToCommit_Some in E. destruct E as [_ E]. rewrite E.
    split; discriminate.
  - split; [| reflexivity]. intros _.
    destruct (isValidEmail (trim value)) eqn:V; [| reflexivity].
    assert (H : emailToCommit value = Some (trim value))
      by (apply emailToCommit_Some; auto).
    congruence.
Qed.

Lemma emailPart_no_at (u : jsstring) : emailPart u -> count_occ N.eq_dec u 64 = 0%nat.
Proof.
  intros [_ H]. apply count_occ_not_In. intros Hin.
  rewrite Forall_forall in H. destruct (H 64 Hin) as [_ Hn]. apply Hn. reflexivity.
Qed.

Lemma emailPart_length (u : jsstring) : emailPart u -> (1 <= List.length u)%nat.
Proof. intros [H _]. destruct u; [contradiction | simpl; lia]. Qed.

Section Editing.

Variable toLowerCase : jsstring -> jsstring.
Variable localeCompare : jsstring -> jsstring -> Z.

(** The request of [saveContact] is sent whatever the outcome. *)
Lemma saveRequest_sent (st : State) (p : Payload) (result : SaveResult)
  (refetch : GetResult) :
  In (saveRequest p)
    (requests (exec (saveContact toLowerCase localeCompare p result refetch) st)).
Proof.
  destruct result as [m | body | [m | saved]].
  - destruct (saveContact_failed toLowerCase localeCompare st p
                (SaveRejected m) refetch I) as [message ->].
    left. reflexivity.
  - destruct (saveContact_failed toLowerCase localeCompare st p
                (SaveNotOk body) refetch I) as [message ->].
    left. reflexivity.
  - destruct (saveContact_failed toLowerCase localeCompare st p
                (SaveOk (JsonRejected m)) refetch I) as [message ->].
    left. reflexivity.
  - rewrite saveContact_ok_requests. right. left. reflexivity.
Qed.

(** The listeners that end with [checkForChanges] leave the save button in
    step with [hasChanges]. *)
Lemma checked_edit_in_step (st : State) (ev : Event) :
  isDraftEdit ev = true ->
  ev <> AddEmailClick ->
  match ev with
  | EmailInput _ | EmailEnter _ => emailInputValue st <> None
  | _ => True
  end ->
  let st' := step toLowerCase localeCompare st ev in
  saveBtnDisabled st' = negb (hasChanges st').
Proof.
  intros Hev Hadd Hen. cbv zeta. unfold step, exec.
  destruct ev as [| | | | v | now | index | v | v | | | |];
    try discriminate Hev; clear Hev; try congruence; clear Hadd.
  - assert (E : handle toLowerCase localeCompare (EmailInput v) st
                = bind (modify (set_emailInputValue (Some v)))
                    (fun _ => checkForChanges) st).
    { unfold handle, emailInput_input, bind at 1, gets. cbn [fst snd].
      destruct (emailInputValue st); [reflexivity | congruence]. }
    rewrite E. apply endsWithCheck_bind.
    + intros. apply endsWithCheck_checkForChanges.
    + reflexivity.
  - destruct (emailInputValue st) as [value |] eqn:Ei; [| congruence].
    assert (E : handle toLowerCase localeCompare (EmailEnter now) st
                = bind (match emailToCommit value with
                        | Some email =>
                            bind (modify (fun st =>
                                    set_currentEmailList
                                      (push (currentEmailList st)
                                         {| email_id := now; email := email |}) st))
                              (fun _ => bind renderEmailList
                                          (fun _ => modify (set_isAddingEmail false)))
                        | None => ret tt
                        end)
                    (fun _ => checkForChanges) st).
    { unfold handle, emailInput_enter, bind at 1, gets. cbn [fst snd].
      rewrite Ei. reflexivity. }
    rewrite E. apply endsWithCheck_bind.
    + intros. apply endsWithCheck_checkForChanges.
    + clear E. open_state st. destruct (emailToCommit value); [| reflexivity].
      destruct adding; reflexivity.
  - apply (endsWithCheck_bind unit).
    + intros. apply endsWithCheck_bind. intros. apply endsWithCheck_checkForChanges.
    + open_state st. destruct adding; reflexivity.
  - apply (endsWithCheck_bind unit).
    + intros. apply endsWithCheck_checkForChanges.
    + reflexivity.
  - apply (endsWithCheck_bind unit).
    + intros. apply endsWithCheck_checkForChanges.
    + reflexivity.
Qed.

(** The only exception that leaves a listener of the Draft is the one of
    Add email when [contacts.find] is not a function. *)
Lemma draftEdit_uncaught (st : State) (ev : Event) (message : jsstring) :
  isDraftEdit ev = true ->
  uncaught toLowerCase localeCompare st ev = Some message ->
  ev = AddEmailClick /\ addEmailThrows st /\ message = findNotFunctionMessage.
Proof.
  intros H. unfold uncaught, addEmailThrows. open_state st.
  cbn [isAddingEmail isNewContact contacts].
  destruct ev as [| | | | v | now | index | v | v | | | |];
    try discriminate H; clear H.
  - destruct adding; [intros H; discriminate H |].
    destruct isNew; [intros H; discriminate H |].
    destruct cs as [cs | e].
    + run_listener. destruct (find _ cs); intros H; discriminate H.
    + intros H. injection H as <-. eauto 6.
  - destruct input; intros H; discriminate H.
  - destruct input as [value |]; [| intros H; discriminate H].
    run_listener. destruct (emailToCommit value); [| intros H; discriminate H].
    destruct adding; intros H; discriminate H.
  - destruct adding; intros H; discriminate H.
  - intros H. discriminate H.
  - intros H. discriminate H.
Qed.

Lemma addEmail_uncaught (st : State) :
  addEmailThrows st ->
  uncaught toLowerCase localeCompare st AddEmailClick = Some findNotFunctionMessage.
Proof.
  unfold addEmailThrows. open_state st.
  cbn [isAddingEmail isNewContact contacts].
  intros (-> & -> & e & ->). reflexivity.
Qed.

Lemma draftEdits_frame (events : list Event) :
  forall st,
    forallb isDraftEdit events = true ->
    let st' := fold_left (step toLowerCase localeCompare) events st in
    requests st' = requests st
    /\ dialogs st' = dialogs st
    /\ consoleErrors st' = consoleErrors st
    /\ contacts st' = contacts st
    /\ searchQuery st' = searchQuery st
    /\ contactsListItems st' = contactsListItems st
    /\ selectionOf st' = selectionOf st
    /\ snapshotOf st' = snapshotOf st
    /\ isNewContact st' = isNewContact st
    /\ contactFormHidden st' = contactFormHidden st
    /\ deleteBtnShown st' = deleteBtnShown st.
Proof.
  cbv zeta.
  induction events as [| ev events IH]; intros st H.
  - repeat split; reflexivity.
  - simpl in H. apply andb_true_iff in H. destruct H as [Hev H].
    cbn [fold_left].
    destruct (IH (step toLowerCase localeCompare st ev) H)
      as (-> & -> & -> & -> & -> & -> & Hs & Ho & -> & -> & ->).
    unfold selectionOf, snapshotOf in Hs, Ho |- *. rewrite Hs, Ho.
    destruct (draftEdit_frame toLowerCase localeCompare st ev Hev)
      as (-> & -> & -> & -> & -> & -> & -> & -> & -> & -> & ->).
    repeat split; reflexivity.
Qed.

(** X11.  Edits of the Draft are local to the form.  Whatever sequence of
    typing in the name fields and the e-mail input, Enter, Add email and
    row deletions happens, no request is sent, no dialog is shown, the
    script calls [console.error] not once, and the contact list, the
    search, the rendered list, the selection, the snapshot and the
    visibility of the form and of the delete button stay as they were.
    One exception can leave these listeners, which the browser then
    reports on the console as an uncaught error: the [TypeError] of
    [contacts.find] in the listener of Add email, thrown exactly when
    [isAddingEmail] is not set, no contact is being created and [contacts]
    holds no array. *)
Theorem draft_edits_are_local (events : list Event) (st : State) :
  forallb isDraftEdit events = true ->
  let st' := fold_left (step toLowerCase localeCompare) events st in
  (requests st' = requests st
   /\ dialogs st' = dialogs st
   /\ consoleErrors st' = consoleErrors st
   /\ contacts st' = contacts st
   /\ searchQuery st' = searchQuery st
   /\ contactsListItems st' = contactsListItems st
   /\ selectionOf st' = selectionOf st
   /\ snapshotOf st' = snapshotOf st
   /\ isNewContact st' = isNewContact st
   /\ contactFormHidden st' = contactFormHidden st
   /\ deleteBtnShown st' = deleteBtnShown st)
  /\ (forall before ev after message,
         events = before ++ ev :: after ->
         let s := fold_left (step toLowerCase localeCompare) before st in
         uncaught toLowerCase localeCompare s ev = Some message ->
         ev = AddEmailClick
         /\ message = findNotFunctionMessage
         /\ addEmailThrows s
         /\ isNewContact st = false
         /\ exists error, contacts st = ContactsObject error)
  /\ (forall s,
         addEmailThrows s ->
         uncaught toLowerCase localeCompare s AddEmailClick
         = Some findNotFunctionMessage).
Proof.
  intros H. cbv zeta.
  split; [exact (draftEdits_frame events st H) |].
  split; [| exact addEmail_uncaught].
  intros before ev after message E Hu. subst events.
  rewrite forallb_app in H. apply andb_true_iff in H. destruct H as [Hb H].
  cbn [forallb] in H. apply andb_true_iff in H. destruct H as [Hev _].
  destruct (draftEdit_uncaught _ ev message Hev Hu) as (-> & Ht & ->).
  destruct (draftEdits_frame before st Hb) as (_ & _ & _ & Hc & _ & _ & _ & _ & Hn & _).
  split; [reflexivity |]. split; [reflexivity |]. split; [exact Ht |].
  destruct Ht as (_ & Hnew & e & He).
  rewrite <- Hn, <- Hc. eauto.
Qed.

(** X12.  Enter in the e-mail input when the trimmed text is not a valid
    e-mail (the empty text included): nothing is committed, no message is
    shown, the text stays in the input; only the save button is
    recomputed.  Without an input the key has no listener. *)
Theorem enter_without_valid_email (st : State) (now : Z) :
  (forall value, emailInputValue st = Some value ->
                 isValidEmail (trim value) = false) ->
  step toLowerCase localeCompare st (EmailEnter now)
  = match emailInputValue st with
    | Some _ => set_saveBtnDisabled (negb (hasChanges st)) st
    | None => st
    end.
Proof.
  intros H. unfold step, exec, handle, emailInput_enter, bind at 1, gets.
  cbn [fst snd].
  destruct (emailInputValue st) as [value |]; [| reflexivity].
  rewrite (proj2 (emailToCommit_None value) (H value eq_refl)). reflexivity.
Qed.

(** X13.  Enter in the e-mail input when the trimmed text is a valid
    e-mail: the trimmed text joins the end of the committed list under the
    id [now], the rows show the whole list, and [isAddingEmail] is reset.
    The list is rendered before the reset, so a fresh empty input follows
    the rows if [isAddingEmail] was set, and no input is left if it was
    not.  The save button is in step with [hasChanges], and enabled for a
    contact without snapshot. *)
Theorem enter_commits_email (st : State) (now : Z) (value : jsstring) :
  emailInputValue st = Some value ->
  isValidEmail (trim value) = true ->
  let st' := step toLowerCase localeCompare st (EmailEnter now) in
  currentEmailList st'
  = currentEmailList st ++ [{| email_id := now; email := trim value |}]
  /\ emailRows st' = List.map email (currentEmailList st')
  /\ emailInputValue st' = (if isAddingEmail st then Some [] else None)
  /\ isAddingEmail st' = false
  /\ firstNameValue st' = firstNameValue st
  /\ lastNameValue st' = lastNameValue st
  /\ saveBtnDisabled st' = negb (hasChanges st')
  /\ (originalContact st = None -> saveBtnDisabled st' = false).
Proof.
  intros Hin Hv. cbv zeta.
  assert (Hc : emailToCommit value = Some (trim value))
    by (apply emailToCommit_Some; auto).
  assert (Hfields :
            currentEmailList (step toLowerCase localeCompare st (EmailEnter now))
            = currentEmailList st ++ [{| email_id := now; email := trim value |}]
            /\ emailRows (step toLowerCase localeCompare st (EmailEnter now))
               = List.map email
                   (currentEmailList st ++ [{| email_id := now; email := trim value |}])
            /\ emailInputValue (step toLowerCase localeCompare st (EmailEnter now))
               = (if isAddingEmail st then Some [] else None)
            /\ isAddingEmail (step toLowerCase localeCompare st (EmailEnter now)) = false
            /\ firstNameValue (step toLowerCase localeCompare st (EmailEnter now))
               = firstNameValue st
            /\ lastNameValue (step toLowerCase localeCompare st (EmailEnter now))
               = lastNameValue st
            /\ originalContact (step toLowerCase localeCompare st (EmailEnter now))
               = originalContact st).
  { open_state st. cbn [emailInputValue] in Hin. subst input.
    run_listener. rewrite Hc. destruct adding; repeat split; reflexivity. }
  destruct Hfields as (Hl & Hr & Hi & Ha & Hf & Hn & Ho).
  assert (Hb : saveBtnDisabled (step toLowerCase localeCompare st (EmailEnter now))
               = negb (hasChanges (step toLowerCase localeCompare st (EmailEnter now)))).
  { apply checked_edit_in_step; [reflexivity | discriminate |].
    rewrite Hin. discriminate. }
  rewrite Hl at 1. rewrite Hr, <- Hl.
  repeat (split; [assumption || reflexivity |]).
  intros Hnone. rewrite Hb. unfold hasChanges. rewrite Ho, Hnone, Hl.
  rewrite length_app. cbn [List.length].
  replace (Nat.ltb 0 (List.length (currentEmailList st) + 1)) with true
    by (symmetry; apply Nat.ltb_lt; lia).
  rewrite !orb_true_r. reflexivity.
Qed.

(** X14.  Add email sets [isAddingEmail] and changes neither the
    committed list nor the save button.  A second click does nothing, and
    neither does a click while [isAddingEmail] is set.  The list is
    rendered anew with an empty input when a contact is being created or
    when the selected id is the id of a contact of [contacts]; when neither
    is the case setting the flag is all that happens, so that no input
    appears then or on later clicks. *)
Theorem add_email_click (st : State) :
  let st' := step toLowerCase localeCompare st AddEmailClick in
  step toLowerCase localeCompare st' AddEmailClick = st'
  /\ isAddingEmail st' = true
  /\ (isAddingEmail st = true -> st' = st)
  /\ currentEmailList st' = currentEmailList st
  /\ saveBtnDisabled st' = saveBtnDisabled st
  /\ (isAddingEmail st = false ->
      isNewContact st = true
      \/ (exists cs c, contacts st = ContactsArray cs /\ In c cs
                       /\ selectedContactId st = Some (contact_id c)) ->
      emailInputValue st' = Some []
      /\ emailRows st' = List.map email (currentEmailList st))
  /\ (isAddingEmail st = false ->
      isNewContact st = false ->
      (forall c, In c match contacts st with
                      | ContactsArray cs => cs
                      | ContactsObject _ => []
                      end ->
                 selectedContactId st <> Some (contact_id c)) ->
      emailInputValue st' = emailInputValue st
      /\ emailRows st' = emailRows st).
Proof.
  cbv zeta. open_state st.
  cbn [isAddingEmail isNewContact contacts selectedContactId currentEmailList
       emailInputValue emailRows saveBtnDisabled].
  destruct adding.
  { split; [reflexivity |]. split; [reflexivity |].
    split; [intros _; reflexivity |]. split; [reflexivity |].
    split; [reflexivity |]. split; intros H; discriminate H. }
  destruct isNew.
  { split; [reflexivity |]. split; [reflexivity |].
    split; [intros H; discriminate H |]. split; [reflexivity |].
    split; [reflexivity |].
    split; [intros _ _; split; reflexivity | intros _ H; discriminate H]. }
  destruct cs as [cs | e].
  - run_listener.
    destruct (find (fun c => strictEq_id (contact_id c) sel) cs) as [x |] eqn:F.
    + apply find_some in F. destruct F as [Hx Hid].
      split; [reflexivity |]. split; [reflexivity |].
      split; [intros H; discriminate H |]. split; [reflexivity |].
      split; [reflexivity |].
      split; [intros _ _; split; reflexivity |].
      intros _ _ Hno. exfalso. apply (Hno x Hx).
      destruct sel as [z |]; [| discriminate Hid].
      simpl in Hid. apply Z.eqb_eq in Hid. congruence.
    + split; [reflexivity |]. split; [reflexivity |].
      split; [intros H; discriminate H |]. split; [reflexivity |].
      split; [reflexivity |].
      split; [| intros _ _ _; split; reflexivity].
      intros _ [H | (cs' & c & Hcs & Hc & Hs)]; [discriminate H |].
      injection Hcs as <-. subst sel.
      pose proof (find_none _ _ F c Hc) as Hn. simpl in Hn.
      rewrite Z.eqb_refl in Hn. discriminate Hn.
  - split; [reflexivity |]. split; [reflexivity |].
    split; [intros H; discriminate H |]. split; [reflexivity |].
    split; [reflexivity |].
    split; [| intros _ _ _; split; reflexivity].
    intros _ [H | (cs' & c & Hcs & _)]; discriminate.
Qed.

(** X15.  A save that fails keeps the typed e-mail in the input after
    having committed it, so the retry commits it again: the payload of the
    second request carries the e-mail twice, under the two timestamps.
    The retry is offered whenever the first click was. *)
Theorem failed_save_then_retry (st : State) (value : jsstring)
  (now1 now2 : Z) (result1 result2 : SaveResult) (refetch1 refetch2 : GetResult) :
  emailInputValue st = Some value ->
  isValidEmail (trim value) = true ->
  saveFailed result1 ->
  let st1 := step toLowerCase localeCompare st (SaveClick now1 result1 refetch1) in
  let st2 := step toLowerCase localeCompare st1 (SaveClick now2 result2 refetch2) in
  emailInputValue st1 = Some value
  /\ currentEmailList st1
     = currentEmailList st ++ [{| email_id := now1; email := trim value |}]
  /\ (enabled st (SaveClick now1 result1 refetch1) ->
      enabled st1 (SaveClick now2 result2 refetch2))
  /\ exists p,
       In (saveRequest p) (requests st2)
       /\ payload_emails p
          = currentEmailList st
              ++ [{| email_id := now1; email := trim value |};
                  {| email_id := now2; email := trim value |}].
Proof.
  intros Hin Hv Hfail. cbv zeta.
  assert (Hc : emailToCommit value = Some (trim value))
    by (apply emailToCommit_Some; auto).
  rewrite (saveBtn_click_saveContact toLowerCase localeCompare st).
  destruct (saveContact_failed toLowerCase localeCompare (commitPending now1 st)
              (formData (commitPending now1 st)) result1 refetch1 Hfail)
    as [message E].
  rewrite E. clear E.
  assert (E1 : commitPending now1 st
               = set_currentEmailList
                   (push (currentEmailList st)
                      {| email_id := now1; email := trim value |}) st).
  { unfold commitPending. rewrite Hin, Hc. reflexivity. }
  rewrite E1. clear E1.
  generalize (saveRequest
                (formData
                   (set_currentEmailList
                      (push (currentEmailList st)
                         {| email_id := now1; email := trim value |}) st))).
  intros r1.
  split; [exact Hin |]. split; [reflexivity |]. split; [intros H; exact H |].
  rewrite saveBtn_click_saveContact.
  eexists. split; [apply saveRequest_sent |].
  unfold commitPending at 1.
  match goal with
  | [ |- context [emailInputValue ?s] ] =>
      change (emailInputValue s) with (emailInputValue st)
  end.
  rewrite Hin, Hc.
  change (push (push (currentEmailList st)
                  {| email_id := now1; email := trim value |})
            {| email_id := now2; email := trim value |}
          = currentEmailList st
              ++ [{| email_id := now1; email := trim value |};
                  {| email_id := now2; email := trim value |}]).
  unfold push. rewrite <- app_assoc. reflexivity.
Qed.

(** X16.  A save that goes through while the list request that follows is
    answered with a JSON body that is not an array: the contact is saved
    and becomes the selection and the snapshot, but rendering throws
    twice, once inside [fetchContacts], which logs it, and once inside
    [selectContact], which makes [saveContact] log it and show it in an
    alert.  The rendered list is empty, and the form is not filled with
    the saved contact: the Draft stays as the commit of the pending e-mail
    left it. *)
Theorem saved_but_list_not_array (st : State) (now : Z) (saved : Contact)
  (ok : bool) (error : option jsstring) :
  let refetch := GetResponse ok (JsonValue (ContactsObject error)) in
  let st' := step toLowerCase localeCompare st
               (SaveClick now (SaveOk (JsonValue saved)) refetch) in
  let message :=
    if negb (truthy_string (searchQuery st)) then notIterableMessage
    else filterNotFunctionMessage in
  requests st'
  = listRequest :: saveRequest (formData (commitPending now st)) :: requests st
  /\ contacts st' = ContactsObject error
  /\ contactsListItems st' = []
  /\ selectionOf st' = Some (contact_id saved)
  /\ snapshotOf st' = Some (snapshotOfContact saved)
  /\ draftOf st' = draftOf (commitPending now st)
  /\ dialogs st' = Alert message :: dialogs st
  /\ consoleErrors st'
     = (js "Error saving contact:", message)
         :: (js "Error fetching contacts:", message) :: consoleErrors st.
Proof.
  cbv zeta. rewrite saveBtn_click_saveContact, saveContact_ok_unfold. cbv zeta.
  destruct (commitPending_frame st now)
    as (_ & _ & _ & _ & _ & _ & <- & <- & <-).
  assert (Herrs : consoleErrors (commitPending now st) = consoleErrors st).
  { destruct (commitPending_cases st now)
      as [-> | [e ->]]; reflexivity. }
  rewrite <- Herrs. clear Herrs.
  generalize (saveRequest (formData (commitPending now st))).
  generalize (commitPending now st). clear st. intros st r.
  open_state st. cbn [searchQuery requests dialogs consoleErrors].
  destruct query; repeat split; reflexivity.
Qed.

(** X17.  Which listeners recompute the save button.  After typing in a
    name field or in the e-mail input, after Enter in the input and after
    the deletion of a row, the button is enabled exactly when [hasChanges]
    holds.  Add email, Add contact and Cancel leave the button as it
    was. *)
Theorem save_button_recomputed (st : State) (ev : Event) :
  enabled st ev ->
  let st' := step toLowerCase localeCompare st ev in
  (isDraftEdit ev = true -> ev <> AddEmailClick ->
   saveBtnDisabled st' = negb (hasChanges st'))
  /\ (ev = AddEmailClick \/ ev = AddContactClick \/ ev = CancelClick ->
      saveBtnDisabled st' = saveBtnDisabled st).
Proof.
  intros Hen. cbv zeta. split.
  - intros Hev Hadd. apply checked_edit_in_step; [exact Hev | exact Hadd |].
    destruct ev; try exact I; destruct Hen as [_ Hen]; exact Hen.
  - intros [-> | [-> | ->]].
    + open_state st. destruct adding; [reflexivity |].
      destruct isNew; [reflexivity |].
      destruct cs as [cs | e]; [| reflexivity].
      run_listener. destruct (find _ cs); reflexivity.
    + rewrite addContactBtn_click_steps.
      destruct (clearForm_state st) as (_ & _ & (_ & _ & _ & Hb & _) & _).
      rewrite <- Hb. generalize (exec clearForm st). intros s.
      open_state s. reflexivity.
    + destruct (clearForm_state st) as (_ & _ & (_ & _ & _ & Hb & _) & _).
      exact Hb.
Qed.

End Editing.

(** X11, instance.  Zed is selected, a name is typed, an e-mail is added
    and removed again: nothing leaves the form and no listener throws. *)
Lemma draft_edits_are_local_witness :
  let st :=
    run asciiLower codeUnitCompare
      [DOMContentLoaded (GetResponse true (JsonValue (ContactsArray [contactZed])));
       ContactClick contactZed] in
  let events :=
    [FirstNameInput (js "Zoe"); AddEmailClick; EmailInput (js "a@b.co");
     EmailEnter 1000; EmailDeleteClick 0] in
  let st' := fold_left (step asciiLower codeUnitCompare) events st in
  forallb isDraftEdit events = true
  /\ firstNameValue st' = js "Zoe"
  /\ requests st' = requests st
  /\ dialogs st' = dialogs st
  /\ uncaught asciiLower codeUnitCompare
       (step asciiLower codeUnitCompare st (FirstNameInput (js "Zoe")))
       AddEmailClick
     = None.
Proof.
  intros st events st'.
  assert (H : forallb isDraftEdit events = true) by reflexivity.
  destruct (draft_edits_are_local asciiLower codeUnitCompare events st H)
    as ((Hr & Hd & _) & _ & _).
  split; [exact H |]. split; [reflexivity |]. split; [exact Hr |].
  split; [exact Hd | reflexivity].
Defined.

(** X12, instance.  Enter on a text without a dot after the at sign. *)
Lemma enter_without_valid_email_witness :
  let st :=
    run asciiLower codeUnitCompare
      [DOMContentLoaded (GetResponse true (JsonValue (ContactsArray [])));
       AddContactClick; AddEmailClick; EmailInput (js "a@b")] in
  (forall value, emailInputValue st = Some value ->
                 isValidEmail (trim value) = false)
  /\ emailInputValue (step asciiLower codeUnitCompare st (EmailEnter 1000))
     = Some (js "a@b")
  /\ step asciiLower codeUnitCompare st (EmailEnter 1000)
     = set_saveBtnDisabled (negb (hasChanges st)) st.
Proof.
  intros st.
  assert (H : forall value, emailInputValue st = Some value ->
                            isValidEmail (trim value) = false).
  { intros value E. injection E as <-. reflexivity. }
  split; [exact H |]. split; [reflexivity |].
  exact (enter_without_valid_email asciiLower codeUnitCompare st 1000 H).
Defined.

(** X13, instance.  Two e-mails are entered one after the other for a new
    contact: after the first Enter an empty input is left, after the
    second none. *)
Lemma enter_commits_email_witness :
  let st :=
    run asciiLower codeUnitCompare
      [DOMContentLoaded (GetResponse true (JsonValue (ContactsArray [])));
       AddContactClick; AddEmailClick; EmailInput (js " a@b.co ")] in
  let st1 := step asciiLower codeUnitCompare st (EmailEnter 1000) in
  let st2 :=
    step asciiLower codeUnitCompare
      (step asciiLower codeUnitCompare st1 (EmailInput (js "c@d.ef")))
      (EmailEnter 1001) in
  emailInputValue st = Some (js " a@b.co ")
  /\ isValidEmail (trim (js " a@b.co ")) = true
  /\ currentEmailList st1 = [{| email_id := 1000; email := js "a@b.co" |}]
  /\ emailInputValue st1 = Some []
  /\ emailInputValue st2 = None
  /\ saveBtnDisabled st1 = false.
Proof.
  intros st st1 st2.
  assert (Hin : emailInputValue st = Some (js " a@b.co ")) by reflexivity.
  assert (Hv : isValidEmail (trim (js " a@b.co ")) = true) by reflexivity.
  destruct (enter_commits_email asciiLower codeUnitCompare st 1000
              (js " a@b.co ") Hin Hv)
    as (Hl & _ & Hi & _ & _ & _ & _ & Hb).
  split; [exact Hin |]. split; [exact Hv |]. split; [exact Hl |].
  split; [exact Hi |]. split; [reflexivity |]. exact (Hb eq_refl).
Defined.

(** X15, instance.  The request is rejected twice. *)
Lemma failed_save_then_retry_witness :
  let st :=
    run asciiLower codeUnitCompare
      [DOMContentLoaded (GetResponse true (JsonValue (ContactsArray [])));
       AddContactClick; AddEmailClick; EmailInput (js "a@b.co")] in
  let st2 :=
    step asciiLower codeUnitCompare
      (step asciiLower codeUnitCompare st
         (SaveClick 1000 (SaveRejected (js "Failed to fetch")) (GetRejected [])))
      (SaveClick 1001 (SaveRejected (js "Failed to fetch")) (GetRejected [])) in
  emailInputValue st = Some (js "a@b.co")
  /\ isValidEmail (trim (js "a@b.co")) = true
  /\ saveFailed (SaveRejected (js "Failed to fetch"))
  /\ exists p,
       In (saveRequest p) (requests st2)
       /\ payload_emails p
          = [{| email_id := 1000; email := js "a@b.co" |};
             {| email_id := 1001; email := js "a@b.co" |}].
Proof.
  intros st st2.
  assert (Hin : emailInputValue st = Some (js "a@b.co")) by reflexivity.
  assert (Hv : isValidEmail (trim (js "a@b.co")) = true) by reflexivity.
  destruct (failed_save_then_retry asciiLower codeUnitCompare st (js "a@b.co")
              1000 1001 (SaveRejected (js "Failed to fetch"))
              (SaveRejected (js "Failed to fetch")) (GetRejected [])
              (GetRejected []) Hin Hv I)
    as (_ & _ & _ & p & Hp & He).
  split; [exact Hin |]. split; [exact Hv |]. split; [exact I |].
  exists p. split; [exact Hp | exact He].
Defined.

(** X17, instance.  Typing a name for a new contact enables the save
    button; cancelling leaves it enabled. *)
Lemma save_button_recomputed_witness :
  let st :=
    run asciiLower codeUnitCompare
      [DOMContentLoaded (GetResponse true (JsonValue (ContactsArray [contactZed])));
       ContactClick contactZed] in
  let st1 := step asciiLower codeUnitCompare st (FirstNameInput (js "Zoe")) in
  enabled st (FirstNameInput (js "Zoe"))
  /\ saveBtnDisabled st = true
  /\ saveBtnDisabled st1 = negb (hasChanges st1)
  /\ saveBtnDisabled st1 = false.
Proof.
  intros st st1.
  assert (Hen : enabled st (FirstNameInput (js "Zoe"))) by reflexivity.
  destruct (save_button_recomputed asciiLower codeUnitCompare st
              (FirstNameInput (js "Zoe")) Hen) as [H _].
  split; [exact Hen |]. split; [reflexivity |].
  split; [| reflexivity].
  apply H; [reflexivity | discriminate].
Defined.

(* ===================================================================== *)
(** * Search, order, escaping and committed e-mails *)
(* ===================================================================== *)

Lemma unescapeHtml_entity (c : codeUnit) (s : jsstring) :
  unescapeHtml (htmlEntity c ++ s) = c :: unescapeHtml s.
Proof.
  unfold htmlEntity.
  destruct (N.eqb_spec c 38) as [-> | H38]; [reflexivity |].
  destruct (N.eqb_spec c 60) as [-> | H60]; [reflexivity |].
  destruct (N.eqb_spec c 62) as [-> | H62]; [reflexivity |].
  destruct (N.eqb_spec c 34) as [-> | H34]; [reflexivity |].
  destruct (N.eqb_spec c 39) as [-> | H39]; [reflexivity |].
  cbn [app unescapeHtml].
  rewrite (proj2 (N.eqb_neq c 38) H38). reflexivity.
Qed.

Lemma unescapeHtml_flat_map (s : jsstring) : unescapeHtml (flat_map htmlEntity s) = s.
Proof.
  induction s as [| c s IH]; [reflexivity |].
  cbn [flat_map]. rewrite unescapeHtml_entity, IH. reflexivity.
Qed.

Lemma htmlEntity_length (c : codeUnit) :
  (1 <= List.length (htmlEntity c))%nat
  /\ (List.length (htmlEntity c) = 1%nat -> isHtmlSpecial c = false)
  /\ (isHtmlSpecial c = false -> htmlEntity c = [c]).
Proof.
  unfold htmlEntity, isHtmlSpecial.
  destruct (N.eqb c 38); [simpl; repeat split; (lia || discriminate) |].
  destruct (N.eqb c 60); [simpl; repeat split; (lia || discriminate) |].
  destruct (N.eqb c 62); [simpl; repeat split; (lia || discriminate) |].
  destruct (N.eqb c 34); [simpl; repeat split; (lia || discriminate) |].
  destruct (N.eqb c 39); [simpl; repeat split; (lia || discriminate) |].
  simpl. repeat split; lia.
Qed.

Lemma flat_map_htmlEntity_length (s : jsstring) :
  (List.length s <= List.length (flat_map htmlEntity s))%nat.
Proof.
  induction s as [| c s IH]; [simpl; lia |].
  cbn [flat_map]. rewrite length_app. cbn [List.length].
  destruct (htmlEntity_length c) as [H _]. lia.
Qed.

(** X18.  [escapeHtml] loses nothing: reading the five entities back
    gives the text again, so two different texts are never shown as the
    same markup.  The escaped text is never shorter than the text. *)
Theorem escapeHtml_roundtrip :
  (forall s, unescapeHtml (escapeHtml s) = s)
  /\ (forall a b, escapeHtml a = escapeHtml b -> a = b)
  /\ (forall s, (List.length s <= List.length (escapeHtml s))%nat).
Proof.
  assert (H : forall s, unescapeHtml (escapeHtml s) = s).
  { intros s. rewrite escapeHtml_charwise. apply unescapeHtml_flat_map. }
  split; [exact H |]. split.
  - intros a b E. rewrite <- (H a), <- (H b), E. reflexivity.
  - intros s. rewrite escapeHtml_charwise. apply flat_map_htmlEntity_length.
Qed.

(** X19.  [escapeHtml] returns the text as it is exactly when the text has
    none of the five characters it replaces. *)
Theorem escapeHtml_identity (s : jsstring) :
  escapeHtml s = s <-> forallb (fun c => negb (isHtmlSpecial c)) s = true.
Proof.
  rewrite escapeHtml_charwise. split.
  - intros E. apply (f_equal (@List.length codeUnit)) in E.
    induction s as [| c s IH]; [reflexivity |].
    cbn [flat_map] in E. rewrite length_app in E. cbn [List.length] in E.
    destruct (htmlEntity_length c) as (H1 & H2 & _).
    pose proof (flat_map_htmlEntity_length s) as Hs.
    cbn [forallb]. rewrite H2 by lia. rewrite IH by lia. reflexivity.
  - induction s as [| c s IH]; [reflexivity |].
    cbn [forallb flat_map]. intros H. apply andb_true_iff in H.
    destruct H as [Hc Hs]. apply negb_true_iff in Hc.
    destruct (htmlEntity_length c) as (_ & _ & H3).
    rewrite (H3 Hc), (IH Hs). reflexivity.
Qed.

(** X20.  What Enter and the save click commit.  The text is committed
    exactly when its trimmed form is a valid e-mail, and the committed
    text is that trimmed form: it has no white space, exactly one at sign
    and at least five characters, and trimming it again changes
    nothing. *)
Theorem committed_email_is_valid (value e : jsstring) :
  emailToCommit value = Some e ->
  e = trim value
  /\ isValidEmail e = true
  /\ trim e = e
  /\ Forall (fun c => isWhiteSpace c = false) e
  /\ count_occ N.eq_dec e 64 = 1%nat
  /\ (5 <= List.length e)%nat.
Proof.
  intros H. apply emailToCommit_Some in H. destruct H as [-> Hv].
  split; [reflexivity |]. split; [exact Hv |].
  split; [apply isValidEmail_trim, Hv |].
  split; [apply isValidEmail_no_space, Hv |].
  unfold isValidEmail in Hv. rewrite anchoredTest_matches, emailRe_language in Hv.
  destruct Hv as (u & v & w & -> & Hu & Hv & Hw).
  split.
  - rewrite !count_occ_app. cbn [count_occ].
    destruct (N.eq_dec 64 64) as [_ | Hn]; [| contradiction].
    destruct (N.eq_dec 46 64) as [Hn | _]; [discriminate |].
    rewrite (emailPart_no_at u Hu), (emailPart_no_at v Hv), (emailPart_no_at w Hw).
    reflexivity.
  - destruct u as [| cu u]; [destruct Hu as [Hu _]; contradiction |].
    destruct v as [| cv v]; [destruct Hv as [Hv _]; contradiction |].
    destruct w as [| cw w]; [destruct Hw as [Hw _]; contradiction |].
    cbn [app List.length]. rewrite !length_app. cbn [List.length].
    rewrite !length_app. cbn [List.length]. lia.
Qed.

Section ListView.

Variable toLowerCase : jsstring -> jsstring.
Variable localeCompare : jsstring -> jsstring -> Z.

(** X21.  Typing in the search field sets the query and renders the list
    anew, and touches nothing else; the rendered list then follows from
    [contacts] and the query, whatever state the page was in.  Only the
    last query counts.  With the empty query every contact of the array is
    shown, each once per occurrence. *)
Theorem search_input_renders (st : State) (a b : jsstring) :
  let st1 := step toLowerCase localeCompare st (SearchInput a) in
  st1 = set_contactsListItems (contactsListItems st1) (set_searchQuery a st)
  /\ listRendered toLowerCase localeCompare st1
  /\ step toLowerCase localeCompare st1 (SearchInput b)
     = step toLowerCase localeCompare st (SearchInput b)
  /\ forall cs,
       contacts st = ContactsArray cs ->
       Permutation
         (contactsListItems (step toLowerCase localeCompare st (SearchInput [])))
         cs.
Proof.
  cbv zeta. open_state st. unfold listRendered.
  split; [destruct cs as [cs | e]; reflexivity |].
  split; [destruct cs as [cs | e]; reflexivity |].
  split; [destruct cs as [cs | e]; reflexivity |].
  intros array H. cbn [contacts] in H. subst cs.
  change (Permutation
            (arraySort (byLastName localeCompare) array) array).
  apply arraySort_perm.
Qed.

(** X22.  The sort of [renderContactsList] is stable: contacts whose last
    names the comparison does not tell apart are shown in the order they
    have in [contacts]. *)
Theorem equal_last_names_keep_order (cs : list Contact) (query : jsstring)
  (a : Contact) :
  consistentCompare localeCompare ->
  List.filter (sameRank localeCompare a)
    (sortedContacts toLowerCase localeCompare cs query)
  = List.filter (sameRank localeCompare a) (filterContacts toLowerCase cs query).
Proof.
  intros [_ Htrans]. unfold sortedContacts.
  apply (arraySort_stable Contact (byLastName localeCompare)).
  intros x y z. apply Htrans.
Qed.


End ListView.

(** X20, instance.  The text is trimmed before it is committed. *)
Lemma committed_email_is_valid_witness :
  emailToCommit (js " a@b.co ") = Some (js "a@b.co")
  /\ count_occ N.eq_dec (js "a@b.co") 64 = 1%nat
  /\ trim (js "a@b.co") = js "a@b.co".
Proof.
  assert (H : emailToCommit (js " a@b.co ") = Some (js "a@b.co")) by reflexivity.
  destruct (committed_email_is_valid (js " a@b.co ") (js "a@b.co") H)
    as (_ & _ & Ht & _ & Hc & _).
  split; [exact H |]. split; [exact Hc | exact Ht].
Defined.

(** X22, instance.  Two contacts with the last name Zed keep their order,
    Adams coming first. *)
Lemma equal_last_names_keep_order_witness :
  let zed2 := {| contact_id := 3; firstName := js "Al"; lastName := js "Zed";
                 emails := [] |} in
  consistentCompare codeUnitCompare
  /\ sortedContacts asciiLower codeUnitCompare [contactZed; contactAdams; zed2] []
     = [contactAdams; contactZed; zed2]
  /\ List.filter (sameRank codeUnitCompare contactZed)
       (sortedContacts asciiLower codeUnitCompare [contactZed; contactAdams; zed2] [])
     = [contactZed; zed2].
Proof.
  intros zed2.
  split; [exact codeUnitCompare_consistent |]. split; [reflexivity |].
  exact (equal_last_names_keep_order asciiLower codeUnitCompare
           [contactZed; contactAdams; zed2] [] contactZed
           codeUnitCompare_consistent).
Defined.


